(** * The Salsify sender of alfalfa: scheduler, feedback rule, CLI parser, TwoD

    A shallow embedding of [src/frontend/salsify-sender.cc] and [dx3/2d.hh].

    Machine integers are values of [Z] with the wrap-around of their C++
    type written out; exceptions and undefined behaviour are explicit
    results; the variables captured by reference by the poller callbacks of
    [main] are the fields of one [state] record that every handler
    transforms. *)

From Stdlib Require Import ZArith String Ascii Bool Lia List.
From Stdlib Require Import DecimalString DecimalPos DecimalN.
Import ListNotations.

Open Scope Z_scope.

(** ** Machine arithmetic (LP64: [unsigned int] is 32 bits, [long] and
    [size_t] are 64 bits) *)

Module Cxx.

Definition UINT8_MOD  : Z := 2 ^ 8.
Definition UINT16_MOD : Z := 2 ^ 16.
Definition UINT32_MOD : Z := 2 ^ 32.
Definition UINT64_MOD : Z := 2 ^ 64.

Definition UINT32_MAX : Z := UINT32_MOD - 1.
Definition UINT64_MAX : Z := UINT64_MOD - 1.
Definition INT64_MAX  : Z := 2 ^ 63 - 1.
Definition INT64_MIN  : Z := - 2 ^ 63.

(** Conversion to an unsigned type keeps the value modulo [2^w]. *)
Definition to_uint8  (x : Z) : Z := x mod UINT8_MOD.
Definition to_uint16 (x : Z) : Z := x mod UINT16_MOD.
Definition to_uint32 (x : Z) : Z := x mod UINT32_MOD.
Definition to_uint64 (x : Z) : Z := x mod UINT64_MOD.

(** [static_cast<int64_t>] of a 64-bit unsigned value: two's complement. *)
Definition to_int64 (x : Z) : Z :=
  let u := to_uint64 x in
  if u <=? INT64_MAX then u else u - UINT64_MOD.

Definition in_uint32 (x : Z) : Prop := 0 <= x < UINT32_MOD.
Definition in_uint64 (x : Z) : Prop := 0 <= x < UINT64_MOD.

(** What a C++ expression evaluates to. *)
Inductive exception : Type :=
| runtime_error (what : string)
| out_of_range (what : string)
| invalid_argument (what : string).

Inductive result (A : Type) : Type :=
| Ok (a : A)
| Throw (e : exception)
| Undefined.                (* undefined behaviour *)

Arguments Ok {A} a.
Arguments Throw {A} e.
Arguments Undefined {A}.

Definition bind {A B : Type} (m : result A) (k : A -> result B) : result B :=
  match m with
  | Ok a => k a
  | Throw e => Throw e
  | Undefined => Undefined
  end.

(** Multiplication of two [long] values: overflow is undefined. *)
Definition mul_long (a b : Z) : result Z :=
  let p := a * b in
  if (INT64_MIN <=? p) && (p <=? INT64_MAX) then Ok p else Undefined.

End Cxx.

Import Cxx.

Notation "x <- m ;; k" := (bind m (fun x => k))
  (at level 61, m at next level, right associativity).

(** ** [target_size] (salsify-sender.cc, lines 82-93)

    [avg_delay] is a [uint32_t], [last_acked] and [last_sent] are
    [uint64_t].  [max_delay / avg_delay] is a 32-bit unsigned quotient; the
    subtraction is done on 64-bit unsigned values, its result reinterpreted
    as [int64_t]; [max] is taken with [0l]; the product with [1400] is a
    product of [long]s, converted to [size_t] on return.  The three lines
    written to [cerr] have no effect on the result. *)

Definition target_size (avg_delay last_acked last_sent : Z) : result Z :=
  let max_delay := 100 * 1000 in
  let avg_delay := if avg_delay =? 0 then 1 else avg_delay in
  let packets := to_uint64 (last_sent - last_acked) in
  let budget := to_int64 (to_uint64 (max_delay / avg_delay - packets)) in
  bytes <- mul_long 1400 (Z.max 0 budget) ;;
  Ok (to_uint64 bytes).

(** The rule as the specification words it, over unbounded integers. *)
Definition target_size_rule (avg_delay last_acked cumulative_fpf_back : Z) : Z :=
  1400 * Z.max 0 (100000 / Z.max avg_delay 1 - (cumulative_fpf_back - last_acked)).

(** ** The CLI integer parser (salsify-sender.cc, lines 100-108) *)

Module Cli.

Local Open Scope string_scope.
Local Open Scope Z_scope.

Definition ULONG_MAX : Z := UINT64_MAX.

(** [isspace] in the "C" locale: space, \t, \n, \v, \f, \r. *)
Definition isspace (c : ascii) : bool :=
  let n := Z.of_nat (nat_of_ascii c) in
  (n =? 32) || ((9 <=? n) && (n <=? 13)).

Definition digit_value (c : ascii) : option Z :=
  let n := Z.of_nat (nat_of_ascii c) in
  if (48 <=? n) && (n <=? 57) then Some (n - 48) else None.

Definition isdigit (c : ascii) : bool :=
  match digit_value c with Some _ => true | None => false end.

Fixpoint skip_space (s : string) : string :=
  match s with
  | String c r => if isspace c then skip_space r else s
  | EmptyString => s
  end.

(** The digit loop of [strtoul] in base 10: consumes the longest prefix of
    digits, accumulating its value; the rest of the string is ignored. *)
Fixpoint digits_acc (s : string) (acc : Z) : Z :=
  match s with
  | String c r =>
      match digit_value c with
      | Some d => digits_acc r (10 * acc + d)
      | None => acc
      end
  | EmptyString => acc
  end.

Definition starts_with_digit (s : string) : bool :=
  match s with
  | String c _ => isdigit c
  | EmptyString => false
  end.

(** [std::stoul( str )], i.e. [strtoul( str.c_str(), &end, 10 )]:
    leading white space, one optional sign, then digits.
    No digit converted: [invalid_argument]; a value beyond [ULONG_MAX]:
    [out_of_range]; with a minus sign the value is negated as an
    [unsigned long]. *)
Definition stoul (str : string) : result Z :=
  let s := skip_space str in
  let '(negative, s) :=
    match s with
    | String "-" r => (true, r)
    | String "+" r => (false, r)
    | _ => (false, s)
    end in
  if negb (starts_with_digit s) then Throw (invalid_argument "stoul")
  else
    let v := digits_acc s 0 in
    if v >? ULONG_MAX then Throw (out_of_range "stoul")
    else Ok (if negative then to_uint64 (- v) else v).

(** [std::to_string( unsigned )]: the decimal digits, ["0"] for zero. *)
Definition to_string (n : Z) : string :=
  NilZero.string_of_uint (N.to_uint (Z.to_N n)).

Definition paranoid_atoi (in_ : string) : result Z :=
  v <- stoul in_ ;;
  let ret := to_uint32 v in           (* const unsigned int ret = stoul( in ) *)
  let roundtrip := to_string ret in
  if negb (String.eqb roundtrip in_) then
    Throw (runtime_error ("invalid unsigned integer: " ++ in_)%string)
  else Ok ret.

(** The value a string of decimal digits denotes; [None] when some
    character is not a digit or the string is empty. *)
Fixpoint decimal_acc (s : string) (acc : Z) : option Z :=
  match s with
  | String c r =>
      match digit_value c with
      | Some d => decimal_acc r (10 * acc + d)
      | None => None
      end
  | EmptyString => Some acc
  end.

Definition decimal_value (s : string) : option Z :=
  match s with
  | EmptyString => None
  | _ => decimal_acc s 0
  end.

Fixpoint all_digits (s : string) : bool :=
  match s with
  | String c r => isdigit c && all_digits r
  | EmptyString => true
  end.

Definition rejected (in_ : string) : Prop :=
  exists e, paranoid_atoi in_ = Throw e.

End Cli.

(** ** [TwoD] and [TwoDSubRange] (dx3/2d.hh) *)

Module TwoDim.

Section Container.

Variable T : Type.

Record TwoD : Type := mkTwoD {
  width_ : Z;                 (* unsigned int *)
  height_ : Z;                (* unsigned int *)
  storage_ : list T           (* std::vector< T > *)
}.

Definition guard_message : string :=
  "attempted to read outside of TwoD structure"%string.

(** The [what()] of the exception of [std::vector::at].  The standard
    fixes the class of the exception, [std::out_of_range]; the text is the
    one libstdc++ formats in [_M_range_check], from the index and the
    size. *)
Definition range_check_message (n size : Z) : string :=
  ("vector::_M_range_check: __n (which is " ++ Cli.to_string n
   ++ ") >= this->size() (which is " ++ Cli.to_string size ++ ")")%string.

(** [std::vector::at]: checked access. *)
Definition vector_at (v : list T) (n : Z) : result T :=
  match nth_error v (Z.to_nat n) with
  | Some x => Ok x
  | None => Throw (out_of_range (range_check_message n (Z.of_nat (length v))))
  end.

(** [TwoD::at] (lines 75-81); [row * width_ + column] is computed on
    [unsigned int]. *)
Definition TwoD_at (t : TwoD) (column row : Z) : result T :=
  if (column >? width_ t) || (row >? height_ t) then
    Throw (out_of_range guard_message)
  else vector_at (storage_ t) (to_uint32 (row * width_ t + column)).

(** The constructor (lines 56-73) fills [storage_] row by row, so the
    element of column [c] and row [r] is the one of index
    [r * width_ + c]. *)
Definition stored_at (t : TwoD) (column row : Z) : option T :=
  nth_error (storage_ t) (Z.to_nat (row * width_ t + column)).

(** What the constructor establishes. *)
Record TwoD_wf (t : TwoD) : Prop := {
  wf_width : 0 < width_ t < UINT32_MOD;
  wf_height : 0 < height_ t < UINT32_MOD;
  wf_storage : Z.of_nat (length (storage_ t)) = width_ t * height_ t
}.

Record TwoDSubRange : Type := mkTwoDSubRange {
  master_ : TwoD;             (* TwoD< T > & *)
  column_ : Z;
  row_ : Z;
  sub_width_ : Z;
  sub_height_ : Z
}.

(** [TwoDSubRange::at] (lines 134-140). *)
Definition TwoDSubRange_at (s : TwoDSubRange) (column row : Z) : result T :=
  if (column >? sub_width_ s) || (row >? sub_height_ s) then
    Throw (out_of_range guard_message)
  else TwoD_at (master_ s) (to_uint32 (column_ s + column))
                           (to_uint32 (row_ s + row)).

(** The assertions of the constructor (lines 115-116). *)
Record TwoDSubRange_wf (s : TwoDSubRange) : Prop := {
  sub_master : TwoD_wf (master_ s);
  sub_origin : 0 <= column_ s /\ 0 <= row_ s;
  sub_extent : 0 <= sub_width_ s /\ 0 <= sub_height_ s;
  sub_columns : column_ s + sub_width_ s <= width_ (master_ s);
  sub_rows : row_ s + sub_height_ s <= height_ (master_ s)
}.

(** The constructor (lines 56-73).  [T] is built from a [Context]: its
    column and row and, when there are any, the elements above and to the
    left of it, which the constructor looks up with [at] in the part of
    [storage_] that is already filled.  The source passes pointers to
    these elements, which [reserve] keeps in place; here the context holds
    the elements themselves. *)
Record Context : Type := mkContext {
  ctx_column : Z;
  ctx_row : Z;
  ctx_above : option T;
  ctx_left : option T
}.

Variable construct : Context -> T.

Definition optional_at (present : bool) (t : TwoD) (column row : Z)
  : result (option T) :=
  if present then x <- TwoD_at t column row ;; Ok (Some x) else Ok None.

(** The body of the inner loop (lines 67-70). *)
Definition emplace (row column : Z) (t : TwoD) : result TwoD :=
  above <- optional_at (row >? 0) t column (row - 1) ;;
  left <- optional_at (column >? 0) t (column - 1) row ;;
  Ok (mkTwoD (width_ t) (height_ t)
             (storage_ t ++ [construct (mkContext column row above left)])).

(** [for ( unsigned int i = first; ...; i++ )], run [count] times. *)
Fixpoint for_loop (count : nat) (i : Z) (body : Z -> TwoD -> result TwoD)
         (t : TwoD) : result TwoD :=
  match count with
  | O => Ok t
  | S n => t' <- body i t ;; for_loop n (i + 1) body t'
  end.

(** The two [assert]s, [width > 0] and [height > 0], are the precondition
    under which the constructor is used. *)
Definition TwoD_new (width height : Z) : result TwoD :=
  for_loop (Z.to_nat height) 0
           (fun row => for_loop (Z.to_nat width) 0 (fun column => emplace row column))
           (mkTwoD width height []).

(** The loops have filled the first [n] places of a container of width
    [w] and height [h]: place [i] holds the element built for column
    [i mod w] of row [i / w] from the elements then above and to the left
    of it. *)
Definition element_ok (w : Z) (t : TwoD) (i : Z) : Prop :=
  exists x,
    nth_error (storage_ t) (Z.to_nat i) = Some x /\
    x = construct
          (mkContext (i mod w) (i / w)
             (if i / w >? 0 then nth_error (storage_ t) (Z.to_nat (i - w)) else None)
             (if i mod w >? 0 then nth_error (storage_ t) (Z.to_nat (i - 1)) else None)).

Record filled (w h : Z) (t : TwoD) (n : Z) : Prop := {
  filled_width : width_ t = w;
  filled_height : height_ t = h;
  filled_length : Z.of_nat (length (storage_ t)) = n;
  filled_elements : forall i, 0 <= i < n -> element_ok w t i
}.

End Container.

Arguments mkTwoD {T}.
Arguments width_ {T}.
Arguments height_ {T}.
Arguments storage_ {T}.
Arguments vector_at {T}.
Arguments TwoD_at {T}.
Arguments stored_at {T}.
Arguments TwoD_wf {T}.
Arguments mkTwoDSubRange {T}.
Arguments master_ {T}.
Arguments column_ {T}.
Arguments row_ {T}.
Arguments sub_width_ {T}.
Arguments sub_height_ {T}.
Arguments TwoDSubRange_at {T}.
Arguments TwoDSubRange_wf {T}.
Arguments mkContext {T}.
Arguments ctx_column {T}.
Arguments ctx_row {T}.
Arguments ctx_above {T}.
Arguments ctx_left {T}.
Arguments optional_at {T}.
Arguments emplace {T}.
Arguments for_loop {T}.
Arguments TwoD_new {T}.
Arguments element_ok {T}.
Arguments filled {T}.

End TwoDim.

(** ** The sender (salsify-sender.cc) *)

(** The collaborators declared in [encoder.hh], [yuv4mpeg.hh] and
    [packet.hh]: the codec, whose two encoding methods advance the encoder
    they are called on and return the compressed frame, and the number of
    fragments a [FragmentedFrame] cuts a compressed frame into. *)
Class Codec : Type := {
  Encoder : Type;
  RasterHandle : Type;
  encode_with_quantizer : Encoder -> RasterHandle -> Z -> Encoder * list Byte.byte;
  encode_with_target_size : Encoder -> RasterHandle -> Z -> Encoder * list Byte.byte;
  fragments_in_this_frame : list Byte.byte -> Z
}.

Module Sender.

Inductive EncoderMode : Type :=
| CONSTANT_QUANTIZER
| TARGET_FRAME_SIZE
| OTHER_MODE.                 (* the remaining enumerators of encoder.hh *)

Definition MAX_SKIPPED : Z := 5.
Definition MS_PER_SECOND : Z := 1000.
Definition fps : Z := 12.
Definition time_per_frame : Z := MS_PER_SECOND / fps.      (* milliseconds *)
Definition EXIT_FAILURE : Z := 1.

Inductive ResultType : Type :=
| Continue
| Exit (status : Z).

(** An acknowledgement, as [AckPacket] parses it. *)
Record AckPacket : Type := mkAck {
  ack_connection_id : Z;      (* uint16_t *)
  ack_frame_no : Z;           (* uint32_t *)
  ack_fragment_no : Z;        (* uint16_t *)
  ack_avg_delay : Z           (* uint32_t *)
}.

(** What [FragmentedFrame::send] puts on the socket for one frame. *)
Record FragmentedFrame : Type := mkFragmentedFrame {
  ff_connection_id : Z;
  ff_frame_no : Z;
  ff_time_to_next_frame : Z;  (* microseconds *)
  ff_frame : list Byte.byte
}.

(** The two values read from the command line. *)
Record config : Type := mkConfig {
  y_ac_qi : Z;                (* const unsigned int *)
  connection_id : Z           (* const uint16_t *)
}.

Section WithCodec.

Context {codec : Codec}.

Record EncodeJob : Type := mkEncodeJob {
  job_frame_no : Z;         (* uint32_t *)
  job_raster : RasterHandle;
  job_encoder : Encoder;
  job_mode : EncoderMode;
  job_y_ac_qi : Z;          (* uint8_t *)
  job_target_size : Z       (* size_t *)
}.

Record EncodeOutput : Type := mkEncodeOutput {
  out_encoder : Encoder;
  out_frame : list Byte.byte;
  out_encode_time : Z       (* milliseconds *)
}.

(** [ms_elapsed] is what the two readings of the system clock differ by. *)
Definition do_encode_job (ms_elapsed : Z) (encode_job : EncodeJob)
  : result EncodeOutput :=
  match job_mode encode_job with
  | CONSTANT_QUANTIZER =>
      let '(enc, output) :=
        encode_with_quantizer (job_encoder encode_job) (job_raster encode_job)
                              (job_y_ac_qi encode_job) in
      Ok (mkEncodeOutput enc output ms_elapsed)
  | TARGET_FRAME_SIZE =>
      let '(enc, output) :=
        encode_with_target_size (job_encoder encode_job) (job_raster encode_job)
                                (job_target_size encode_job) in
      Ok (mkEncodeOutput enc output ms_elapsed)
  | OTHER_MODE => Throw (runtime_error "unsupported encoding mode.")
  end.

(** A [std::future<EncodeOutput>].  [valid] is [future::valid()]: the
    future refers to a shared state, which holds from the [std::async]
    that made it until [get()] is called, whether or not the result has
    been computed.  [ready_at_deadline] records whether the job had
    finished when [wait_until( encode_deadline )] returned; the program
    discards that information, no handler reads it. *)
Record future : Type := mkFuture {
  valid : bool;
  ready_at_deadline : bool;
  shared_state : result EncodeOutput
}.

(** How one job runs on the wall clock. *)
Record job_clock : Type := mkClock {
  ms_elapsed : Z;
  finishes_by_deadline : bool
}.

Definition async (timing : EncodeJob -> job_clock) (job : EncodeJob) : future :=
  mkFuture true (finishes_by_deadline (timing job))
           (do_encode_job (ms_elapsed (timing job)) job).

(** [get()] waits for the result and releases the shared state. *)
Definition future_get (f : future) : result EncodeOutput * future :=
  (shared_state f, mkFuture false (ready_at_deadline f) (shared_state f)).

(** The variables of [main] that the callbacks capture, with the socket
    and the coordinator threads they act on. *)
Record state : Type := mkState {
  avg_delay : Z;                      (* uint32_t *)
  cumulative_fpf : list Z;            (* vector<uint64_t> *)
  last_acked : Z;                     (* uint64_t *)
  skipped_count : Z;                  (* size_t *)
  encoder : Encoder;
  frame_no : Z;                       (* unsigned int *)
  last_raster : option RasterHandle;
  encode_jobs : list EncodeJob;
  encode_outputs : list future;
  socket_sent : list FragmentedFrame; (* frames sent, oldest first *)
  generations : nat                   (* coordinator threads started whose
                                         byte on encode_ended_pipe has not
                                         been read yet *)
}.

Definition initial_state (encoder0 : Encoder) : state :=
  mkState UINT32_MAX [] UINT64_MAX 0 encoder0 0 None [] [] [] 0%nat.

Definition set_avg_delay (v : Z) (s : state) : state :=
  mkState v (cumulative_fpf s) (last_acked s) (skipped_count s) (encoder s)
          (frame_no s) (last_raster s) (encode_jobs s) (encode_outputs s)
          (socket_sent s) (generations s).

Definition set_last_acked (v : Z) (s : state) : state :=
  mkState (avg_delay s) (cumulative_fpf s) v (skipped_count s) (encoder s)
          (frame_no s) (last_raster s) (encode_jobs s) (encode_outputs s)
          (socket_sent s) (generations s).

Definition set_skipped_count (v : Z) (s : state) : state :=
  mkState (avg_delay s) (cumulative_fpf s) (last_acked s) v (encoder s)
          (frame_no s) (last_raster s) (encode_jobs s) (encode_outputs s)
          (socket_sent s) (generations s).

Definition set_last_raster (v : option RasterHandle) (s : state) : state :=
  mkState (avg_delay s) (cumulative_fpf s) (last_acked s) (skipped_count s)
          (encoder s) (frame_no s) v (encode_jobs s) (encode_outputs s)
          (socket_sent s) (generations s).

Definition set_encode_jobs (v : list EncodeJob) (s : state) : state :=
  mkState (avg_delay s) (cumulative_fpf s) (last_acked s) (skipped_count s)
          (encoder s) (frame_no s) (last_raster s) v (encode_outputs s)
          (socket_sent s) (generations s).

Definition set_encode_outputs (v : list future) (s : state) : state :=
  mkState (avg_delay s) (cumulative_fpf s) (last_acked s) (skipped_count s)
          (encoder s) (frame_no s) (last_raster s) (encode_jobs s) v
          (socket_sent s) (generations s).

Definition set_generations (v : nat) (s : state) : state :=
  mkState (avg_delay s) (cumulative_fpf s) (last_acked s) (skipped_count s)
          (encoder s) (frame_no s) (last_raster s) (encode_jobs s)
          (encode_outputs s) (socket_sent s) v.

Definition socket_send (ff : FragmentedFrame) (s : state) : state :=
  mkState (avg_delay s) (cumulative_fpf s) (last_acked s) (skipped_count s)
          (encoder s) (frame_no s) (last_raster s) (encode_jobs s)
          (encode_outputs s) (socket_sent s ++ [ff]) (generations s).

(** Lines 297-304: the four assignments and the [clear] that end the
    generation-ended callback. *)
Definition commit (entry : Z) (enc : Encoder) (s : state) : state :=
  mkState (avg_delay s) (cumulative_fpf s ++ [entry]) (last_acked s) 0 enc
          (to_uint32 (frame_no s + 1)) (last_raster s) [] (encode_outputs s)
          (socket_sent s) (generations s).

(** What a callback leaves behind: its [Result] and the variables, an
    exception that escapes it, or undefined behaviour; in the last two
    cases with the variables as they were at that point. *)
Inductive handled : Type :=
| Done (r : ResultType) (s : state)
| Raised (e : exception) (s : state)
| Undef (s : state).

(** *** Raster callback (lines 182-193) *)
Definition raster_handler (next_frame : option RasterHandle) (s : state) : handled :=
  let s := set_last_raster next_frame s in
  match last_raster s with
  | None => Done (Exit EXIT_FAILURE) s
  | Some _ => Done Continue s
  end.

(** *** Tick callback (lines 197-269) *)

Definition constant_quantizer_job (qi : Z) (j : EncodeJob) : EncodeJob :=
  mkEncodeJob (job_frame_no j) (job_raster j) (job_encoder j)
              CONSTANT_QUANTIZER (to_uint8 qi) (job_target_size j).

Definition target_size_job (bytes : Z) (j : EncodeJob) : EncodeJob :=
  mkEncodeJob (job_frame_no j) (job_raster j) (job_encoder j)
              TARGET_FRAME_SIZE (job_y_ac_qi j) bytes.

(** The outcome of lines 219-241. *)
Inductive plan : Type :=
| Encode (job : EncodeJob)
| SkipFrame (s : state)
| PlanUndefined.

(** [vector::back()], defined on a non-empty vector only. *)
Fixpoint back (v : list Z) : option Z :=
  match v with
  | [] => None
  | [x] => Some x
  | _ :: r => back r
  end.

(** The [else] block, lines 224-240.  [back()] of an empty vector is
    undefined. *)
Definition feedback_branch (s : state) (encode_job : EncodeJob) : plan :=
  match back (cumulative_fpf s) with
  | None => PlanUndefined
  | Some last_sent =>
      match target_size (avg_delay s) (last_acked s) last_sent with
      | Ok frame_size =>
          if (frame_size <=? 0) && (skipped_count s <? MAX_SKIPPED) then
            SkipFrame (set_skipped_count (to_uint64 (skipped_count s + 1)) s)
          else if frame_size =? 0 then
            Encode (target_size_job 1400 encode_job)
          else
            Encode (target_size_job frame_size encode_job)
      | _ => PlanUndefined
      end
  end.

Definition choose_mode (cfg : config) (s : state) (encode_job : EncodeJob) : plan :=
  if true || (avg_delay s =? UINT32_MAX) then
    Encode (constant_quantizer_job (y_ac_qi cfg) encode_job)
  else
    feedback_branch s encode_job.

(** The detached thread of lines 246-262: one future per job; when it
    has waited for each of them up to the deadline it writes one byte to
    [encode_ended_pipe], which makes the generation-ended callback run. *)
Definition start_generation (timing : EncodeJob -> job_clock) (s : state) : state :=
  set_generations (S (generations s))
    (set_encode_outputs (map (async timing) (encode_jobs s)) s).

Definition tick_handler (cfg : config) (timing : EncodeJob -> job_clock)
           (s : state) : handled :=
  if Z.of_nat (length (encode_jobs s)) >? 0 then Done Continue s
  else
    match last_raster s with
    | None => Done Continue s
    | Some raster =>
        let encode_job :=
          mkEncodeJob (frame_no s) raster (encoder s) CONSTANT_QUANTIZER 0 0 in
        match choose_mode cfg s encode_job with
        | SkipFrame s' => Done Continue s'
        | PlanUndefined => Undef s
        | Encode encode_job =>
            let s := set_encode_jobs (encode_jobs s ++ [encode_job]) s in
            Done Continue (start_generation timing s)
        end
    end.

(** *** Generation-ended callback (lines 271-309) *)

(** [find_if]: the first future satisfying the predicate, with what
    comes before and after it. *)
Fixpoint find_if (p : future -> bool) (l : list future)
  : option (list future * future * list future) :=
  match l with
  | [] => None
  | f :: r =>
      if p f then Some ([], f, r)
      else match find_if p r with
           | Some (before, x, after) => Some (f :: before, x, after)
           | None => None
           end
  end.

Definition frame_interval_us : Z := to_uint32 (time_per_frame * 1000).

Definition generation_ended_handler (cfg : config) (s : state) : handled :=
  let s := set_generations (pred (generations s)) s in   (* the pipe is read *)
  if negb (existsb valid (encode_outputs s)) then
    Done Continue (set_encode_jobs [] s)
  else
    match find_if valid (encode_outputs s) with
    | None => Undef s                 (* dereferencing end() *)
    | Some (before, out_future, after) =>
        let '(got, consumed) := future_get out_future in
        let s := set_encode_outputs (before ++ consumed :: after) s in
        match got with
        | Throw e => Raised e s
        | Undefined => Undef s
        | Ok output =>
            let ff := mkFragmentedFrame (connection_id cfg) (frame_no s)
                                        frame_interval_us (out_frame output) in
            let s := socket_send ff s in
            let fragments := fragments_in_this_frame (ff_frame ff) in
            if frame_no s >? 0 then
              match nth_error (cumulative_fpf s) (Z.to_nat (frame_no s - 1)) with
              | None => Undef s       (* operator[] out of range *)
              | Some previous =>
                  Done Continue
                       (commit (to_uint64 (previous + fragments))
                               (out_encoder output) s)
              end
            else
              Done Continue (commit (to_uint64 fragments) (out_encoder output) s)
        end
    end.

(** *** Acknowledgement callback (lines 311-331) *)
Definition ack_handler (cfg : config) (ack : AckPacket) (s : state) : handled :=
  if negb (ack_connection_id ack =? connection_id cfg) then Done Continue s
  else
    let s := set_avg_delay (ack_avg_delay ack) s in
    if ack_frame_no ack >? 0 then
      match nth_error (cumulative_fpf s) (Z.to_nat (ack_frame_no ack - 1)) with
      | None => Undef s               (* operator[] out of range *)
      | Some sent_before =>
          Done Continue
               (set_last_acked (to_uint64 (sent_before + ack_fragment_no ack)) s)
      end
    else
      Done Continue (set_last_acked (ack_fragment_no ack) s).

(** *** The poller loop (lines 334-339) *)

Inductive event : Type :=
| RasterReadable (next_frame : option RasterHandle)
| Tick (timing : EncodeJob -> job_clock)
| GenerationEnded
| AckReceived (ack : AckPacket).

Definition handle (cfg : config) (ev : event) (s : state) : handled :=
  match ev with
  | RasterReadable next_frame => raster_handler next_frame s
  | Tick timing => tick_handler cfg timing s
  | GenerationEnded => generation_ended_handler cfg s
  | AckReceived ack => ack_handler cfg ack s
  end.

(** [encode_ended_pipe] is readable only when a coordinator thread has
    written to it. *)
Definition fires (ev : event) (s : state) : Prop :=
  match ev with
  | GenerationEnded => (0 < generations s)%nat
  | _ => True
  end.

(** The states the loop goes through as long as every callback returns
    [Continue]. *)
Inductive reachable (cfg : config) (encoder0 : Encoder) : state -> Prop :=
| reach_initial : reachable cfg encoder0 (initial_state encoder0)
| reach_step s ev s' :
    reachable cfg encoder0 s ->
    fires ev s ->
    handle cfg ev s = Done Continue s' ->
    reachable cfg encoder0 s'.

(** A tick is valid when neither guard of lines 202-210 stops it. *)
Definition valid_tick (s : state) : Prop :=
  encode_jobs s = [] /\ last_raster s <> None.

Definition fragments_of (ff : FragmentedFrame) : Z :=
  fragments_in_this_frame (ff_frame ff).

(** Running totals [c0; c0+c1; c0+c1+c2; ...] of a list of counts. *)
Fixpoint running_total_from (start : Z) (counts : list Z) : list Z :=
  match counts with
  | [] => []
  | c :: r => (start + c) :: running_total_from (start + c) r
  end.

Definition running_total (counts : list Z) : list Z :=
  running_total_from 0 counts.

Fixpoint strictly_increasing (l : list Z) : Prop :=
  match l with
  | a :: ((b :: _) as r) => a < b /\ strictly_increasing r
  | _ => True
  end.

(** The first output, in order of submission, that had finished by the
    deadline. *)
Definition first_ready (outputs : list future) : option future :=
  find ready_at_deadline outputs.

Definition total (counts : list Z) : Z := fold_right Z.add 0 counts.

(** The job a valid tick builds (lines 217-221). *)
Definition first_job (cfg : config) (s : state) (raster : RasterHandle)
  : EncodeJob :=
  mkEncodeJob (frame_no s) raster (encoder s) CONSTANT_QUANTIZER
              (to_uint8 (y_ac_qi cfg)) 0.

(** The entry pushed on [cumulative_fpf] (lines 297-298) for a frame
    cut into [fragments] fragments. *)
Definition next_entry (s : state) (fragments : Z) : Z :=
  if frame_no s >? 0 then
    to_uint64 (nth (Z.to_nat (frame_no s - 1)) (cumulative_fpf s) 0 + fragments)
  else to_uint64 fragments.

(** The frame handed to the socket (lines 290-294). *)
Definition emitted (cfg : config) (s : state) (output : EncodeOutput)
  : FragmentedFrame :=
  mkFragmentedFrame (connection_id cfg) (frame_no s) frame_interval_us
                    (out_frame output).

(** What holds between two callbacks, whatever events have occurred. *)
Record invariant (s : state) : Prop := {
  inv_generations : generations s = length (encode_jobs s);
  inv_one_job : (length (encode_jobs s) <= 1)%nat;
  inv_outputs :
    encode_jobs s <> [] ->
    exists f output,
      encode_outputs s = [f] /\ valid f = true /\ shared_state f = Ok output;
  inv_skipped : skipped_count s = 0;
  inv_length : length (cumulative_fpf s) = length (socket_sent s);
  inv_frame_no : frame_no s = to_uint32 (Z.of_nat (length (socket_sent s)));
  inv_totals :
    Z.of_nat (length (socket_sent s)) <= UINT32_MOD ->
    cumulative_fpf s
    = map to_uint64 (running_total (map fragments_of (socket_sent s)))
}.

End WithCodec.

End Sender.

(** ** A concrete codec and concrete states, to run the model on *)

Module Fixture.

Import Sender.

(** The encoder counts the frames it has encoded; a raster is named by a
    number; a constant-quantizer frame has as many bytes as that number,
    a size-targeted frame has the size asked for; a frame is cut into
    fragments of up to 1400 bytes, as the specification describes the
    fragmenter. *)
#[export] Instance counting_codec : Codec := {|
  Encoder := Z;
  RasterHandle := Z;
  encode_with_quantizer := fun e r _ => (e + 1, repeat Byte.x00 (Z.to_nat r));
  encode_with_target_size := fun e _ n => (e + 1, repeat Byte.x00 (Z.to_nat n));
  fragments_in_this_frame := fun f => (Z.of_nat (length f) + 1399) / 1400
|}.

Definition cfg : config := mkConfig 32 7.

Definition on_time : EncodeJob -> job_clock := fun _ => mkClock 40 true.
Definition too_late : EncodeJob -> job_clock := fun _ => mkClock 200 false.

Definition can_fire (ev : event) (s : state) : bool :=
  match ev with
  | GenerationEnded => (0 <? generations s)%nat
  | _ => true
  end.

(** Serving a list of events in turn, as long as each one can occur and
    its callback returns [Continue]. *)
Fixpoint steps (evs : list event) (s : state) : option state :=
  match evs with
  | [] => Some s
  | ev :: rest =>
      if can_fire ev s then
        match handle cfg ev s with
        | Done Continue s' => steps rest s'
        | _ => None
        end
      else None
  end.

Definition state_of (h : handled) : state :=
  match h with
  | Done _ s => s
  | Raised _ s => s
  | Undef s => s
  end.

Definition encoder0 : Encoder := 0.
Definition camera_frame : RasterHandle := 4100.

Definition start : state := initial_state encoder0.

Definition after (evs : list event) : state :=
  match steps evs start with
  | Some s => s
  | None => start
  end.

Definition first_frame : list event :=
  [RasterReadable (Some camera_frame); Tick on_time; GenerationEnded].

Definition acknowledged (delay : Z) : list event :=
  first_frame ++ [AckReceived (mkAck 7 1 0 delay)].

Definition raster_only : list event := [RasterReadable (Some camera_frame)].
Definition late_tick : list event := [RasterReadable (Some camera_frame); Tick too_late].
Definition timely_tick : list event := [RasterReadable (Some camera_frame); Tick on_time].

(** A raster of 4100 bytes has arrived; nothing has been sent. *)
Definition with_raster : state := Eval vm_compute in after raster_only.

(** One frame, of three fragments, has been sent. *)
Definition one_sent : state := Eval vm_compute in after first_frame.

(** That frame has been acknowledged in full, with an average delay of
    1 ms: the feedback rule gives 100 packets, 140000 bytes. *)
Definition acked : state := Eval vm_compute in after (acknowledged 1000).

(** The same with an average delay of 200 ms, for which the feedback rule
    gives 0 bytes, and with [skipped_count] set to [MAX_SKIPPED]: values
    of the variables that no run of the loop gives, to try lines 224 to
    240 on. *)
Definition quota_exhausted : state :=
  Eval vm_compute in set_skipped_count MAX_SKIPPED (after (acknowledged 200000)).

(** A generation whose only job is still running at the deadline. *)
Definition late_generation : state :=
  Eval vm_compute in after late_tick.

(** What the generation-ended callback makes of it. *)
Definition late_frame_sent : state :=
  Eval vm_compute in state_of (generation_ended_handler cfg late_generation).

(** A generation whose only job has finished in time. *)
Definition timely_generation : state :=
  Eval vm_compute in after timely_tick.

Definition second_tick : list event :=
  first_frame ++ [RasterReadable (Some 1500); Tick on_time].

(** A second generation in flight after a first frame has been sent. *)
Definition second_generation : state := Eval vm_compute in after second_tick.

(** An acknowledgement for frame 5, of which nothing is known yet. *)
Definition early_ack : AckPacket := mkAck 7 5 0 1234.

Definition second_frame : list event := second_tick ++ [GenerationEnded].

(** Two frames, of three and of two fragments, have been sent. *)
Definition two_sent : state := Eval vm_compute in after second_frame.

Definition third_tick : list event :=
  second_frame ++ [RasterReadable (Some 2800); Tick on_time].

(** A third generation in flight after two frames have been sent. *)
Definition third_generation : state := Eval vm_compute in after third_tick.

(** Values of the variables that no run of the loop gives, to try the
    generation-ended callback on more than one output: of three outputs
    the first has been consumed, the second finished in time and the third
    did not; the skip counter is 3. *)
Definition consumed_output : future :=
  Eval vm_compute in snd (future_get (async on_time (first_job cfg one_sent 1111))).

Definition ready_output : future :=
  Eval vm_compute in async on_time (first_job cfg one_sent 2222).

Definition late_output : future :=
  Eval vm_compute in async too_late (first_job cfg one_sent 3333).

(** What the second of them holds: the encoder after a second frame and
    a frame of 2222 bytes, encoded in 40 ms. *)
Definition second_encoder : Encoder := 2.

Definition ready_result : EncodeOutput :=
  mkEncodeOutput second_encoder (repeat Byte.x00 2222) 40.

Definition three_outputs : state :=
  Eval vm_compute in
    set_skipped_count 3
      (set_encode_outputs [consumed_output; ready_output; late_output] one_sent).

(** The same with two pending outputs, of which the first did not finish
    in time and the second did. *)
Definition late_before_ready : state :=
  Eval vm_compute in
    set_encode_outputs [late_output; ready_output] one_sent.

(** One turn of the loop on a raster that encodes to a single fragment,
    and [n] such turns. *)
Definition small_frame : RasterHandle := 1.

Definition round : list event :=
  [RasterReadable (Some small_frame); Tick on_time; GenerationEnded].

Fixpoint rounds (n : nat) : list event :=
  match n with
  | O => []
  | S k => rounds k ++ round
  end.

End Fixture.

(** ** More of the sender: the command line, runs of the loop, what the
    wire and the encoder have seen *)

Module Session.

Import Sender.

(** How [main] gets to its loop (lines 110-133). *)
Inductive startup : Type :=
| Aborted                               (* abort() *)
| Exited (status : Z)                   (* return from main *)
| Failed (e : exception)                (* an exception leaves main *)
| Unspecified                           (* undefined behaviour *)
| Started (cfg : config) (host port : string).

(** The arguments, [argv[0]] included: no argument at all aborts, a
    number of arguments other than five prints the usage and returns.  The
    YUV4MPEG reader opened on the standard input between these tests and
    the two conversions takes no part in them. *)
Definition parse_command_line (argv : list string) : startup :=
  match argv with
  | [] => Aborted
  | [_; quantizer; host; port; id] =>
      match Cli.paranoid_atoi quantizer with
      | Ok qi =>
          match Cli.paranoid_atoi id with
          | Ok c => Started (mkConfig qi (to_uint16 c)) host port
          | Throw e => Failed e
          | Undefined => Unspecified
          end
      | Throw e => Failed e
      | Undefined => Unspecified
      end
  | _ => Exited EXIT_FAILURE
  end.

Section WithCodec.

Context {codec : Codec}.

Definition enabled (ev : event) (s : state) : bool :=
  match ev with
  | GenerationEnded => (0 <? generations s)%nat
  | _ => true
  end.

(** The loop serving a list of events, as long as each of them can occur
    and its callback returns [Continue]. *)
Fixpoint run (cfg : config) (evs : list event) (s : state) : option state :=
  match evs with
  | [] => Some s
  | ev :: rest =>
      if enabled ev s then
        match handle cfg ev s with
        | Done Continue s' => run cfg rest s'
        | _ => None
        end
      else None
  end.

Definition is_ack (ev : event) : bool :=
  match ev with
  | AckReceived _ => true
  | _ => false
  end.

Definition without_acks (evs : list event) : list event :=
  filter (fun ev => negb (is_ack ev)) evs.

(** Two states that differ at most in what the acknowledgements write. *)
Definition with_feedback (delay acked : Z) (s : state) : state :=
  set_last_acked acked (set_avg_delay delay s).

Definition same_but_feedback (s1 s2 : state) : Prop :=
  s2 = with_feedback (avg_delay s2) (last_acked s2) s1.

Definition on_state (g : state -> state) (h : handled) : handled :=
  match h with
  | Done r s => Done r (g s)
  | Raised e s => Raised e (g s)
  | Undef s => Undef (g s)
  end.

(** Encoding a list of rasters one after the other at a fixed quantizer:
    the encoder left at the end and the frames produced. *)
Fixpoint replay (qi : Z) (e : Encoder) (rasters : list RasterHandle)
  : Encoder * list (list Byte.byte) :=
  match rasters with
  | [] => (e, [])
  | r :: rest =>
      let '(e1, frame) := encode_with_quantizer e r qi in
      let '(e2, frames) := replay qi e1 rest in
      (e2, frame :: frames)
  end.

(** What the frames sent and the job in flight have to do with the
    committed encoder. *)
Record history (cfg : config) (encoder0 : Encoder) (s : state) : Prop := {
  hist_replay :
    exists rasters,
      length rasters = length (socket_sent s) /\
      replay (to_uint8 (y_ac_qi cfg)) encoder0 rasters
      = (encoder s, map ff_frame (socket_sent s));
  hist_job :
    forall job jobs, encode_jobs s = job :: jobs ->
      jobs = [] /\
      job_encoder job = encoder s /\
      job_frame_no job = frame_no s /\
      job_mode job = CONSTANT_QUANTIZER /\
      job_y_ac_qi job = to_uint8 (y_ac_qi cfg) /\
      exists timing, encode_outputs s = [async timing job];
  hist_numbers :
    map ff_frame_no (socket_sent s)
    = map (fun k => to_uint32 (Z.of_nat k)) (seq 0 (length (socket_sent s)));
  hist_headers :
    Forall (fun ff => ff_connection_id ff = connection_id cfg /\
                      ff_time_to_next_frame ff = 83000)
           (socket_sent s)
}.

(** The rasters the camera delivers, one readable event each. *)
Definition arrivals (rasters : list RasterHandle) : list event :=
  map (fun r => RasterReadable (Some r)) rasters.

(** An acknowledgement of this session for a frame that has not been
    sent. *)
Definition ack_beyond (cfg : config) (ev : event) (s : state) : Prop :=
  match ev with
  | AckReceived ack =>
      ack_connection_id ack = connection_id cfg /\
      Z.of_nat (length (socket_sent s)) < ack_frame_no ack
  | _ => False
  end.

End WithCodec.

End Session.

(** ** More of dx3/2d.hh: the places [at] refers to, [forall], the
    constructors of [TwoDSubRange] *)

Module TwoDOps.

Import TwoDim.

Section Ops.

Variable T : Type.

(** [at] returns a reference: the place in [storage_] that
    [std::vector::at] has checked. *)
Definition vector_place (v : list T) (n : Z) : result nat :=
  if (Z.to_nat n <? length v)%nat then Ok (Z.to_nat n)
  else Throw (out_of_range (range_check_message n (Z.of_nat (length v)))).

Definition TwoD_place (t : TwoD T) (column row : Z) : result nat :=
  if (column >? width_ t) || (row >? height_ t) then
    Throw (out_of_range guard_message)
  else vector_place (storage_ t) (to_uint32 (row * width_ t + column)).

Definition TwoDSubRange_place (s : TwoDSubRange T) (column row : Z) : result nat :=
  if (column >? sub_width_ s) || (row >? sub_height_ s) then
    Throw (out_of_range guard_message)
  else TwoD_place (master_ s) (to_uint32 (column_ s + column))
                              (to_uint32 (row_ s + row)).

(** Writing through a reference. *)
Fixpoint store (v : list T) (i : nat) (x : T) : list T :=
  match v, i with
  | [], _ => []
  | _ :: rest, O => x :: rest
  | y :: rest, S j => y :: store rest j x
  end.

Definition with_storage (t : TwoD T) (v : list T) : TwoD T :=
  mkTwoD (width_ t) (height_ t) v.

Definition with_master (s : TwoDSubRange T) (m : TwoD T) : TwoDSubRange T :=
  mkTwoDSubRange m (column_ s) (row_ s) (sub_width_ s) (sub_height_ s).

(** The constructors of [TwoDSubRange] (lines 108-132); [None] when an
    assertion fails.  The sums are sums of [unsigned int]s. *)
Definition inside_master (s : TwoDSubRange T) : bool :=
  (to_uint32 (column_ s + sub_width_ s) <=? width_ (master_ s))
  && (to_uint32 (row_ s + sub_height_ s) <=? height_ (master_ s)).

Definition TwoDSubRange_new (master : TwoD T) (column row width height : Z)
  : option (TwoDSubRange T) :=
  let s := mkTwoDSubRange master column row width height in
  if inside_master s then Some s else None.

Definition TwoDSubRange_sub (parent : TwoDSubRange T) (column row width height : Z)
  : option (TwoDSubRange T) :=
  let s := mkTwoDSubRange (master_ parent)
                          (to_uint32 (column + column_ parent))
                          (to_uint32 (row + row_ parent))
                          width height in
  if inside_master s then Some s else None.

Section Forall.

(** [forall] (lines 19-35) calls [f] on [at( column, row )] for every row
    and, in it, every column.  [f] may change the element it is given and
    whatever it has captured, of type [A]. *)
Variable A : Type.

Fixpoint iterate {S : Type} (count : nat) (i : Z) (body : Z -> S -> result S)
         (s : S) : result S :=
  match count with
  | O => Ok s
  | S n => s' <- body i s ;; iterate n (i + 1) body s'
  end.

Definition call_on (f : A -> T -> A * T) (place : result nat) (st : A * list T)
  : result (A * list T) :=
  i <- place ;;
  match nth_error (snd st) i with
  | Some x => let '(a, x') := f (fst st) x in Ok (a, store (snd st) i x')
  | None => Undefined
  end.

(** The loops of the second overload, over an object whose [width()],
    [height()] and [at()] are given; the first overload is the case of an
    [f] that ignores the column and the row. *)
Definition forall_loops (width height : Z) (place : list T -> Z -> Z -> result nat)
           (f : A -> T -> Z -> Z -> A * T) (st : A * list T) : result (A * list T) :=
  iterate (Z.to_nat height) 0
    (fun row =>
       iterate (Z.to_nat width) 0
         (fun column st =>
            call_on (fun a x => f a x column row) (place (snd st) column row) st))
    st.

Definition TwoD_forall (f : A -> T -> Z -> Z -> A * T) (t : TwoD T) (a : A)
  : result (A * TwoD T) :=
  st <- forall_loops (width_ t) (height_ t)
          (fun v => TwoD_place (with_storage t v)) f (a, storage_ t) ;;
  Ok (fst st, with_storage t (snd st)).

Definition TwoDSubRange_forall (f : A -> T -> Z -> Z -> A * T)
           (s : TwoDSubRange T) (a : A) : result (A * TwoDSubRange T) :=
  st <- forall_loops (sub_width_ s) (sub_height_ s)
          (fun v => TwoDSubRange_place (with_master s (with_storage (master_ s) v)))
          f (a, storage_ (master_ s)) ;;
  Ok (fst st, with_master s (with_storage (master_ s) (snd st))).

(** Going through a list once, from place [i] on, calling [f] with the
    column and the row of each place in a container of width [w]. *)
Fixpoint sweep (w : Z) (f : A -> T -> Z -> Z -> A * T) (i : Z) (a : A) (v : list T)
  : A * list T :=
  match v with
  | [] => (a, [])
  | x :: rest =>
      let '(a1, x') := f a x (i mod w) (i / w) in
      let '(a2, rest') := sweep w f (i + 1) a1 rest in
      (a2, x' :: rest')
  end.

(** The same for the rectangle of width [w'] and height [h'] whose first
    place is column [col0] of row [row0]: [f] is called on the places of
    the rectangle only, with their column and row in the rectangle. *)
Definition in_rect (w col0 row0 w' h' i : Z) : bool :=
  (col0 <=? i mod w) && (i mod w <? col0 + w')
  && (row0 <=? i / w) && (i / w <? row0 + h').

Fixpoint sweep_rect (w col0 row0 w' h' : Z) (f : A -> T -> Z -> Z -> A * T)
         (i : Z) (a : A) (v : list T) : A * list T :=
  match v with
  | [] => (a, [])
  | x :: rest =>
      let '(a1, x') :=
        if in_rect w col0 row0 w' h' i
        then f a x (i mod w - col0) (i / w - row0)
        else (a, x) in
      let '(a2, rest') := sweep_rect w col0 row0 w' h' f (i + 1) a1 rest in
      (a2, x' :: rest')
  end.

(** How far the loops over a rectangle have come in a vector that was
    [v0] at first: the first [cursor] places have been gone through. *)
Definition swept (w col0 row0 w' h' : Z) (f : A -> T -> Z -> Z -> A * T)
           (v0 : list T) (a : A) (cursor : Z) (st : A * list T) : Prop :=
  exists pre post,
    v0 = pre ++ post /\ Z.of_nat (length pre) = cursor /\
    st = (fst (sweep_rect w col0 row0 w' h' f 0 a pre),
          snd (sweep_rect w col0 row0 w' h' f 0 a pre) ++ post).

(** The place the loops have reached when [r] rows are done. *)
Definition row_end (w col0 row0 w' r : Z) : Z :=
  if r =? 0 then 0 else (row0 + r - 1) * w + col0 + w'.

End Forall.

(** The place [(column, row)] of the master lies in the rectangle of the
    sub-range. *)
Definition in_rectangle (s : TwoDSubRange T) (column row : Z) : Prop :=
  column_ s <= column < column_ s + sub_width_ s /\
  row_ s <= row < row_ s + sub_height_ s.

End Ops.

Arguments vector_place {T}.
Arguments TwoD_place {T}.
Arguments TwoDSubRange_place {T}.
Arguments store {T}.
Arguments with_storage {T}.
Arguments with_master {T}.
Arguments inside_master {T}.
Arguments TwoDSubRange_new {T}.
Arguments TwoDSubRange_sub {T}.
Arguments iterate {S}.
Arguments call_on {T A}.
Arguments forall_loops {T A}.
Arguments TwoD_forall {T A}.
Arguments TwoDSubRange_forall {T A}.
Arguments sweep {T A}.
Arguments sweep_rect {T A}.
Arguments swept {T A}.
Arguments in_rectangle {T}.

End TwoDOps.

(** ** The quota of [target_size]

    What [max_delay / avg_delay] comes to once an [avg_delay] of 0 has
    been replaced by 1 (line 86). *)
Definition quota (avg_delay : Z) : Z := 100000 / Z.max avg_delay 1.

(** * Properties *)

(** ** Machine arithmetic *)

Lemma to_uint64_small x : in_uint64 x -> to_uint64 x = x.
Proof. unfold in_uint64, to_uint64. intros H. now apply Z.mod_small. Qed.

Lemma to_uint32_small x : in_uint32 x -> to_uint32 x = x.
Proof. unfold in_uint32, to_uint32. intros H. now apply Z.mod_small. Qed.

Lemma to_uint64_negative x :
  - UINT64_MOD <= x < 0 -> to_uint64 x = x + UINT64_MOD.
Proof.
  unfold to_uint64, UINT64_MOD. intros H.
  symmetry. apply (Z.mod_unique x (2 ^ 64) (-1) (x + 2 ^ 64)); lia.
Qed.

Lemma to_uint64_range x : in_uint64 (to_uint64 x).
Proof. unfold in_uint64, to_uint64, UINT64_MOD. apply Z.mod_pos_bound. lia. Qed.

Lemma to_uint32_range x : in_uint32 (to_uint32 x).
Proof. unfold in_uint32, to_uint32, UINT32_MOD. apply Z.mod_pos_bound. lia. Qed.

(** ** [target_size] *)

Example target_size_one_packet : target_size 100000 7 7 = Ok 1400.
Proof. reflexivity. Qed.

Example target_size_two_in_flight : target_size 100000 5 7 = Ok 0.
Proof. reflexivity. Qed.

Example target_size_zero_delay : target_size 0 0 0 = Ok 140000000.
Proof. reflexivity. Qed.

Lemma quotient_bounds a : 1 <= a -> 0 <= 100000 / a <= 100000.
Proof.
  intros Ha. split.
  - apply Z.div_pos; lia.
  - apply Z.div_le_upper_bound; nia.
Qed.

(** C4, as stated, fails: with more than [2^63] packets in flight the
    difference, read as an [int64_t], is positive again. *)
Lemma target_size_sign_counterexample :
  in_uint32 200000 /\ 0 <= 0 <= UINT64_MAX /\ in_uint64 UINT64_MAX /\
  target_size 200000 0 UINT64_MAX = Ok 1400 /\
  target_size_rule 200000 0 UINT64_MAX = 0 /\
  target_size 200000 0 UINT64_MAX <> Ok (target_size_rule 200000 0 UINT64_MAX).
Proof.
  repeat split; try (vm_compute; congruence); try reflexivity.
Qed.

(** C4 (amended): for a 32-bit [avg_delay] and 64-bit counters with
    [last_acked <= last_sent], as long as the packets in flight exceed the
    quotient [100000 / max(avg_delay, 1)] by at most [2^63], [target_size]
    returns exactly [1400 * max(0, 100000 / max(avg_delay, 1) -
    (last_sent - last_acked))]. *)
Theorem target_size_follows_rule avg_delay last_acked last_sent :
  in_uint32 avg_delay ->
  in_uint64 last_sent ->
  0 <= last_acked <= last_sent ->
  last_sent - last_acked <= 2 ^ 63 + 100000 / Z.max avg_delay 1 ->
  target_size avg_delay last_acked last_sent
  = Ok (target_size_rule avg_delay last_acked last_sent).
Proof.
  intros Hd Hs Ha Hw.
  unfold target_size, target_size_rule.
  assert (Hmax : (if avg_delay =? 0 then 1 else avg_delay) = Z.max avg_delay 1).
  { unfold in_uint32 in Hd. destruct (Z.eqb_spec avg_delay 0); lia. }
  rewrite Hmax. clear Hmax.
  assert (H1 : 1 <= Z.max avg_delay 1) by lia.
  pose proof (quotient_bounds _ H1) as Hq.
  change (100 * 1000) with 100000.
  set (q := 100000 / Z.max avg_delay 1) in *.
  set (p := last_sent - last_acked) in *.
  assert (Hp : in_uint64 p) by (unfold in_uint64, UINT64_MOD in *; subst p; lia).
  rewrite (to_uint64_small p Hp).
  destruct (Z_le_gt_dec p q) as [Hle | Hgt].
  - assert (Hr : in_uint64 (q - p)) by (unfold in_uint64, UINT64_MOD in *; lia).
    unfold to_int64. rewrite !(to_uint64_small _ Hr).
    unfold INT64_MAX.
    destruct (Z.leb_spec (q - p) (2 ^ 63 - 1)); [| lia].
    rewrite Z.max_r by lia.
    unfold mul_long, INT64_MIN, INT64_MAX. cbn [bind].
    destruct (Z.leb_spec (- 2 ^ 63) (1400 * (q - p))); [| lia].
    destruct (Z.leb_spec (1400 * (q - p)) (2 ^ 63 - 1)); [| lia].
    cbn [andb bind]. f_equal. apply to_uint64_small.
    unfold in_uint64, UINT64_MOD. lia.
  - assert (Hn : - UINT64_MOD <= q - p < 0) by (unfold in_uint64, UINT64_MOD in *; lia).
    unfold to_int64. rewrite (to_uint64_negative _ Hn).
    assert (Hr : in_uint64 (q - p + UINT64_MOD))
      by (unfold in_uint64, UINT64_MOD in *; lia).
    rewrite (to_uint64_small _ Hr).
    unfold INT64_MAX, UINT64_MOD.
    destruct (Z.leb_spec (q - p + 2 ^ 64) (2 ^ 63 - 1)); [lia |].
    replace (q - p + 2 ^ 64 - 2 ^ 64) with (q - p) by lia.
    rewrite !Z.max_l by lia.
    reflexivity.
Qed.

Lemma target_size_follows_rule_witness :
  target_size 100000 5 7 = Ok (target_size_rule 100000 5 7).
Proof.
  apply (target_size_follows_rule 100000 5 7);
    unfold in_uint32, in_uint64, UINT32_MOD, UINT64_MOD; simpl; lia.
Defined.

(** ** [TwoD::at] and [TwoDSubRange::at] *)

Section TwoDProperties.

Import TwoDim.

Variable T : Type.

Example at_column_width :
  TwoD_at (mkTwoD 2 3 [10; 11; 20; 21; 30; 31]) 2 0 = Ok 20.
Proof. reflexivity. Qed.

Example at_row_height :
  TwoD_at (mkTwoD 2 3 [10; 11; 20; 21; 30; 31]) 0 3
  = Throw (out_of_range
             "vector::_M_range_check: __n (which is 6) >= this->size() (which is 6)").
Proof. reflexivity. Qed.

Example constructed_2_by_3 :
  TwoD_new (fun c => 10 * ctx_row c + ctx_column c) 2 3
  = Ok (mkTwoD 2 3 [0; 1; 10; 11; 20; 21]).
Proof. reflexivity. Qed.

Example at_beyond_width :
  TwoD_at (mkTwoD 2 3 [10; 11; 20; 21; 30; 31]) 3 0
  = Throw (out_of_range guard_message).
Proof. reflexivity. Qed.

Lemma vector_at_in_range (v : list T) (n : Z) :
  0 <= n < Z.of_nat (length v) ->
  exists x, nth_error v (Z.to_nat n) = Some x /\ vector_at v n = Ok x.
Proof.
  intros Hn. unfold vector_at.
  destruct (nth_error v (Z.to_nat n)) as [x |] eqn:E.
  - now exists x.
  - apply nth_error_None in E. lia.
Qed.

Lemma guard_passes (a b wa wb : Z) :
  a <= wa -> b <= wb -> (a >? wa) || (b >? wb) = false.
Proof.
  intros Ha Hb.
  destruct (Z.gtb_spec a wa); [lia |].
  destruct (Z.gtb_spec b wb); [lia |]. reflexivity.
Qed.

(** An access inside the container returns the element stored there. *)
Lemma TwoD_at_inside (t : TwoD T) (column row : Z) :
  TwoD_wf t ->
  width_ t * height_ t <= UINT32_MOD ->
  0 <= column < width_ t -> 0 <= row < height_ t ->
  exists x, TwoD_at t column row = Ok x /\ stored_at t column row = Some x.
Proof.
  intros [Hw Hh Hlen] Hfit Hc Hr.
  unfold TwoD_at, stored_at.
  rewrite guard_passes by lia.
  assert (Hidx : 0 <= row * width_ t + column < width_ t * height_ t) by nia.
  rewrite to_uint32_small by (unfold in_uint32; lia).
  destruct (vector_at_in_range (storage_ t) (row * width_ t + column)) as [x [E1 E2]].
  - lia.
  - exists x. now split.
Qed.

(** The guard lets [column = width_] through, and the index computed is
    the one of column 0 in the next row. *)
Lemma TwoD_at_next_row (t : TwoD T) (r : Z) :
  TwoD_wf t -> 0 <= r -> r + 1 < height_ t ->
  exists x,
    TwoD_at t (width_ t) r = Ok x /\
    TwoD_at t 0 (r + 1) = Ok x /\
    (width_ t * height_ t <= UINT32_MOD -> stored_at t 0 (r + 1) = Some x).
Proof.
  intros [Hw Hh Hlen] Hr0 Hr.
  unfold TwoD_at, stored_at.
  rewrite !guard_passes by lia.
  replace (r * width_ t + width_ t) with ((r + 1) * width_ t + 0) by ring.
  set (i := (r + 1) * width_ t + 0).
  assert (Hi : 0 <= i < width_ t * height_ t) by (subst i; nia).
  pose proof (to_uint32_range i) as Hu. unfold in_uint32 in Hu.
  assert (Hle : to_uint32 i <= i).
  { unfold to_uint32, UINT32_MOD. apply Z.mod_le; lia. }
  destruct (vector_at_in_range (storage_ t) (to_uint32 i)) as [x [E1 E2]].
  - lia.
  - exists x. repeat split; trivial.
    intros Hfit. rewrite to_uint32_small in E1; trivial.
    unfold in_uint32. lia.
Qed.

(** The guard of the sub-range lets [column = width_] and [row = height_]
    through as well: the access is forwarded to the master. *)
Lemma TwoDSubRange_at_forwarded (s : TwoDSubRange T) (column row : Z) :
  TwoDSubRange_wf s ->
  0 <= column <= sub_width_ s -> 0 <= row <= sub_height_ s ->
  TwoDSubRange_at s column row
  = TwoD_at (master_ s) (column_ s + column) (row_ s + row).
Proof.
  intros [[Hw Hh Hlen] [Hc0 Hr0] [Hsw Hsh] Hcols Hrows] Hc Hr.
  unfold TwoDSubRange_at.
  rewrite guard_passes by lia.
  rewrite !to_uint32_small by (unfold in_uint32; lia).
  reflexivity.
Qed.

(** *** The constructor *)

Section Constructor.

Variable construct : Context T -> T.
Variables w h : Z.
Hypothesis Hw : 0 < w < UINT32_MOD.
Hypothesis Hh : 0 < h < UINT32_MOD.
Hypothesis Hfit : w * h <= UINT32_MOD.

Lemma position_of_index (r c : Z) :
  0 <= c < w -> (r * w + c) mod w = c /\ (r * w + c) / w = r.
Proof.
  intros Hc. split.
  - rewrite Z.add_comm, Z.mod_add by lia. now apply Z.mod_small.
  - rewrite Z.add_comm, Z.div_add by lia. rewrite Z.div_small by lia. lia.
Qed.

Lemma at_filled (t : TwoD T) (n c r : Z) :
  filled construct w h t n -> 0 <= c < w -> 0 <= r < h -> r * w + c < n -> n <= w * h ->
  exists x, TwoD_at t c r = Ok x /\ nth_error (storage_ t) (Z.to_nat (r * w + c)) = Some x.
Proof.
  intros [Fw Fh Fl Fe] Hc Hr Hlt Hn.
  unfold TwoD_at. rewrite Fw, Fh.
  destruct (Z.gtb_spec c w); [lia |].
  destruct (Z.gtb_spec r h); [lia |]. cbn [orb].
  assert (0 <= r * w + c) by nia.
  rewrite to_uint32_small by (unfold in_uint32; lia).
  unfold vector_at.
  destruct (nth_error (storage_ t) (Z.to_nat (r * w + c))) as [x |] eqn:E.
  - now exists x.
  - apply nth_error_None in E. lia.
Qed.

Lemma emplace_filled (t : TwoD T) (r c : Z) :
  0 <= c < w -> 0 <= r < h ->
  filled construct w h t (r * w + c) ->
  exists t', emplace construct r c t = Ok t' /\ filled construct w h t' (r * w + c + 1).
Proof.
  intros Hc Hr F.
  assert (Hn : r * w + c < w * h) by nia.
  assert (Hn0 : 0 <= r * w + c) by nia.
  pose proof F as [Fw Fh Fl Fe].
  unfold emplace, optional_at.
  (* above *)
  assert (Ha : exists above,
             (if r >? 0 then x <- TwoD_at t c (r - 1) ;; Ok (Some x) else Ok None) = Ok above /\
             above = if r >? 0 then nth_error (storage_ t) (Z.to_nat (r * w + c - w)) else None).
  { destruct (Z.gtb_spec r 0).
    - destruct (at_filled t (r * w + c) c (r - 1) F) as [x [E1 E2]]; try lia.
      exists (Some x). rewrite E1. cbn. split; trivial.
      rewrite <- E2. do 2 f_equal. lia.
    - now exists None. }
  destruct Ha as [above [Ea Eabove]].
  assert (Hl : exists left,
             (if c >? 0 then x <- TwoD_at t (c - 1) r ;; Ok (Some x) else Ok None) = Ok left /\
             left = if c >? 0 then nth_error (storage_ t) (Z.to_nat (r * w + c - 1)) else None).
  { destruct (Z.gtb_spec c 0).
    - destruct (at_filled t (r * w + c) (c - 1) r F) as [x [E1 E2]]; try lia.
      exists (Some x). rewrite E1. cbn. split; trivial.
      rewrite <- E2. do 2 f_equal. lia.
    - now exists None. }
  destruct Hl as [left [El Eleft]].
  rewrite Ea. cbn [bind]. rewrite El. cbn [bind].
  eexists. split; [reflexivity |].
  constructor; cbn [width_ height_ storage_]; trivial.
  - rewrite length_app. cbn [length]. lia.
  - intros i Hi. unfold element_ok. cbn [storage_].
    assert (Hcases : i < r * w + c \/ i = r * w + c) by lia.
    destruct Hcases as [Hold | ->].
    + destruct (Fe i) as [x [E1 E2]]; [lia |].
      exists x. split.
      * rewrite nth_error_app1 by lia. exact E1.
      * rewrite E2. f_equal. f_equal.
        -- destruct (i / w >? 0); trivial.
           rewrite nth_error_app1; trivial. lia.
        -- destruct (i mod w >? 0); trivial.
           rewrite nth_error_app1; trivial. lia.
    + destruct (position_of_index r c Hc) as [Em Ed].
      eexists. split.
      * rewrite nth_error_app2 by lia.
        replace (Z.to_nat (r * w + c) - length (storage_ t))%nat with 0%nat by lia.
        reflexivity.
      * rewrite Em, Ed. f_equal. f_equal.
        -- rewrite Eabove. destruct (Z.gtb_spec r 0); trivial.
           rewrite nth_error_app1; trivial. lia.
        -- rewrite Eleft. destruct (Z.gtb_spec c 0); trivial.
           rewrite nth_error_app1; trivial. lia.
Qed.

Lemma row_filled (r : Z) (k : nat) (c : Z) (t : TwoD T) :
  0 <= r < h -> 0 <= c -> c + Z.of_nat k = w ->
  filled construct w h t (r * w + c) ->
  exists t', for_loop k c (fun column => emplace construct r column) t = Ok t' /\
             filled construct w h t' ((r + 1) * w).
Proof.
  intros Hr. revert c t. induction k as [| k IH]; intros c t Hc Hk F.
  - exists t. split; [reflexivity |].
    replace ((r + 1) * w) with (r * w + c) by lia. exact F.
  - destruct (emplace_filled t r c) as [t1 [E1 F1]]; trivial; [lia |].
    destruct (IH (c + 1) t1) as [t2 [E2 F2]]; try lia.
    { replace (r * w + (c + 1)) with (r * w + c + 1) by lia. exact F1. }
    exists t2. split; trivial.
    cbn [for_loop]. rewrite E1. cbn [bind]. exact E2.
Qed.

Lemma rows_filled (k : nat) (r : Z) (t : TwoD T) :
  0 <= r -> r + Z.of_nat k = h ->
  filled construct w h t (r * w) ->
  exists t',
    for_loop k r (fun row => for_loop (Z.to_nat w) 0 (fun column => emplace construct row column)) t
    = Ok t' /\ filled construct w h t' (h * w).
Proof.
  revert r t. induction k as [| k IH]; intros r t Hr Hk F.
  - exists t. split; [reflexivity |].
    replace (h * w) with (r * w) by nia. exact F.
  - destruct (row_filled r (Z.to_nat w) 0 t) as [t1 [E1 F1]]; try lia.
    { replace (r * w + 0) with (r * w) by lia. exact F. }
    destruct (IH (r + 1) t1) as [t2 [E2 F2]]; try lia; trivial.
    exists t2. split; trivial.
    cbn [for_loop]. rewrite E1. cbn [bind]. exact E2.
Qed.

(** The constructor returns, with [width * height] elements, each built
    for its own column and row. *)
Lemma TwoD_new_filled :
  exists t,
    TwoD_new construct w h = Ok t /\
    TwoD_wf t /\ width_ t = w /\ height_ t = h /\
    forall c r, 0 <= c < w -> 0 <= r < h ->
      exists x,
        stored_at t c r = Some x /\
        x = construct (mkContext c r
                         (if r >? 0 then stored_at t c (r - 1) else None)
                         (if c >? 0 then stored_at t (c - 1) r else None)).
Proof.
  destruct (rows_filled (Z.to_nat h) 0 (mkTwoD w h [])) as [t [E F]]; try lia.
  { constructor; cbn [width_ height_ storage_ length]; trivial; try lia. }
  exists t. split; [exact E |].
  pose proof F as [Fw Fh Fl Fe].
  assert (Hwf : TwoD_wf t).
  { constructor; rewrite ?Fw, ?Fh, ?Fl; unfold UINT32_MOD in *; nia. }
  repeat (split; trivial).
  intros c r Hc Hr.
  destruct (Fe (r * w + c)) as [x [E1 E2]]; [nia |].
  destruct (position_of_index r c Hc) as [Em Ed].
  rewrite Em, Ed in E2.
  exists x. unfold stored_at. rewrite Fw. split; [exact E1 |].
  rewrite E2. f_equal. f_equal.
  - destruct (r >? 0); trivial. do 2 f_equal. lia.
  - destruct (c >? 0); trivial. do 2 f_equal. lia.
Qed.

End Constructor.

(** Once past the guards, the only exception left is the one of
    [std::vector::at]. *)
Lemma TwoDSubRange_at_accepted (s : TwoDSubRange T) (column row : Z) :
  TwoDSubRange_wf s ->
  0 <= column <= sub_width_ s -> 0 <= row <= sub_height_ s ->
  TwoDSubRange_at s column row <> Throw (out_of_range guard_message).
Proof.
  intros Hwf Hc Hr.
  rewrite (TwoDSubRange_at_forwarded s column row Hwf Hc Hr).
  destruct Hwf as [[Hw Hh Hlen] [Hc0 Hr0] [Hsw Hsh] Hcols Hrows].
  unfold TwoD_at. rewrite guard_passes by lia.
  unfold vector_at. destruct (nth_error _ _); discriminate.
Qed.

End TwoDProperties.

(** C10: the guards compare with [>].  For a [TwoD] of width [w] and
    height [h], [at(w, r)] with [r + 1 < h] does not throw and returns what
    [at(0, r + 1)] returns, the element stored at column 0 of row [r + 1];
    [TwoDSubRange::at] passes [column = width_] and [row = height_] on to
    its master, never raising the exception of its guard, and so returns
    an element outside the sub-range whenever that position lies inside
    the master; in a container made by the constructor, [at(w, r)] is the
    element that was built for column 0 of row [r + 1]. *)
Theorem at_accepts_one_past_the_end (T : Type) :
  (forall (t : TwoDim.TwoD T) (r : Z),
      TwoDim.TwoD_wf t -> 0 <= r -> r + 1 < TwoDim.height_ t ->
      exists x,
        TwoDim.TwoD_at t (TwoDim.width_ t) r = Ok x /\
        TwoDim.TwoD_at t 0 (r + 1) = Ok x /\
        (TwoDim.width_ t * TwoDim.height_ t <= UINT32_MOD ->
         TwoDim.stored_at t 0 (r + 1) = Some x)) /\
  (forall (s : TwoDim.TwoDSubRange T) (column row : Z),
      TwoDim.TwoDSubRange_wf s ->
      0 <= column <= TwoDim.sub_width_ s -> 0 <= row <= TwoDim.sub_height_ s ->
      column = TwoDim.sub_width_ s \/ row = TwoDim.sub_height_ s ->
      TwoDim.TwoDSubRange_at s column row
      = TwoDim.TwoD_at (TwoDim.master_ s)
                       (TwoDim.column_ s + column) (TwoDim.row_ s + row) /\
      TwoDim.TwoDSubRange_at s column row
      <> Throw (out_of_range TwoDim.guard_message) /\
      (TwoDim.width_ (TwoDim.master_ s) * TwoDim.height_ (TwoDim.master_ s)
         <= UINT32_MOD ->
       TwoDim.column_ s + column < TwoDim.width_ (TwoDim.master_ s) ->
       TwoDim.row_ s + row < TwoDim.height_ (TwoDim.master_ s) ->
       exists x,
         TwoDim.TwoDSubRange_at s column row = Ok x /\
         TwoDim.stored_at (TwoDim.master_ s)
                          (TwoDim.column_ s + column) (TwoDim.row_ s + row)
         = Some x)) /\
  (forall (construct : TwoDim.Context T -> T) (w h r : Z),
      0 < w < UINT32_MOD -> 0 < h < UINT32_MOD -> w * h <= UINT32_MOD ->
      0 <= r -> r + 1 < h ->
      exists t x,
        TwoDim.TwoD_new construct w h = Ok t /\
        TwoDim.TwoD_at t w r = Ok x /\
        x = construct (TwoDim.mkContext 0 (r + 1) (TwoDim.stored_at t 0 r) None)).
Proof.
  split; [| split].
  - intros t r Hwf Hr0 Hr. now apply TwoD_at_next_row.
  - intros s column row Hwf Hc Hr _.
    pose proof (TwoDSubRange_at_forwarded T s column row Hwf Hc Hr) as Hfwd.
    split; [exact Hfwd |].
    split; [now apply TwoDSubRange_at_accepted |].
    intros Hfit Hcm Hrm. rewrite Hfwd.
    destruct Hwf as [Hm [Hc0 Hr0] _ _ _].
    apply TwoD_at_inside; trivial; lia.
  - intros construct w h r Hw Hh Hfit Hr0 Hr.
    destruct (TwoD_new_filled T construct w h Hw Hh Hfit)
      as (t & Hnew & Hwf & Ew & Eh & Hel).
    destruct (TwoD_at_next_row T t r Hwf Hr0) as (x & Hat & _ & Hst); [lia |].
    destruct (Hel 0 (r + 1)) as (x' & Hst' & Hx'); [lia | lia |].
    rewrite Hst in Hst' by (rewrite Ew, Eh; exact Hfit).
    injection Hst' as <-.
    exists t, x. split; [exact Hnew |]. split; [now rewrite <- Ew |].
    rewrite Hx'.
    destruct (Z.gtb_spec (r + 1) 0); [| lia].
    replace (r + 1 - 1) with r by lia. reflexivity.
Qed.

Lemma at_accepts_one_past_the_end_witness :
  (exists x,
      TwoDim.TwoD_at (TwoDim.mkTwoD 2 3 [10; 11; 20; 21; 30; 31]) 2 0 = Ok x /\
      TwoDim.TwoD_at (TwoDim.mkTwoD 2 3 [10; 11; 20; 21; 30; 31]) 0 (0 + 1) = Ok x /\
      (2 * 3 <= UINT32_MOD ->
       TwoDim.stored_at (TwoDim.mkTwoD 2 3 [10; 11; 20; 21; 30; 31]) 0 (0 + 1)
       = Some x)) /\
  (exists x,
      TwoDim.TwoDSubRange_at
        (TwoDim.mkTwoDSubRange (TwoDim.mkTwoD 2 3 [10; 11; 20; 21; 30; 31]) 0 0 1 1)
        1 1 = Ok x /\
      TwoDim.stored_at (TwoDim.mkTwoD 2 3 [10; 11; 20; 21; 30; 31]) (0 + 1) (0 + 1)
      = Some x).
Proof.
  assert (Hwf : TwoDim.TwoD_wf (TwoDim.mkTwoD 2 3 [10; 11; 20; 21; 30; 31])).
  { constructor; unfold UINT32_MOD; simpl; lia. }
  split.
  - apply (proj1 (at_accepts_one_past_the_end Z)
                 (TwoDim.mkTwoD 2 3 [10; 11; 20; 21; 30; 31]) 0 Hwf); simpl; lia.
  - apply (proj1 (proj2 (at_accepts_one_past_the_end Z))
                 (TwoDim.mkTwoDSubRange
                    (TwoDim.mkTwoD 2 3 [10; 11; 20; 21; 30; 31]) 0 0 1 1) 1 1).
    + constructor; simpl; try lia. exact Hwf.
    + simpl; lia.
    + simpl; lia.
    + left; reflexivity.
    + unfold UINT32_MOD; simpl; lia.
    + simpl; lia.
    + simpl; lia.
Defined.

(** ** The CLI integer parser *)

Module CliProperties.

Import Cli.
Local Open Scope string_scope.
Local Open Scope Z_scope.

Example accepts_32 : paranoid_atoi "32" = Ok 32.
Proof. reflexivity. Qed.

Example accepts_zero : paranoid_atoi "0" = Ok 0.
Proof. reflexivity. Qed.

Example accepts_uint_max : paranoid_atoi "4294967295" = Ok 4294967295.
Proof. reflexivity. Qed.

Example rejects_two_to_32 :
  paranoid_atoi "4294967296"
  = Throw (runtime_error "invalid unsigned integer: 4294967296").
Proof. reflexivity. Qed.

Example rejects_leading_zero :
  paranoid_atoi "007" = Throw (runtime_error "invalid unsigned integer: 007").
Proof. reflexivity. Qed.

Example rejects_minus :
  paranoid_atoi "-5" = Throw (runtime_error "invalid unsigned integer: -5").
Proof. reflexivity. Qed.

Example rejects_plus :
  paranoid_atoi "+5" = Throw (runtime_error "invalid unsigned integer: +5").
Proof. reflexivity. Qed.

Example rejects_trailing :
  paranoid_atoi "5x" = Throw (runtime_error "invalid unsigned integer: 5x").
Proof. reflexivity. Qed.

Example rejects_leading_space :
  paranoid_atoi " 5" = Throw (runtime_error "invalid unsigned integer:  5").
Proof. reflexivity. Qed.

Example rejects_empty : paranoid_atoi "" = Throw (invalid_argument "stoul").
Proof. reflexivity. Qed.

Example rejects_letters : paranoid_atoi "abc" = Throw (invalid_argument "stoul").
Proof. reflexivity. Qed.

Example rejects_huge :
  paranoid_atoi "99999999999999999999" = Throw (out_of_range "stoul").
Proof. reflexivity. Qed.

(** *** Printing a decimal number, then reading it *)

Lemma digits_acc_uint (d : Decimal.uint) (acc : positive) :
  digits_acc (NilEmpty.string_of_uint d) (Z.pos acc)
  = Z.pos (Pos.of_uint_acc d acc).
Proof.
  revert acc.
  induction d; intros acc; cbn [NilEmpty.string_of_uint digits_acc Pos.of_uint_acc];
    trivial;
    match goal with
    | |- context [digit_value ?c] =>
        let v := eval vm_compute in (digit_value c) in
        change (digit_value c) with v
    end;
    cbv beta iota;
    match goal with
    | |- digits_acc _ ?a = Z.pos (Pos.of_uint_acc _ ?p) =>
        replace a with (Z.pos p) by lia
    end;
    apply IHd.
Qed.

Lemma digits_acc_of_uint (d : Decimal.uint) :
  digits_acc (NilEmpty.string_of_uint d) 0 = Z.of_N (Pos.of_uint d).
Proof.
  induction d; cbn [NilEmpty.string_of_uint digits_acc Pos.of_uint]; trivial;
    match goal with
    | |- context [digit_value ?c] =>
        let v := eval vm_compute in (digit_value c) in
        change (digit_value c) with v
    end;
    cbv beta iota;
    first [ exact IHd | apply (digits_acc_uint d) ].
Qed.

Lemma all_digits_uint (d : Decimal.uint) :
  all_digits (NilEmpty.string_of_uint d) = true.
Proof. induction d; cbn [NilEmpty.string_of_uint all_digits]; trivial. Qed.

Lemma decimal_acc_digits (s : string) (acc : Z) :
  all_digits s = true -> decimal_acc s acc = Some (digits_acc s acc).
Proof.
  revert acc. induction s as [| c r IH]; intros acc H; cbn in *; trivial.
  unfold isdigit in H.
  destruct (digit_value c); [| discriminate].
  apply IH. exact H.
Qed.

Lemma to_uint_canonical (n : N) : Decimal.unorm (N.to_uint n) = N.to_uint n.
Proof.
  rewrite <- DecimalN.Unsigned.to_of.
  now rewrite DecimalN.Unsigned.of_to.
Qed.

Lemma to_uint_nonnil (n : N) : N.to_uint n <> Decimal.Nil.
Proof.
  rewrite <- to_uint_canonical. apply DecimalFacts.unorm_nonnil.
Qed.

Lemma to_string_digits (n : Z) :
  to_string n = NilEmpty.string_of_uint (N.to_uint (Z.to_N n)).
Proof.
  unfold to_string, NilZero.string_of_uint.
  pose proof (to_uint_nonnil (Z.to_N n)) as H.
  destruct (N.to_uint (Z.to_N n)); trivial. congruence.
Qed.

Lemma digits_acc_to_string (n : Z) : 0 <= n -> digits_acc (to_string n) 0 = n.
Proof.
  intros Hn. rewrite to_string_digits, digits_acc_of_uint.
  change (Pos.of_uint ?d) with (N.of_uint d).
  rewrite DecimalN.Unsigned.of_to. lia.
Qed.

Lemma all_digits_to_string (n : Z) : all_digits (to_string n) = true.
Proof. rewrite to_string_digits. apply all_digits_uint. Qed.

Lemma to_string_nonempty (n : Z) : to_string n <> "".
Proof.
  rewrite to_string_digits.
  pose proof (to_uint_nonnil (Z.to_N n)) as H.
  destruct (N.to_uint (Z.to_N n)); cbn; congruence.
Qed.

(** The only decimal numeral that begins with a zero is ["0"]. *)
Lemma to_string_leading_zero (n : Z) (r : string) :
  to_string n = String "0" r -> r = "".
Proof.
  rewrite to_string_digits.
  pose proof (to_uint_canonical (Z.to_N n)) as Hc.
  destruct (N.to_uint (Z.to_N n)) as [| d | d | d | d | d | d | d | d | d | d];
    cbn [NilEmpty.string_of_uint]; intros E; try discriminate.
  injection E as <-.
  unfold Decimal.unorm in Hc. cbn [Decimal.nzhead] in Hc.
  destruct (Decimal.nzhead d) eqn:En;
    try (exfalso; apply (DecimalFacts.nzhead_nonzero d d); congruence).
  injection Hc as <-. reflexivity.
Qed.

(** *** What [stoul] does on a string that begins with a digit *)

Lemma digit_not_space (c : ascii) : isdigit c = true -> isspace c = false.
Proof.
  unfold isdigit, digit_value, isspace.
  set (k := Z.of_nat (nat_of_ascii c)).
  destruct (Z.leb_spec 48 k), (Z.leb_spec k 57); cbn; try discriminate.
  intros _.
  destruct (Z.eqb_spec k 32); [lia |].
  destruct (Z.leb_spec 9 k), (Z.leb_spec k 13); cbn; trivial; lia.
Qed.

Lemma digit_not_sign (c : ascii) :
  isdigit c = true -> c <> "-"%char /\ c <> "+"%char.
Proof. intros H. split; intros ->; discriminate H. Qed.

Lemma stoul_on_digits (s : string) :
  starts_with_digit s = true ->
  stoul s = if digits_acc s 0 >? ULONG_MAX then Throw (out_of_range "stoul")
            else Ok (digits_acc s 0).
Proof.
  destruct s as [| c r]; [discriminate |].
  cbn [starts_with_digit]. intros Hd.
  unfold stoul. cbn [skip_space].
  rewrite (digit_not_space c Hd).
  destruct (digit_not_sign c Hd) as [Hm Hp].
  destruct (Ascii.eqb_spec c "-"%char) as [-> | _]; [congruence |].
  destruct (Ascii.eqb_spec c "+"%char) as [-> | _]; [congruence |].
  assert (Hsplit :
    (match String c r with
     | String "-"%char r0 => (true, r0)
     | String "+"%char r0 => (false, r0)
     | _ => (false, String c r)
     end) = (false, String c r)).
  { destruct c as [[|] [|] [|] [|] [|] [|] [|] [|]]; try reflexivity; congruence. }
  rewrite Hsplit. cbn [starts_with_digit]. rewrite Hd. reflexivity.
Qed.

Lemma starts_with_digit_to_string (n : Z) : starts_with_digit (to_string n) = true.
Proof.
  pose proof (all_digits_to_string n) as Ha.
  pose proof (to_string_nonempty n) as Hn.
  destruct (to_string n) as [| c r]; [congruence |].
  cbn in *. now apply andb_prop in Ha.
Qed.

Lemma stoul_to_string (n : Z) : 0 <= n <= ULONG_MAX -> stoul (to_string n) = Ok n.
Proof.
  intros Hn.
  rewrite stoul_on_digits by apply starts_with_digit_to_string.
  rewrite digits_acc_to_string by lia.
  destruct (Z.gtb_spec n ULONG_MAX); [lia | reflexivity].
Qed.

Lemma paranoid_atoi_to_string (n : Z) :
  in_uint32 n -> paranoid_atoi (to_string n) = Ok n.
Proof.
  intros Hn. unfold paranoid_atoi.
  rewrite stoul_to_string.
  - cbn [bind]. rewrite (to_uint32_small n Hn).
    now rewrite String.eqb_refl.
  - unfold in_uint32, UINT32_MOD, ULONG_MAX, UINT64_MAX, UINT64_MOD in *. lia.
Qed.

(** An accepted string is the numeral of the value returned. *)
Lemma paranoid_atoi_accepts (s : string) (v : Z) :
  paranoid_atoi s = Ok v <-> in_uint32 v /\ to_string v = s.
Proof.
  split.
  - unfold paranoid_atoi. destruct (stoul s) as [u | e |]; cbn [bind]; try discriminate.
    destruct (String.eqb_spec (to_string (to_uint32 u)) s) as [E | _];
      cbn [negb]; try discriminate.
    intros [= <-]. split; [apply to_uint32_range | exact E].
  - intros [Hv <-]. now apply paranoid_atoi_to_string.
Qed.

(** The parser never leaves defined behaviour: it returns or throws. *)
Lemma paranoid_atoi_total (s : string) :
  (exists v, paranoid_atoi s = Ok v) \/ rejected s.
Proof.
  unfold rejected, paranoid_atoi, stoul.
  destruct (match skip_space s with
            | String "-"%char r => (true, r)
            | String "+"%char r => (false, r)
            | _ => (false, skip_space s)
            end) as [negative rest].
  destruct (negb (starts_with_digit rest)); [right; eexists; reflexivity |].
  destruct (digits_acc rest 0 >? ULONG_MAX); [right; eexists; reflexivity |].
  cbn [bind].
  destruct (negb _); [right | left]; eexists; reflexivity.
Qed.

Lemma not_accepted_rejected (s : string) :
  (forall v, paranoid_atoi s <> Ok v) -> rejected s.
Proof.
  intros H. destruct (paranoid_atoi_total s) as [[v Hv] | Hr]; trivial.
  now elim (H v).
Qed.

Lemma all_digits_app (p q : string) :
  all_digits (p ++ q) = all_digits p && all_digits q.
Proof.
  induction p as [| c p IH]; cbn; trivial.
  rewrite IH. now rewrite andb_assoc.
Qed.

Lemma non_digit_rejected (s : string) : all_digits s = false -> rejected s.
Proof.
  intros H. apply not_accepted_rejected. intros v Hv.
  apply paranoid_atoi_accepts in Hv as [_ <-].
  rewrite all_digits_to_string in H. discriminate.
Qed.

Lemma accepted_iff_round_trip (s : string) :
  (exists v, paranoid_atoi s = Ok v) <->
  (exists u, stoul s = Ok u /\ to_string (to_uint32 u) = s).
Proof.
  unfold paranoid_atoi. split.
  - intros [v Hv]. destruct (stoul s) as [u | e |]; cbn [bind] in Hv; try discriminate.
    exists u. split; trivial.
    destruct (String.eqb_spec (to_string (to_uint32 u)) s); trivial. discriminate.
  - intros [u [-> E]]. cbn [bind]. exists (to_uint32 u).
    rewrite E at 1. now rewrite String.eqb_refl.
Qed.

Lemma accepted_decimal_value (s : string) (v : Z) :
  paranoid_atoi s = Ok v ->
  stoul s = Ok v /\ decimal_value s = Some v.
Proof.
  intros H. apply paranoid_atoi_accepts in H as [Hv <-]. split.
  - apply stoul_to_string.
    unfold in_uint32, UINT32_MOD, ULONG_MAX, UINT64_MAX, UINT64_MOD in *. lia.
  - unfold decimal_value.
    pose proof (to_string_nonempty v) as Hn.
    destruct (to_string v) as [| c r] eqn:E; [congruence |].
    rewrite <- E.
    rewrite decimal_acc_digits by apply all_digits_to_string.
    rewrite digits_acc_to_string; trivial. unfold in_uint32 in Hv. lia.
Qed.

End CliProperties.

(** C9: [paranoid_atoi] accepts a string exactly when [stoul], the
    conversion to [unsigned int] and [to_string] give the string back; the
    strings accepted are the decimal numerals of the 32-bit values, and the
    value returned is the one the numeral denotes; every other string makes
    it throw, among them those with a leading zero, a sign or a character
    that is not a digit. *)
Theorem paranoid_atoi_round_trip (s : string) :
  ((exists v, Cli.paranoid_atoi s = Ok v) <->
   (exists u, Cli.stoul s = Ok u /\ Cli.to_string (to_uint32 u) = s)) /\
  (forall v, Cli.paranoid_atoi s = Ok v <-> in_uint32 v /\ Cli.to_string v = s) /\
  (forall v, Cli.paranoid_atoi s = Ok v ->
             Cli.stoul s = Ok v /\ Cli.decimal_value s = Some v) /\
  ((forall v, Cli.paranoid_atoi s <> Ok v) -> Cli.rejected s) /\
  (forall r, s = String "0" r -> r <> EmptyString -> Cli.rejected s) /\
  (forall r, s = String "-" r \/ s = String "+" r -> Cli.rejected s) /\
  (forall p c r, s = (p ++ String c r)%string -> Cli.isdigit c = false ->
                 Cli.rejected s).
Proof.
  split; [apply CliProperties.accepted_iff_round_trip |].
  split; [intros v; apply CliProperties.paranoid_atoi_accepts |].
  split; [intros v; apply CliProperties.accepted_decimal_value |].
  split; [apply CliProperties.not_accepted_rejected |].
  split; [| split].
  - intros r -> Hr. apply CliProperties.not_accepted_rejected. intros v Hv.
    apply CliProperties.paranoid_atoi_accepts in Hv as [_ Hv].
    apply CliProperties.to_string_leading_zero in Hv. contradiction.
  - intros r [-> | ->]; now apply CliProperties.non_digit_rejected.
  - intros p c r -> Hc. apply CliProperties.non_digit_rejected.
    rewrite CliProperties.all_digits_app. cbn [Cli.all_digits].
    rewrite Hc. cbn. apply andb_false_r.
Qed.

(** ** The scheduler *)

Section SenderProperties.

Import Sender.

Context {codec : Codec}.

Variable cfg : config.

(** *** Running totals *)

Lemma running_total_from_app (start : Z) (l : list Z) (c : Z) :
  running_total_from start (l ++ [c])
  = running_total_from start l ++ [start + total l + c].
Proof.
  revert start. induction l as [| a l IH]; intros start;
    cbn [running_total_from app total fold_right].
  - f_equal. lia.
  - rewrite IH. unfold total. do 3 f_equal. lia.
Qed.

Lemma running_total_from_length (start : Z) (l : list Z) :
  length (running_total_from start l) = length l.
Proof. revert start. induction l; intros; cbn; auto. Qed.

Lemma running_total_from_last (start : Z) (l : list Z) :
  l <> [] ->
  nth_error (running_total_from start l) (pred (length l)) = Some (start + total l).
Proof.
  revert start. induction l as [| a l IH]; intros start Hl; [congruence |].
  destruct l as [| b l].
  - cbn. f_equal. lia.
  - specialize (IH (start + a)).
    assert (Hb : b :: l <> []) by congruence.
    specialize (IH Hb).
    cbn [length pred] in *.
    cbn [running_total_from nth_error] in *.
    rewrite IH. f_equal. unfold total. cbn [fold_right]. lia.
Qed.

Lemma total_nonnegative (l : list Z) :
  Forall (fun c => 1 <= c) l -> 0 <= total l.
Proof. induction 1; unfold total in *; cbn [fold_right] in *; lia. Qed.

Lemma running_total_from_increasing (start : Z) (l : list Z) :
  Forall (fun c => 1 <= c) l ->
  strictly_increasing (running_total_from start l) /\
  Forall (fun x => start < x <= start + total l) (running_total_from start l).
Proof.
  intros H. revert start. induction H as [| a l Ha Hl IH]; intros start.
  - cbn. split; [trivial | constructor].
  - destruct (IH (start + a)) as [Hinc Hall].
    pose proof (total_nonnegative l Hl) as Ht.
    assert (Hta : total (a :: l) = a + total l) by reflexivity.
    split.
    + cbn [running_total_from]. destruct l as [| b l]; cbn; trivial.
      split; [inversion Hl; lia | exact Hinc].
    + cbn [running_total_from]. rewrite Hta. constructor.
      * lia.
      * eapply Forall_impl; [| exact Hall]. cbn. intros x Hx. lia.
Qed.

Lemma to_uint64_add_l (a b : Z) : to_uint64 (to_uint64 a + b) = to_uint64 (a + b).
Proof. unfold to_uint64. apply Zplus_mod_idemp_l. Qed.

Lemma to_uint32_add_l (a b : Z) : to_uint32 (to_uint32 a + b) = to_uint32 (a + b).
Proof. unfold to_uint32. apply Zplus_mod_idemp_l. Qed.

(** *** The tick callback *)

Lemma tick_dropped (timing : EncodeJob -> job_clock) (s : state) :
  encode_jobs s <> [] \/ last_raster s = None ->
  tick_handler cfg timing s = Done Continue s.
Proof.
  unfold tick_handler. intros [Hj | Hr].
  - destruct (encode_jobs s); [congruence | reflexivity].
  - rewrite Hr. now destruct (_ >? _).
Qed.

Lemma tick_spawns (timing : EncodeJob -> job_clock) (s : state)
      (raster : RasterHandle) :
  encode_jobs s = [] -> last_raster s = Some raster ->
  tick_handler cfg timing s
  = Done Continue
         (start_generation timing (set_encode_jobs [first_job cfg s raster] s)).
Proof.
  intros Hj Hr. unfold tick_handler, choose_mode.
  rewrite Hj, Hr. reflexivity.
Qed.

Lemma async_constant_quantizer (timing : EncodeJob -> job_clock) (job : EncodeJob) :
  job_mode job = CONSTANT_QUANTIZER ->
  valid (async timing job) = true /\
  exists output, shared_state (async timing job) = Ok output.
Proof.
  intros Hm. split; [reflexivity |].
  unfold async, do_encode_job. cbn [shared_state]. rewrite Hm.
  destruct (encode_with_quantizer _ _ _) as [enc bytes]. eauto.
Qed.

(** *** The generation-ended callback *)

Lemma generation_discarded (s : state) :
  existsb valid (encode_outputs s) = false ->
  generation_ended_handler cfg s
  = Done Continue (set_encode_jobs [] (set_generations (pred (generations s)) s)).
Proof.
  intros H. unfold generation_ended_handler. cbn [encode_outputs set_generations].
  now rewrite H.
Qed.

Lemma frame_no_in_range (s : state) :
  invariant s -> 0 < frame_no s ->
  (Z.to_nat (frame_no s - 1) < length (cumulative_fpf s))%nat.
Proof.
  intros Hinv Hpos.
  pose proof (inv_frame_no s Hinv) as Hf.
  pose proof (inv_length s Hinv) as Hl.
  assert (Hle : frame_no s <= Z.of_nat (length (socket_sent s))).
  { rewrite Hf. unfold to_uint32, UINT32_MOD. apply Z.mod_le; lia. }
  lia.
Qed.

Lemma generation_sent (s : state) (f : future) (output : EncodeOutput) :
  invariant s ->
  encode_outputs s = [f] -> valid f = true -> shared_state f = Ok output ->
  generation_ended_handler cfg s
  = Done Continue
      (commit (next_entry s (fragments_in_this_frame (out_frame output)))
              (out_encoder output)
              (socket_send (emitted cfg s output)
                 (set_encode_outputs [snd (future_get f)]
                    (set_generations (pred (generations s)) s)))).
Proof.
  intros Hinv Ho Hv Hs.
  unfold generation_ended_handler.
  cbn [encode_outputs set_generations]. rewrite Ho.
  cbn [existsb find_if]. rewrite Hv. cbn [orb negb future_get].
  rewrite Hs.
  unfold next_entry, emitted.
  cbn [frame_no cumulative_fpf socket_send set_encode_outputs set_generations
       ff_frame app snd future_get].
  rewrite ?Hs.
  destruct (Z.gtb_spec (frame_no s) 0) as [Hpos | Hzero]; [| reflexivity].
  pose proof (frame_no_in_range s Hinv Hpos) as Hin.
  destruct (nth_error (cumulative_fpf s) (Z.to_nat (frame_no s - 1)))
    as [previous |] eqn:En.
  - rewrite (nth_error_nth _ _ 0 En). reflexivity.
  - apply nth_error_None in En. lia.
Qed.

(** *** The invariant *)

Lemma invariant_initial (encoder0 : Encoder) : invariant (initial_state encoder0).
Proof.
  constructor; cbn; trivial; try lia; congruence.
Qed.

(** The invariant does not read [avg_delay], [last_acked], [encoder] or
    [last_raster]. *)
Lemma invariant_same_fields (s s' : state) :
  generations s' = generations s ->
  encode_jobs s' = encode_jobs s ->
  encode_outputs s' = encode_outputs s ->
  skipped_count s' = skipped_count s ->
  cumulative_fpf s' = cumulative_fpf s ->
  socket_sent s' = socket_sent s ->
  frame_no s' = frame_no s ->
  invariant s -> invariant s'.
Proof.
  intros Hg Hj Ho Hk Hc Hs Hf [I1 I2 I3 I4 I5 I6 I7].
  constructor; rewrite ?Hg, ?Hj, ?Ho, ?Hk, ?Hc, ?Hs, ?Hf; trivial.
Qed.

Lemma invariant_raster (next_frame : option RasterHandle) (s s' : state) :
  raster_handler next_frame s = Done Continue s' -> invariant s -> invariant s'.
Proof.
  unfold raster_handler. cbn [last_raster set_last_raster].
  destruct next_frame; intros [= <-]. now apply invariant_same_fields.
Qed.

Lemma invariant_ack (ack : AckPacket) (s s' : state) :
  ack_handler cfg ack s = Done Continue s' -> invariant s -> invariant s'.
Proof.
  unfold ack_handler.
  destruct (negb _); [now intros [= <-] |].
  destruct (_ >? _).
  - cbn [cumulative_fpf set_avg_delay].
    destruct (nth_error _ _); intros [= <-]. now apply invariant_same_fields.
  - intros [= <-]. now apply invariant_same_fields.
Qed.

Lemma invariant_tick (timing : EncodeJob -> job_clock) (s s' : state) :
  tick_handler cfg timing s = Done Continue s' -> invariant s -> invariant s'.
Proof.
  intros H Hinv.
  destruct (encode_jobs s) as [| j js] eqn:Ej.
  2:{ rewrite tick_dropped in H by (left; congruence). now injection H as <-. }
  destruct (last_raster s) as [raster |] eqn:Er.
  2:{ rewrite tick_dropped in H by (now right). now injection H as <-. }
  rewrite (tick_spawns timing s raster Ej Er) in H. injection H as <-.
  destruct Hinv as [I1 I2 I3 I4 I5 I6 I7].
  constructor; cbn; trivial.
  - rewrite I1, Ej. reflexivity.
  - intros _.
    destruct (async_constant_quantizer timing (first_job cfg s raster) eq_refl)
      as [Hv [output Ho]].
    exists (async timing (first_job cfg s raster)), output. auto.
Qed.

Lemma cumulative_fpf_last (s : state) :
  invariant s ->
  0 < Z.of_nat (length (socket_sent s)) <= UINT32_MOD ->
  nth (pred (length (socket_sent s))) (cumulative_fpf s) 0
  = to_uint64 (total (map fragments_of (socket_sent s))).
Proof.
  intros Hinv Hlen.
  rewrite (inv_totals s Hinv) by lia.
  apply nth_error_nth. rewrite nth_error_map.
  unfold running_total.
  replace (length (socket_sent s)) with (length (map fragments_of (socket_sent s)))
    by apply length_map.
  rewrite running_total_from_last.
  - reflexivity.
  - destruct (socket_sent s); cbn in *; [lia | congruence].
Qed.

Lemma next_entry_total (s : state) (fragments : Z) :
  invariant s ->
  Z.of_nat (length (socket_sent s)) < UINT32_MOD ->
  next_entry s fragments
  = to_uint64 (total (map fragments_of (socket_sent s)) + fragments).
Proof.
  intros Hinv Hlen. unfold next_entry.
  pose proof (inv_frame_no s Hinv) as Hf.
  rewrite to_uint32_small in Hf by (unfold in_uint32; lia).
  rewrite Hf.
  destruct (Z.gtb_spec (Z.of_nat (length (socket_sent s))) 0) as [Hpos | Hzero].
  - replace (Z.to_nat (Z.of_nat (length (socket_sent s)) - 1))
      with (pred (length (socket_sent s))) by lia.
    rewrite cumulative_fpf_last by (trivial; lia).
    apply to_uint64_add_l.
  - destruct (socket_sent s); [reflexivity | cbn in Hzero; lia].
Qed.

Lemma invariant_generation_ended (s s' : state) :
  fires GenerationEnded s ->
  generation_ended_handler cfg s = Done Continue s' ->
  invariant s -> invariant s'.
Proof.
  intros Hfire H Hinv. cbn in Hfire.
  pose proof Hinv as [I1 I2 I3 I4 I5 I6 I7].
  destruct I3 as (f & output & Ho & Hv & Hs).
  { destruct (encode_jobs s); cbn in *; [lia | congruence]. }
  rewrite (generation_sent s f output Hinv Ho Hv Hs) in H. injection H as <-.
  constructor; cbn [commit socket_send set_encode_outputs set_generations
                    generations encode_jobs encode_outputs skipped_count
                    cumulative_fpf socket_sent frame_no length]; trivial.
  - lia.
  - lia.
  - congruence.
  - rewrite !length_app, I5. reflexivity.
  - rewrite length_app, I6. cbn [length].
    rewrite to_uint32_add_l. f_equal. lia.
  - rewrite length_app. cbn [length]. intros Hlen.
    rewrite next_entry_total by (trivial; lia).
    rewrite I7 by lia.
    rewrite map_app. cbn [map]. unfold running_total.
    rewrite running_total_from_app, map_app. cbn [map].
    reflexivity.
Qed.

Lemma invariant_step (ev : event) (s s' : state) :
  fires ev s -> handle cfg ev s = Done Continue s' -> invariant s -> invariant s'.
Proof.
  destruct ev; cbn [handle]; intros Hfire H.
  - now apply invariant_raster with (1 := H).
  - now apply invariant_tick with (1 := H).
  - now apply invariant_generation_ended.
  - now apply invariant_ack with (1 := H).
Qed.

Lemma reachable_invariant (encoder0 : Encoder) (s : state) :
  reachable cfg encoder0 s -> invariant s.
Proof.
  induction 1 as [| s ev s' _ IH Hfire Hstep].
  - apply invariant_initial.
  - now apply (invariant_step ev s s').
Qed.

End SenderProperties.

Section SchedulerClaims.

Import Sender.

Context {codec : Codec}.

Variable cfg : config.

(** Whenever the generation-ended callback runs, a frame goes out: the
    future of the job in flight is valid, whether or not the job has
    finished. *)
Lemma generation_always_sent (encoder0 : Encoder) (s : state) :
  reachable cfg encoder0 s -> fires GenerationEnded s ->
  exists f output,
    encode_outputs s = [f] /\ valid f = true /\ shared_state f = Ok output /\
    generation_ended_handler cfg s
    = Done Continue
        (commit (next_entry s (fragments_in_this_frame (out_frame output)))
                (out_encoder output)
                (socket_send (emitted cfg s output)
                   (set_encode_outputs [snd (future_get f)]
                      (set_generations (pred (generations s)) s)))).
Proof.
  intros Hreach Hfire. cbn in Hfire.
  pose proof (reachable_invariant cfg encoder0 s Hreach) as Hinv.
  destruct (inv_outputs s Hinv) as (f & output & Ho & Hv & Hs).
  { rewrite (inv_generations s Hinv) in Hfire.
    destruct (encode_jobs s); cbn in *; [lia | congruence]. }
  exists f, output. repeat split; trivial.
  now apply generation_sent.
Qed.

(** A generation has one job, so [encode_outputs] never holds more than
    one future. *)
Lemma outputs_bounded (encoder0 : Encoder) (s : state) :
  reachable cfg encoder0 s -> (length (encode_outputs s) <= 1)%nat.
Proof.
  induction 1 as [| s ev s' Hreach IH Hfire Hstep]; [cbn; lia |].
  destruct ev as [next | timing | | ack]; cbn [handle] in Hstep.
  - unfold raster_handler in Hstep. cbn [last_raster set_last_raster] in Hstep.
    destruct next; [| discriminate]. now injection Hstep as <-.
  - destruct (encode_jobs s) as [| j js] eqn:Ej.
    + destruct (last_raster s) as [raster |] eqn:Er.
      * rewrite (tick_spawns cfg timing s raster Ej Er) in Hstep.
        injection Hstep as <-. cbn. lia.
      * rewrite tick_dropped in Hstep by auto. now injection Hstep as <-.
    + rewrite tick_dropped in Hstep by (left; congruence). now injection Hstep as <-.
  - destruct (generation_always_sent encoder0 s Hreach Hfire)
      as (f & output & Ho & _ & _ & Hrun).
    rewrite Hrun in Hstep. injection Hstep as <-. cbn. lia.
  - unfold ack_handler in Hstep.
    destruct (negb _); [now injection Hstep as <- |].
    destruct (ack_frame_no ack >? 0).
    + cbn [cumulative_fpf set_avg_delay] in Hstep.
      destruct (nth_error _ _); [| discriminate]. now injection Hstep as <-.
    + now injection Hstep as <-.
Qed.

(** C1 (amended): a valid tick spawns one job in [CONSTANT_QUANTIZER]
    mode with the configured quantizer, reduced to 8 bits, whatever
    [avg_delay] is, that is, whether or not an acknowledgement has been
    received; the job carries the current frame number, the latest raster
    and the committed encoder. *)
Theorem tick_uses_constant_quantizer
        (timing : EncodeJob -> job_clock) (s : state) (raster : RasterHandle) :
  encode_jobs s = [] -> last_raster s = Some raster ->
  exists s',
    tick_handler cfg timing s = Done Continue s' /\
    encode_jobs s'
    = [mkEncodeJob (frame_no s) raster (encoder s) CONSTANT_QUANTIZER
                   (to_uint8 (y_ac_qi cfg)) 0] /\
    encode_outputs s' = map (async timing) (encode_jobs s') /\
    generations s' = S (generations s) /\
    skipped_count s' = skipped_count s /\
    encoder s' = encoder s /\ frame_no s' = frame_no s.
Proof.
  intros Hj Hr. eexists. split.
  - apply (tick_spawns cfg timing s raster Hj Hr).
  - cbn. repeat split; reflexivity.
Qed.


(** [find_if] returns the first element that satisfies the predicate,
    in the order of the list. *)
Lemma find_if_first (p : future -> bool) (before after : list future) (f : future) :
  Forall (fun g => p g = false) before -> p f = true ->
  find_if p (before ++ f :: after) = Some (before, f, after) /\
  existsb p (before ++ f :: after) = true.
Proof.
  intros Hbefore Hf. induction Hbefore as [| g rest Hg _ [IH1 IH2]]; cbn.
  - now rewrite Hf.
  - now rewrite Hg, IH1, IH2.
Qed.

(** The generation-ended callback on any values of the variables: the
    output sent is the one of the first future, in the order of
    [encode_outputs], that is [valid()]. *)
Lemma first_valid_sent
      (s : state) (before after : list future) (f : future) (output : EncodeOutput) :
  encode_outputs s = before ++ f :: after ->
  Forall (fun g => valid g = false) before -> valid f = true ->
  shared_state f = Ok output ->
  (0 < frame_no s -> (Z.to_nat (frame_no s - 1) < length (cumulative_fpf s))%nat) ->
  generation_ended_handler cfg s
  = Done Continue
      (commit (next_entry s (fragments_in_this_frame (out_frame output)))
              (out_encoder output)
              (socket_send (emitted cfg s output)
                 (set_encode_outputs (before ++ snd (future_get f) :: after)
                    (set_generations (pred (generations s)) s)))).
Proof.
  intros Ho Hbefore Hv Hs Hin.
  destruct (find_if_first valid before after f Hbefore Hv) as [Hfind Hany].
  unfold generation_ended_handler.
  cbn [encode_outputs set_generations]. rewrite Ho, Hany, Hfind.
  cbn [negb future_get]. rewrite Hs.
  unfold next_entry, emitted.
  cbn [frame_no cumulative_fpf socket_send set_encode_outputs set_generations
       ff_frame app snd future_get].
  rewrite ?Hs.
  destruct (Z.gtb_spec (frame_no s) 0) as [Hpos | Hzero]; [| reflexivity].
  destruct (nth_error (cumulative_fpf s) (Z.to_nat (frame_no s - 1)))
    as [previous |] eqn:En.
  - rewrite (nth_error_nth _ _ 0 En). reflexivity.
  - apply nth_error_None in En. specialize (Hin Hpos). lia.
Qed.

(** C6: the generation-ended callback picks by [valid()]: on any values
    of the variables it takes the first future of [encode_outputs], in
    the order in which the jobs were submitted, that is valid, sends the
    frame of its output and commits: [encoder] becomes the encoder of that
    output, [skipped_count] is set to 0 whatever it was, [frame_no] is one
    more (on 32 bits), [encode_jobs] is emptied, the future is consumed
    and one entry is appended to [cumulative_fpf]; nothing else changes.
    In a state the loop reaches a generation has one job, so when the
    callback runs and [f] is the first output that was ready at the
    deadline, [f] is that first valid future: its frame is sent and its
    encoder committed. *)
Theorem generation_commits_first_ready (encoder0 : Encoder) :
  (forall (s : state) (before after : list future) (f : future)
          (output : EncodeOutput),
      encode_outputs s = before ++ f :: after ->
      Forall (fun g => valid g = false) before -> valid f = true ->
      shared_state f = Ok output ->
      (0 < frame_no s ->
       (Z.to_nat (frame_no s - 1) < length (cumulative_fpf s))%nat) ->
      exists s',
        generation_ended_handler cfg s = Done Continue s' /\
        socket_sent s' = socket_sent s ++ [emitted cfg s output] /\
        encoder s' = out_encoder output /\
        skipped_count s' = 0 /\
        frame_no s' = to_uint32 (frame_no s + 1) /\
        encode_jobs s' = [] /\
        encode_outputs s' = before ++ snd (future_get f) :: after /\
        cumulative_fpf s'
        = cumulative_fpf s
            ++ [next_entry s (fragments_in_this_frame (out_frame output))] /\
        avg_delay s' = avg_delay s /\ last_acked s' = last_acked s /\
        last_raster s' = last_raster s) /\
  (forall (s : state) (f : future),
      reachable cfg encoder0 s ->
      fires GenerationEnded s ->
      first_ready (encode_outputs s) = Some f ->
      encode_outputs s = [f] /\ valid f = true /\
      exists output s',
        shared_state f = Ok output /\
        generation_ended_handler cfg s = Done Continue s' /\
        socket_sent s' = socket_sent s ++ [emitted cfg s output] /\
        encoder s' = out_encoder output /\
        skipped_count s' = 0 /\
        frame_no s' = to_uint32 (frame_no s + 1) /\
        (frame_no s < UINT32_MAX -> frame_no s' = frame_no s + 1) /\
        encode_jobs s' = [] /\
        generations s' = 0%nat).
Proof.
  split.
  - intros s before after f output Ho Hbefore Hv Hs Hin.
    eexists. split; [apply (first_valid_sent s before after f output); trivial |].
    cbn [commit socket_send set_encode_outputs set_generations socket_sent encoder
         skipped_count frame_no encode_jobs encode_outputs cumulative_fpf avg_delay
         last_acked last_raster].
    repeat split.
  - intros s f Hreach Hfire Hfirst.
    destruct (generation_always_sent encoder0 s Hreach Hfire)
      as (f0 & output & Ho & Hv & Hs & Hrun).
    pose proof (reachable_invariant cfg encoder0 s Hreach) as Hinv.
    assert (f = f0) as ->.
    { unfold first_ready in Hfirst. rewrite Ho in Hfirst. cbn in Hfirst.
      destruct (ready_at_deadline f0); congruence. }
    split; [exact Ho |]. split; [exact Hv |].
    exists output. eexists. split; [exact Hs |]. split; [exact Hrun |].
    cbn [commit socket_send set_encode_outputs set_generations socket_sent encoder
         skipped_count frame_no encode_jobs generations].
    repeat split.
    + intros Hlt. apply to_uint32_small.
      pose proof (to_uint32_range (Z.of_nat (length (socket_sent s)))) as Hr.
      rewrite <- (inv_frame_no s Hinv) in Hr.
      unfold in_uint32, UINT32_MAX in *. lia.
    + pose proof (inv_generations s Hinv). pose proof (inv_one_job s Hinv). lia.
Qed.

(** C7: the number of generations in flight is 0 or 1, and it is 1
    exactly when [encode_jobs] is not empty; a tick that finds a
    generation in flight or no raster returns [Continue] and leaves every
    variable as it was. *)
Theorem one_generation_in_flight (encoder0 : Encoder) (s : state) :
  reachable cfg encoder0 s ->
  (generations s <= 1)%nat /\
  (generations s = 1%nat <-> encode_jobs s <> []) /\
  (forall timing,
      (0 < generations s)%nat \/ encode_jobs s <> [] \/ last_raster s = None ->
      tick_handler cfg timing s = Done Continue s).
Proof.
  intros Hreach.
  pose proof (reachable_invariant cfg encoder0 s Hreach) as Hinv.
  pose proof (inv_generations s Hinv) as Hg.
  pose proof (inv_one_job s Hinv) as H1.
  assert (Hiff : generations s = 1%nat <-> encode_jobs s <> []).
  { rewrite Hg. destruct (encode_jobs s) as [| j js]; cbn in *.
    - split; [lia | congruence].
    - split; [congruence | lia]. }
  split; [lia |]. split; [exact Hiff |].
  intros timing [Hin | Hdrop].
  - apply tick_dropped. left. apply Hiff. lia.
  - now apply tick_dropped.
Qed.

End SchedulerClaims.

Section FragmentCounters.

Import Sender.

Context {codec : Codec}.

Variable cfg : config.

Lemma map_to_uint64_id (l : list Z) :
  Forall in_uint64 l -> map to_uint64 l = l.
Proof.
  induction 1 as [| x l Hx _ IH]; cbn; trivial.
  now rewrite IH, (to_uint64_small x Hx).
Qed.

Lemma cumulative_fpf_exact (s : state) :
  invariant s ->
  Z.of_nat (length (socket_sent s)) <= UINT32_MOD ->
  Forall (fun ff => 1 <= fragments_of ff) (socket_sent s) ->
  total (map fragments_of (socket_sent s)) < UINT64_MOD ->
  cumulative_fpf s = running_total (map fragments_of (socket_sent s)) /\
  strictly_increasing (cumulative_fpf s).
Proof.
  intros Hinv Hlen Hpos Htot.
  assert (Hcounts : Forall (fun c => 1 <= c) (map fragments_of (socket_sent s))).
  { apply Forall_map. exact Hpos. }
  destruct (running_total_from_increasing 0 _ Hcounts) as [Hinc Hall].
  assert (E : cumulative_fpf s = running_total (map fragments_of (socket_sent s))).
  { rewrite (inv_totals s Hinv Hlen). apply map_to_uint64_id.
    eapply Forall_impl; [| exact Hall].
    cbn. intros x Hx. unfold in_uint64. lia. }
  split; [exact E |]. rewrite E. exact Hinc.
Qed.

(** C8 (amended): [cumulative_fpf] has one entry per frame sent; each
    run of the generation-ended callback sends one frame and appends
    exactly one entry, computed on 64 bits from [frame_no], which is a
    32-bit counter: for frame [k] below [2^32] it is [cumulative_fpf[k-1]]
    plus the fragment count of the frame, and the fragment count alone for
    frame 0.  As long as no more than [2^32] frames have been sent and the
    fragment counts total less than [2^64], [cumulative_fpf] is the list
    of running totals of the fragment counts, strictly increasing when
    every frame has at least one fragment. *)
Theorem cumulative_fpf_grows_by_fragments (encoder0 : Encoder) (s : state) :
  reachable cfg encoder0 s ->
  length (cumulative_fpf s) = length (socket_sent s) /\
  (fires GenerationEnded s ->
   exists s' ff,
     generation_ended_handler cfg s = Done Continue s' /\
     socket_sent s' = socket_sent s ++ [ff] /\
     cumulative_fpf s' = cumulative_fpf s ++ [next_entry s (fragments_of ff)] /\
     (Z.of_nat (length (socket_sent s)) < UINT32_MOD ->
      ff_frame_no ff = Z.of_nat (length (socket_sent s)) /\
      next_entry s (fragments_of ff)
      = to_uint64 match length (socket_sent s) with
                  | O => fragments_of ff
                  | S k => nth k (cumulative_fpf s) 0 + fragments_of ff
                  end)) /\
  (Z.of_nat (length (socket_sent s)) <= UINT32_MOD ->
   Forall (fun ff => 1 <= fragments_of ff) (socket_sent s) ->
   total (map fragments_of (socket_sent s)) < UINT64_MOD ->
   cumulative_fpf s = running_total (map fragments_of (socket_sent s)) /\
   strictly_increasing (cumulative_fpf s)).
Proof.
  intros Hreach.
  pose proof (reachable_invariant cfg encoder0 s Hreach) as Hinv.
  split; [apply (inv_length s Hinv) |].
  split; [| now apply cumulative_fpf_exact].
  intros Hfire.
  destruct (generation_always_sent cfg encoder0 s Hreach Hfire)
    as (f & output & Ho & Hv & Hs & Hrun).
  eexists. exists (emitted cfg s output).
  split; [exact Hrun |].
  split; [reflexivity |]. split; [reflexivity |].
  intros Hlen.
  pose proof (inv_frame_no s Hinv) as Hf.
  rewrite to_uint32_small in Hf by (unfold in_uint32; lia).
  split; [exact Hf |].
  unfold next_entry. rewrite Hf.
  destruct (length (socket_sent s)) as [| k].
  - reflexivity.
  - destruct (Z.gtb_spec (Z.of_nat (S k)) 0); [| lia].
    replace (Z.to_nat (Z.of_nat (S k) - 1)) with k by lia. reflexivity.
Qed.

End FragmentCounters.

(** ** The model at work on concrete states *)

Section Runs.

Import Sender Fixture.

Lemma can_fire_fires (ev : event) (s : state) : can_fire ev s = true -> fires ev s.
Proof.
  destruct ev; cbn [can_fire fires]; trivial. apply Nat.ltb_lt.
Qed.

Lemma steps_reachable (evs : list event) (s s' : state) :
  reachable cfg encoder0 s -> steps evs s = Some s' -> reachable cfg encoder0 s'.
Proof.
  revert s. induction evs as [| ev rest IH]; intros s Hreach; cbn [steps].
  - now intros [= <-].
  - destruct (can_fire ev s) eqn:Hfire; [| discriminate].
    destruct (handle cfg ev s) as [[| status] s1 | e s1 | s1] eqn:Hstep;
      try discriminate.
    apply IH. eapply reach_step; [exact Hreach | | exact Hstep].
    now apply can_fire_fires.
Qed.

Lemma after_reachable (evs : list event) (s : state) :
  s = after evs -> reachable cfg encoder0 s.
Proof.
  intros ->. unfold after. destruct (steps evs start) as [s |] eqn:E.
  - apply (steps_reachable evs start s); [constructor | exact E].
  - constructor.
Qed.

Lemma with_raster_reachable : reachable cfg encoder0 with_raster.
Proof. apply (after_reachable raster_only). vm_compute. reflexivity. Qed.

Lemma one_sent_reachable : reachable cfg encoder0 one_sent.
Proof. apply (after_reachable first_frame). vm_compute. reflexivity. Qed.

Lemma acked_reachable : reachable cfg encoder0 acked.
Proof. apply (after_reachable (acknowledged 1000)). vm_compute. reflexivity. Qed.

Lemma late_generation_reachable : reachable cfg encoder0 late_generation.
Proof. apply (after_reachable late_tick). vm_compute. reflexivity. Qed.

Lemma timely_generation_reachable : reachable cfg encoder0 timely_generation.
Proof. apply (after_reachable timely_tick). vm_compute. reflexivity. Qed.

Lemma second_generation_reachable : reachable cfg encoder0 second_generation.
Proof. apply (after_reachable second_tick). vm_compute. reflexivity. Qed.

Lemma two_sent_reachable : reachable cfg encoder0 two_sent.
Proof. apply (after_reachable second_frame). vm_compute. reflexivity. Qed.

Lemma third_generation_reachable : reachable cfg encoder0 third_generation.
Proof. apply (after_reachable third_tick). vm_compute. reflexivity. Qed.


(** S1: three rasters over three ticks with [qi = 32] and no
    acknowledgement give three frames, encoded at quantizer 32. *)
Example warm_up :
  let s := after [RasterReadable (Some 4100); Tick on_time; GenerationEnded;
                  RasterReadable (Some 1500); Tick on_time; GenerationEnded;
                  RasterReadable (Some 2800); Tick on_time; GenerationEnded] in
  cumulative_fpf s = [3; 5; 7] /\ frame_no s = 3 /\
  map ff_frame_no (socket_sent s) = [0; 1; 2] /\ encoder s = 3.
Proof. vm_compute. repeat split; reflexivity. Qed.

(** S5: an acknowledgement for another connection changes nothing. *)
Example wrong_connection_ack :
  ack_handler cfg (mkAck 8 1 0 1000) one_sent = Done Continue one_sent.
Proof. reflexivity. Qed.

Example matching_ack :
  avg_delay acked = 1000 /\ last_acked acked = 3.
Proof. vm_compute. split; reflexivity. Qed.

End Runs.

Section ConcreteClaims.

Import Sender Fixture.

Lemma tick_on_acked :
  tick_handler cfg on_time acked
  = Done Continue
         (start_generation on_time (set_encode_jobs [first_job cfg acked camera_frame] acked)).
Proof. apply tick_spawns; reflexivity. Qed.

Lemma tick_on_quota_exhausted :
  tick_handler cfg on_time quota_exhausted
  = Done Continue
         (start_generation on_time
            (set_encode_jobs [first_job cfg quota_exhausted camera_frame] quota_exhausted)).
Proof. apply tick_spawns; reflexivity. Qed.

(** No run of the loop gives a skip counter of [MAX_SKIPPED]. *)
Lemma quota_exhausted_not_reached : ~ reachable cfg encoder0 quota_exhausted.
Proof.
  intros Hreach.
  pose proof (inv_skipped _ (reachable_invariant cfg encoder0 _ Hreach)) as H.
  discriminate H.
Qed.

(** The generation-ended callback tests [valid()], not whether the job
    had finished: of a late output followed by one that was ready it sends
    the late one, of 3333 bytes.  With one job to a generation no run of
    the loop gets there. *)
Example valid_decides_not_ready :
  first_ready (encode_outputs late_before_ready) = Some ready_output /\
  socket_sent (state_of (generation_ended_handler cfg late_before_ready))
  = socket_sent late_before_ready
      ++ [mkFragmentedFrame 7 1 83000 (repeat Byte.x00 3333)] /\
  ~ reachable cfg encoder0 late_before_ready.
Proof.
  split; [reflexivity |]. split; [vm_compute; reflexivity |].
  intros Hreach.
  pose proof (outputs_bounded cfg encoder0 _ Hreach) as H.
  vm_compute in H. lia.
Qed.

(** An acknowledgement of this session for a frame beyond those sent:
    [avg_delay] is overwritten, then [cumulative_fpf] is read out of
    range. *)
Lemma ack_beyond_sent (c : config) (ack : AckPacket) (s : state) :
  ack_connection_id ack = connection_id c ->
  0 < ack_frame_no ack ->
  Z.of_nat (length (cumulative_fpf s)) < ack_frame_no ack ->
  ack_handler c ack s = Undef (set_avg_delay (ack_avg_delay ack) s).
Proof.
  intros Hc Hpos Hlen. unfold ack_handler.
  rewrite Hc, Z.eqb_refl. cbn [negb].
  destruct (Z.gtb_spec (ack_frame_no ack) 0); [| lia].
  cbn [cumulative_fpf set_avg_delay].
  destruct (nth_error _ _) eqn:E; trivial.
  assert (nth_error (cumulative_fpf s) (Z.to_nat (ack_frame_no ack - 1)) <> None)
    as Hn by congruence.
  apply nth_error_Some in Hn. lia.
Qed.

End ConcreteClaims.

(** C1, as stated, fails: after an acknowledgement, with a target size of
    140000 bytes, the job a valid tick spawns is a [CONSTANT_QUANTIZER] job,
    not a [TARGET_FRAME_SIZE] one. *)
Lemma tick_ignores_feedback_counterexample :
  Sender.reachable Fixture.cfg Fixture.encoder0 Fixture.acked /\
  Sender.avg_delay Fixture.acked = 1000 /\
  Sender.avg_delay Fixture.acked <> UINT32_MAX /\
  Sender.valid_tick Fixture.acked /\
  Sender.back (Sender.cumulative_fpf Fixture.acked) = Some 3 /\
  target_size (Sender.avg_delay Fixture.acked) (Sender.last_acked Fixture.acked) 3
  = Ok 140000 /\
  (exists s' job,
      Sender.tick_handler Fixture.cfg Fixture.on_time Fixture.acked
      = Sender.Done Sender.Continue s' /\
      Sender.encode_jobs s' = [job] /\
      Sender.job_mode job = Sender.CONSTANT_QUANTIZER /\
      Sender.job_y_ac_qi job = 32) /\
  ~ (exists s' job,
        Sender.tick_handler Fixture.cfg Fixture.on_time Fixture.acked
        = Sender.Done Sender.Continue s' /\
        Sender.encode_jobs s' = [job] /\
        Sender.job_mode job = Sender.TARGET_FRAME_SIZE).
Proof.
  split; [apply acked_reachable |].
  split; [reflexivity |].
  split; [vm_compute; congruence |].
  split; [split; [reflexivity | vm_compute; congruence] |].
  split; [reflexivity |].
  split; [reflexivity |].
  split.
  - do 2 eexists. split; [apply tick_on_acked |].
    repeat split; reflexivity.
  - intros (s' & job & Hrun & Hjobs & Hmode).
    rewrite tick_on_acked in Hrun. injection Hrun as <-.
    cbn in Hjobs. injection Hjobs as <-. discriminate Hmode.
Qed.

Lemma tick_uses_constant_quantizer_witness :
  exists s',
    Sender.tick_handler Fixture.cfg Fixture.on_time Fixture.acked
    = Sender.Done Sender.Continue s' /\
    Sender.encode_jobs s'
    = [Sender.mkEncodeJob (Sender.frame_no Fixture.acked) Fixture.camera_frame
                          (Sender.encoder Fixture.acked)
                          Sender.CONSTANT_QUANTIZER
                          (to_uint8 (Sender.y_ac_qi Fixture.cfg)) 0] /\
    Sender.encode_outputs s' = map (Sender.async Fixture.on_time) (Sender.encode_jobs s') /\
    Sender.generations s' = S (Sender.generations Fixture.acked) /\
    Sender.skipped_count s' = Sender.skipped_count Fixture.acked /\
    Sender.encoder s' = Sender.encoder Fixture.acked /\
    Sender.frame_no s' = Sender.frame_no Fixture.acked.
Proof.
  apply (tick_uses_constant_quantizer Fixture.cfg Fixture.on_time Fixture.acked Fixture.camera_frame);
    reflexivity.
Defined.

(** C2, on a generation whose only job has not finished at the deadline:
    the future is valid all the same, so the callback waits for the job,
    sends its frame and commits, where the claim has the generation
    discarded. *)
Theorem late_generation_is_sent :
  Sender.reachable Fixture.cfg Fixture.encoder0 Fixture.late_generation /\
  Sender.fires Sender.GenerationEnded Fixture.late_generation /\
  Sender.first_ready (Sender.encode_outputs Fixture.late_generation) = None /\
  map Sender.valid (Sender.encode_outputs Fixture.late_generation) = [true] /\
  Sender.socket_sent Fixture.late_generation = [] /\
  Sender.frame_no Fixture.late_generation = 0 /\
  Sender.encoder Fixture.late_generation = 0 /\
  exists s',
    Sender.generation_ended_handler Fixture.cfg Fixture.late_generation
    = Sender.Done Sender.Continue s' /\
    map Sender.ff_frame_no (Sender.socket_sent s') = [0] /\
    Sender.cumulative_fpf s' = [3] /\
    Sender.frame_no s' = 1 /\
    Sender.encoder s' = 1 /\
    Sender.encode_jobs s' = [].
Proof.
  split; [apply late_generation_reachable |].
  split; [vm_compute; lia |].
  repeat (split; [vm_compute; reflexivity |]).
  exists Fixture.late_frame_sent.
  repeat (split; [vm_compute; reflexivity |]).
  vm_compute; reflexivity.
Qed.

(** C3, on an acknowledgement of this session for frame 5 when no frame
    has been sent: [avg_delay] is overwritten with the value of the
    acknowledgement and [cumulative_fpf[4]] is read out of range, where the
    claim has the acknowledgement ignored. *)
Theorem early_ack_not_ignored :
  Sender.reachable Fixture.cfg Fixture.encoder0 Fixture.with_raster /\
  Sender.ack_connection_id Fixture.early_ack = Sender.connection_id Fixture.cfg /\
  Sender.cumulative_fpf Fixture.with_raster = [] /\
  Sender.avg_delay Fixture.with_raster = UINT32_MAX /\
  Sender.ack_handler Fixture.cfg Fixture.early_ack Fixture.with_raster
  = Sender.Undef (Sender.set_avg_delay 1234 Fixture.with_raster) /\
  Sender.avg_delay (Sender.set_avg_delay 1234 Fixture.with_raster) = 1234 /\
  Sender.ack_handler Fixture.cfg Fixture.early_ack Fixture.with_raster
  <> Sender.Done Sender.Continue Fixture.with_raster.
Proof.
  split; [apply with_raster_reachable |].
  repeat (split; [vm_compute; reflexivity |]).
  rewrite (ack_beyond_sent Fixture.cfg Fixture.early_ack) by (vm_compute; reflexivity).
  discriminate.
Qed.


Lemma generation_commits_first_ready_witness :
  (exists s',
      Sender.generation_ended_handler Fixture.cfg Fixture.three_outputs
      = Sender.Done Sender.Continue s' /\
      Sender.socket_sent s'
      = Sender.socket_sent Fixture.three_outputs
          ++ [Sender.mkFragmentedFrame 7 1 83000 (repeat Byte.x00 2222)] /\
      Sender.encoder s' = Fixture.second_encoder /\
      Sender.skipped_count Fixture.three_outputs = 3 /\
      Sender.skipped_count s' = 0 /\
      Sender.frame_no s' = 2 /\
      Sender.encode_jobs s' = []) /\
  (exists output s',
      Sender.shared_state
        (Sender.async Fixture.on_time
           (Sender.first_job Fixture.cfg Fixture.with_raster Fixture.camera_frame))
      = Ok output /\
      Sender.generation_ended_handler Fixture.cfg Fixture.timely_generation
      = Sender.Done Sender.Continue s' /\
      Sender.encoder s' = Sender.out_encoder output /\
      Sender.frame_no s' = to_uint32 (Sender.frame_no Fixture.timely_generation + 1) /\
      Sender.encode_jobs s' = []).
Proof.
  split.
  - destruct (proj1 (generation_commits_first_ready Fixture.cfg Fixture.encoder0)
                    Fixture.three_outputs [Fixture.consumed_output]
                    [Fixture.late_output] Fixture.ready_output
                    Fixture.ready_result)
      as (s' & Hrun & Hsent & Henc & Hskip & Hno & Hjobs & _).
    + vm_compute. reflexivity.
    + repeat constructor.
    + reflexivity.
    + vm_compute. reflexivity.
    + intros _. vm_compute. lia.
    + exists s'. split; [exact Hrun |].
      split; [rewrite Hsent; vm_compute; reflexivity |].
      split; [exact Henc |]. split; [reflexivity |]. split; [exact Hskip |].
      split; [rewrite Hno; vm_compute; reflexivity | exact Hjobs].
  - destruct (proj2 (generation_commits_first_ready Fixture.cfg Fixture.encoder0)
                    Fixture.timely_generation
                    (Sender.async Fixture.on_time
                       (Sender.first_job Fixture.cfg Fixture.with_raster
                                         Fixture.camera_frame))
                    timely_generation_reachable)
      as (_ & _ & output & s' & Hs & Hrun & _ & Henc & _ & Hno & _ & Hjobs & _).
    + vm_compute. lia.
    + reflexivity.
    + exists output, s'. repeat (split; trivial).
Defined.

Lemma one_generation_in_flight_witness :
  (Sender.generations Fixture.timely_generation <= 1)%nat /\
  (Sender.generations Fixture.timely_generation = 1%nat <->
   Sender.encode_jobs Fixture.timely_generation <> []) /\
  (forall timing,
      (0 < Sender.generations Fixture.timely_generation)%nat \/
      Sender.encode_jobs Fixture.timely_generation <> [] \/
      Sender.last_raster Fixture.timely_generation = None ->
      Sender.tick_handler Fixture.cfg timing Fixture.timely_generation
      = Sender.Done Sender.Continue Fixture.timely_generation).
Proof.
  apply (one_generation_in_flight Fixture.cfg Fixture.encoder0 Fixture.timely_generation).
  apply timely_generation_reachable.
Defined.

Section FragmentCountersAtWork.

Import Sender Fixture.

Lemma cumulative_fpf_grows_by_fragments_witness :
  cumulative_fpf third_generation = [3; 5] /\
  length (cumulative_fpf third_generation) = length (socket_sent third_generation) /\
  (exists s' ff,
      generation_ended_handler cfg third_generation = Done Continue s' /\
      socket_sent s' = socket_sent third_generation ++ [ff] /\
      cumulative_fpf s'
      = [3; 5] ++ [next_entry third_generation (fragments_of ff)] /\
      ff_frame_no ff = 2 /\
      next_entry third_generation (fragments_of ff) = to_uint64 (5 + fragments_of ff)) /\
  cumulative_fpf third_generation
  = running_total (map fragments_of (socket_sent third_generation)) /\
  strictly_increasing (cumulative_fpf third_generation).
Proof.
  destruct (cumulative_fpf_grows_by_fragments cfg encoder0 third_generation
              third_generation_reachable) as (Hlen & Happend & Hexact).
  split; [reflexivity |]. split; [exact Hlen |].
  split.
  - destruct Happend as (s' & ff & Hrun & Hsent & Hfpf & Hentry);
      [vm_compute; lia |].
    exists s', ff. split; [exact Hrun |]. split; [exact Hsent |].
    split; [exact Hfpf |].
    apply Hentry. vm_compute. reflexivity.
  - apply Hexact.
    + vm_compute. discriminate.
    + vm_compute. repeat constructor; discriminate.
    + vm_compute. reflexivity.
Defined.

End FragmentCountersAtWork.

Lemma paranoid_atoi_round_trip_witness :
  Cli.stoul "32" = Ok 32 /\ Cli.decimal_value "32" = Some 32.
Proof.
  apply (proj1 (proj2 (proj2 (paranoid_atoi_round_trip "32"))) 32).
  reflexivity.
Defined.

(** * More of the code *)

(** ** The command line *)

Section CommandLine.

Import Sender Session.

Example usage_on_three_arguments :
  parse_command_line ["salsify-sender"; "32"; "localhost"]%string = Exited EXIT_FAILURE.
Proof. reflexivity. Qed.

Example bad_quantizer :
  parse_command_line ["salsify-sender"; "032"; "localhost"; "9000"; "7"]%string
  = Failed (runtime_error "invalid unsigned integer: 032").
Proof. reflexivity. Qed.

Example session_id_wraps :
  parse_command_line ["salsify-sender"; "32"; "localhost"; "9000"; "65543"]%string
  = Started (mkConfig 32 7) "localhost" "9000".
Proof. reflexivity. Qed.

(** X1: [main] gets past its checks of the command line and its two
    conversions exactly on five arguments of which the first and the fourth
    after the program name are decimal numerals of 32-bit values; the
    quantizer is kept whole, the connection id is kept modulo [2^16]. *)
Theorem command_line_accepted (argv : list string) (cfg : config) (host port : string) :
  parse_command_line argv = Started cfg host port <->
  exists prog qi c,
    argv = [prog; Cli.to_string qi; host; port; Cli.to_string c] /\
    in_uint32 qi /\ in_uint32 c /\
    cfg = mkConfig qi (to_uint16 c).
Proof.
  split.
  - destruct argv as [| prog [| a1 [| a2 [| a3 [| a4 [| a5 rest]]]]]];
      cbn [parse_command_line]; try discriminate.
    destruct (Cli.paranoid_atoi a1) as [qi | e |] eqn:E1; try discriminate.
    destruct (Cli.paranoid_atoi a4) as [c | e |] eqn:E4; try discriminate.
    intros [= <- <- <-].
    apply CliProperties.paranoid_atoi_accepts in E1 as [Hq <-].
    apply CliProperties.paranoid_atoi_accepts in E4 as [Hc <-].
    exists prog, qi, c. auto.
  - intros (prog & qi & c & -> & Hq & Hc & ->).
    cbn [parse_command_line].
    now rewrite !CliProperties.paranoid_atoi_to_string.
Qed.

(** X2: two connection ids that differ by a multiple of [2^16] start the same
    session. *)
Theorem connection_id_modulo_65536 (prog host port : string) (qi c1 c2 : Z) :
  in_uint32 qi -> in_uint32 c1 -> in_uint32 c2 ->
  c1 mod 65536 = c2 mod 65536 ->
  parse_command_line [prog; Cli.to_string qi; host; port; Cli.to_string c1]
  = parse_command_line [prog; Cli.to_string qi; host; port; Cli.to_string c2] /\
  parse_command_line [prog; Cli.to_string qi; host; port; Cli.to_string c1]
  = Started (mkConfig qi (c1 mod 65536)) host port.
Proof.
  intros Hq H1 H2 E. cbn [parse_command_line].
  rewrite !CliProperties.paranoid_atoi_to_string by trivial.
  unfold to_uint16, UINT16_MOD. change (2 ^ 16) with 65536. now rewrite E.
Qed.

End CommandLine.

Lemma connection_id_modulo_65536_witness :
  Session.parse_command_line
    ["sender"; Cli.to_string 32; "host"; "9000"; Cli.to_string 65543]%string
  = Session.parse_command_line
      ["sender"; Cli.to_string 32; "host"; "9000"; Cli.to_string 7]%string /\
  Session.parse_command_line
    ["sender"; Cli.to_string 32; "host"; "9000"; Cli.to_string 65543]%string
  = Session.Started (Sender.mkConfig 32 (65543 mod 65536)) "host" "9000".
Proof.
  apply (connection_id_modulo_65536 "sender" "host" "9000" 32 65543 7);
    unfold in_uint32, UINT32_MOD; simpl; try lia; reflexivity.
Defined.

(** ** Runs of the loop *)

Section LoopProperties.

Import Sender Session.

Context {codec : Codec}.

Variable cfg : config.

Lemma generation_ended_continues (s : state) (r : ResultType) (s' : state) :
  generation_ended_handler cfg s = Done r s' -> r = Continue.
Proof.
  unfold generation_ended_handler.
  destruct (negb _); [now intros [= <- _] |].
  destruct (find_if _ _) as [[[before f] rest] |]; [| discriminate].
  cbn [future_get]. destruct (shared_state f); try discriminate.
  destruct (_ >? _).
  - destruct (nth_error _ _); [now intros [= <- _] | discriminate].
  - now intros [= <- _].
Qed.

(** X3: of the four callbacks only the raster callback can return [Exit]:
    a callback that returns [Exit] is the raster callback on a
    [get_next_frame] that gave no raster; its status is [EXIT_FAILURE],
    not 0, and it leaves [last_raster] empty.  What [Poller::poll] makes
    of the results is not part of this. *)
Theorem only_raster_callback_exits (ev : event) (s s' : state) (status : Z) :
  handle cfg ev s = Done (Exit status) s' ->
  ev = RasterReadable None /\ status = EXIT_FAILURE /\ status <> 0 /\
  s' = set_last_raster None s.
Proof.
  destruct ev as [next | timing | | ack]; cbn [handle].
  - unfold raster_handler. cbn [last_raster set_last_raster].
    destruct next; [discriminate |].
    intros [= <- <-]. repeat split. discriminate.
  - unfold tick_handler, choose_mode. cbn [orb].
    destruct (_ >? _); [discriminate |].
    destruct (last_raster s); discriminate.
  - intros H. apply generation_ended_continues in H. discriminate.
  - unfold ack_handler.
    destruct (negb _); [discriminate |].
    destruct (_ >? _); [| discriminate].
    destruct (nth_error _ _); discriminate.
Qed.

Lemma ack_past_the_end (ack : AckPacket) (s : state) :
  ack_connection_id ack = connection_id cfg ->
  Z.of_nat (length (cumulative_fpf s)) < ack_frame_no ack ->
  ack_handler cfg ack s = Undef (set_avg_delay (ack_avg_delay ack) s).
Proof.
  intros Hc Hlen. unfold ack_handler.
  rewrite Hc, Z.eqb_refl. cbn [negb].
  destruct (Z.gtb_spec (ack_frame_no ack) 0); [| lia].
  cbn [cumulative_fpf set_avg_delay].
  destruct (nth_error _ _) eqn:E; trivial.
  assert (nth_error (cumulative_fpf s) (Z.to_nat (ack_frame_no ack - 1)) <> None)
    as Hn by congruence.
  apply nth_error_Some in Hn. lia.
Qed.

Lemma ack_within (ack : AckPacket) (s : state) :
  ack_connection_id ack <> connection_id cfg \/
  ack_frame_no ack <= Z.of_nat (length (cumulative_fpf s)) ->
  exists s', ack_handler cfg ack s = Done Continue s'.
Proof.
  intros H. unfold ack_handler.
  destruct (Z.eqb_spec (ack_connection_id ack) (connection_id cfg)) as [Hc | Hc];
    cbn [negb]; [| eauto].
  destruct H as [H | H]; [contradiction |].
  destruct (Z.gtb_spec (ack_frame_no ack) 0); [| eauto].
  cbn [cumulative_fpf set_avg_delay].
  destruct (nth_error _ _) eqn:E; [eauto |].
  apply nth_error_None in E. lia.
Qed.

(** X4: what the callbacks read of the variables of [main] without a
    check, in a state the loop reaches.  In the generation-ended callback
    [find_if] finds a valid future (line 284 never dereferences [end()]),
    its [get()] yields an output, not the exception of an unsupported
    mode, and [cumulative_fpf[ frame_no - 1 ]] (line 297) is in range; the
    tick callback never gets to [cumulative_fpf.back()] nor to the product
    of [target_size].  The one read that can go out of range is
    [cumulative_fpf[ ack.frame_no() - 1 ]] (line 324), exactly when the
    acknowledgement carries the connection id of the session and a frame
    number greater than the number of frames sent; [avg_delay] has been
    overwritten by then.  The threads the tick callback starts, the socket
    and the parsing of packets are not part of this; the encoder's
    functions are taken to return. *)
Theorem only_early_ack_reads_out_of_range (encoder0 : Encoder) (ev : event) (s : state) :
  reachable cfg encoder0 s -> fires ev s ->
  (ack_beyond cfg ev s ->
   exists ack, ev = AckReceived ack /\
               handle cfg ev s = Undef (set_avg_delay (ack_avg_delay ack) s)) /\
  (~ ack_beyond cfg ev s -> exists r s', handle cfg ev s = Done r s').
Proof.
  intros Hreach Hfire.
  pose proof (reachable_invariant cfg encoder0 s Hreach) as Hinv.
  pose proof (inv_length s Hinv) as Hlen.
  split.
  - destruct ev as [next | timing | | ack]; cbn [ack_beyond]; try contradiction.
    intros [Hc Hb]. exists ack. split; trivial.
    apply ack_past_the_end; trivial. lia.
  - intros Hn. destruct ev as [next | timing | | ack]; cbn [handle].
    + unfold raster_handler. destruct (last_raster _); eauto.
    + destruct (encode_jobs s) as [| j js] eqn:Ej.
      * destruct (last_raster s) as [raster |] eqn:Er.
        -- rewrite (tick_spawns cfg timing s raster Ej Er). eauto.
        -- rewrite tick_dropped by auto. eauto.
      * rewrite tick_dropped by (left; congruence). eauto.
    + destruct (generation_always_sent cfg encoder0 s Hreach Hfire)
        as (f & output & _ & _ & _ & Hrun).
      rewrite Hrun. eauto.
    + destruct (ack_within ack s) as [s' Hs']; [| eauto].
      cbn [ack_beyond] in Hn.
      destruct (Z.eq_dec (ack_connection_id ack) (connection_id cfg)); [| auto].
      right. lia.
Qed.

(** X5: of two acknowledgements of this session only the later one counts. *)
Theorem last_acknowledgement_wins (a1 a2 : AckPacket) (s s1 s2 : state) :
  ack_connection_id a2 = connection_id cfg ->
  ack_handler cfg a1 s = Done Continue s1 ->
  ack_handler cfg a2 s = Done Continue s2 ->
  ack_handler cfg a2 s1 = Done Continue s2.
Proof.
  intros Hc H1 H2.
  assert (Hs1 : exists d l, s1 = with_feedback d l s).
  { unfold ack_handler in H1.
    destruct (negb (ack_connection_id a1 =? connection_id cfg)).
    - injection H1 as <-. exists (avg_delay s), (last_acked s). now destruct s.
    - destruct (ack_frame_no a1 >? 0).
      + cbn [cumulative_fpf set_avg_delay] in H1.
        destruct (nth_error (cumulative_fpf s) (Z.to_nat (ack_frame_no a1 - 1)));
          [| discriminate].
        injection H1 as <-. eexists _, _. reflexivity.
      + injection H1 as <-. eexists _, _. reflexivity. }
  destruct Hs1 as (d & l & ->).
  unfold ack_handler in *. rewrite Hc, Z.eqb_refl in *. cbn [negb] in *.
  destruct (ack_frame_no a2 >? 0).
  - cbn [cumulative_fpf set_avg_delay with_feedback set_last_acked] in *.
    destruct (nth_error (cumulative_fpf s) (Z.to_nat (ack_frame_no a2 - 1)));
      [| discriminate].
    injection H2 as <-. reflexivity.
  - injection H2 as <-. reflexivity.
Qed.

End LoopProperties.

Section HistoryProperties.

Import Sender Session.

Context {codec : Codec}.

Variable cfg : config.

Lemma replay_app (qi : Z) (e : Encoder) (rasters : list RasterHandle) (r : RasterHandle) :
  replay qi e (rasters ++ [r])
  = let '(e1, frames) := replay qi e rasters in
    let '(e2, frame) := encode_with_quantizer e1 r qi in
    (e2, frames ++ [frame]).
Proof.
  revert e. induction rasters as [| x rest IH]; intros e; cbn [replay app].
  - destruct (encode_with_quantizer e r qi). reflexivity.
  - destruct (encode_with_quantizer e x qi) as [e1 frame].
    rewrite IH. destruct (replay qi e1 rest) as [e2 frames].
    destruct (encode_with_quantizer e2 r qi). reflexivity.
Qed.

Lemma history_initial (encoder0 : Encoder) : history cfg encoder0 (initial_state encoder0).
Proof.
  constructor; cbn.
  - exists []. split; reflexivity.
  - intros job jobs H. discriminate.
  - reflexivity.
  - constructor.
Qed.

Lemma history_same_fields (encoder0 : Encoder) (s s' : state) :
  encoder s' = encoder s ->
  frame_no s' = frame_no s ->
  socket_sent s' = socket_sent s ->
  encode_jobs s' = encode_jobs s ->
  encode_outputs s' = encode_outputs s ->
  history cfg encoder0 s -> history cfg encoder0 s'.
Proof.
  intros He Hf Hs Hj Ho [H1 H2 H3 H4].
  constructor; rewrite ?He, ?Hf, ?Hs, ?Hj, ?Ho; trivial.
Qed.

Lemma history_tick (encoder0 : Encoder) (timing : EncodeJob -> job_clock) (s s' : state) :
  tick_handler cfg timing s = Done Continue s' ->
  history cfg encoder0 s -> history cfg encoder0 s'.
Proof.
  intros H Hh.
  destruct (encode_jobs s) as [| j js] eqn:Ej.
  2:{ rewrite tick_dropped in H by (left; congruence). now injection H as <-. }
  destruct (last_raster s) as [raster |] eqn:Er.
  2:{ rewrite tick_dropped in H by (now right). now injection H as <-. }
  rewrite (tick_spawns cfg timing s raster Ej Er) in H. injection H as <-.
  destruct Hh as [H1 H2 H3 H4].
  constructor; cbn; trivial.
  intros job jobs [= <- <-]. repeat split. now exists timing.
Qed.

Lemma history_generation_ended (encoder0 : Encoder) (s s' : state) :
  invariant s -> fires GenerationEnded s ->
  generation_ended_handler cfg s = Done Continue s' ->
  history cfg encoder0 s -> history cfg encoder0 s'.
Proof.
  intros Hinv Hfire Hrun Hh. cbn in Hfire.
  destruct (encode_jobs s) as [| job jobs] eqn:Ej.
  { rewrite (inv_generations s Hinv), Ej in Hfire. cbn in Hfire. lia. }
  destruct (hist_job cfg encoder0 s Hh job jobs Ej)
    as (-> & Henc & _ & Hmode & Hqi & timing & Hout).
  destruct (encode_with_quantizer (encoder s) (job_raster job) (to_uint8 (y_ac_qi cfg)))
    as [enc bytes] eqn:Ecodec.
  assert (Hstate : shared_state (async timing job)
                   = Ok (mkEncodeOutput enc bytes (ms_elapsed (timing job)))).
  { unfold async, do_encode_job. cbn [shared_state].
    rewrite Hmode, Henc, Hqi, Ecodec. reflexivity. }
  rewrite (generation_sent cfg s _ _ Hinv Hout eq_refl Hstate) in Hrun.
  injection Hrun as <-.
  destruct Hh as [(rasters & Hlen & Hreplay) _ Hnum Hhead].
  constructor;
    cbn [commit socket_send set_encode_outputs set_generations encoder socket_sent
         encode_jobs encode_outputs out_encoder out_frame frame_no].
  - exists (rasters ++ [job_raster job]). split.
    + rewrite !length_app. cbn. lia.
    + rewrite replay_app, Hreplay, Ecodec, map_app. reflexivity.
  - intros j js H. discriminate.
  - rewrite map_app, length_app, Hnum. unfold emitted.
    cbn [map length ff_frame_no].
    rewrite Nat.add_1_r, seq_S, map_app. cbn [map Nat.add].
    now rewrite (inv_frame_no s Hinv).
  - apply Forall_app. split; [exact Hhead |].
    constructor; [| constructor]. split; reflexivity.
Qed.

Lemma reachable_history (encoder0 : Encoder) (s : state) :
  reachable cfg encoder0 s -> history cfg encoder0 s.
Proof.
  induction 1 as [| s ev s' Hreach IH Hfire Hstep].
  - apply history_initial.
  - pose proof (reachable_invariant cfg encoder0 s Hreach) as Hinv.
    destruct ev as [next | timing | | ack]; cbn [handle] in Hstep.
    + unfold raster_handler in Hstep. cbn [last_raster set_last_raster] in Hstep.
      destruct next; [| discriminate]. injection Hstep as <-.
      now apply (history_same_fields encoder0 s).
    + now apply (history_tick encoder0 timing s).
    + now apply (history_generation_ended encoder0 s).
    + unfold ack_handler in Hstep.
      destruct (negb (ack_connection_id ack =? connection_id cfg));
        [now injection Hstep as <- |].
      destruct (ack_frame_no ack >? 0).
      * cbn [cumulative_fpf set_avg_delay] in Hstep.
        destruct (nth_error (cumulative_fpf s) (Z.to_nat (ack_frame_no ack - 1)));
          [| discriminate].
        injection Hstep as <-. now apply (history_same_fields encoder0 s).
      * injection Hstep as <-. now apply (history_same_fields encoder0 s).
Qed.

(** X6: the frames on the wire are numbered 0, 1, 2, ... (on 32 bits) in the
    order in which they were sent, and each carries the connection id of
    the session and a frame interval of 83000 microseconds. *)
Theorem frames_numbered_in_order (encoder0 : Encoder) (s : state) :
  reachable cfg encoder0 s ->
  map ff_frame_no (socket_sent s)
  = map (fun k => to_uint32 (Z.of_nat k)) (seq 0 (length (socket_sent s))) /\
  Forall (fun ff => ff_connection_id ff = connection_id cfg /\
                    ff_time_to_next_frame ff = 83000)
         (socket_sent s).
Proof.
  intros Hreach. pose proof (reachable_history encoder0 s Hreach) as Hh.
  split; [apply (hist_numbers _ _ _ Hh) | apply (hist_headers _ _ _ Hh)].
Qed.

(** X7: the committed encoder and the frames sent are those of encoding some
    rasters, one per frame sent, one after the other from the initial
    encoder at the configured quantizer (on 8 bits); a job in flight starts
    from the committed encoder, is the only one, and is in
    [CONSTANT_QUANTIZER] mode: nothing that is sent was encoded for a
    target size. *)
Theorem encoder_follows_frames_sent (encoder0 : Encoder) (s : state) :
  reachable cfg encoder0 s ->
  (exists rasters,
      length rasters = length (socket_sent s) /\
      replay (to_uint8 (y_ac_qi cfg)) encoder0 rasters
      = (encoder s, map ff_frame (socket_sent s))) /\
  (forall job, In job (encode_jobs s) ->
      encode_jobs s = [job] /\
      job_encoder job = encoder s /\
      job_frame_no job = frame_no s /\
      job_mode job = CONSTANT_QUANTIZER /\
      job_y_ac_qi job = to_uint8 (y_ac_qi cfg)).
Proof.
  intros Hreach. pose proof (reachable_history encoder0 s Hreach) as Hh.
  split; [apply (hist_replay _ _ _ Hh) |].
  intros job Hin.
  destruct (encode_jobs s) as [| j js] eqn:Ej; [contradiction |].
  destruct (hist_job _ _ _ Hh j js Ej) as (-> & He & Hf & Hm & Hq & _).
  destruct Hin as [<- | []]. repeat split; trivial.
Qed.

End HistoryProperties.

Section FeedbackProperties.

Import Sender Session.

Context {codec : Codec}.

Variable cfg : config.

Lemma with_feedback_own (s : state) : with_feedback (avg_delay s) (last_acked s) s = s.
Proof. now destruct s. Qed.

Lemma with_feedback_twice (d l d' l' : Z) (s : state) :
  with_feedback d l (with_feedback d' l' s) = with_feedback d l s.
Proof. reflexivity. Qed.

(** No callback but the acknowledgement one reads [avg_delay] or
    [last_acked]. *)
Lemma handle_with_feedback (d l : Z) (ev : event) (s : state) :
  is_ack ev = false ->
  handle cfg ev (with_feedback d l s)
  = on_state (with_feedback d l) (handle cfg ev s).
Proof.
  destruct ev as [next | timing | | ack]; intros Hev; try discriminate;
    cbn [handle].
  - unfold raster_handler. cbn [last_raster set_last_raster with_feedback
                                 set_last_acked set_avg_delay].
    destruct next; reflexivity.
  - unfold tick_handler, choose_mode. cbn [orb].
    cbn [encode_jobs last_raster with_feedback set_last_acked set_avg_delay].
    destruct (_ >? _); [reflexivity |].
    destruct (last_raster s); reflexivity.
  - unfold generation_ended_handler.
    cbn [encode_outputs set_generations with_feedback set_last_acked set_avg_delay
         generations].
    destruct (negb _); [reflexivity |].
    destruct (find_if _ _) as [[[before f] rest] |]; [| reflexivity].
    cbn [future_get]. destruct (shared_state f); try reflexivity.
    cbn [frame_no cumulative_fpf socket_send set_encode_outputs].
    destruct (_ >? _); [| reflexivity].
    destruct (nth_error _ _); reflexivity.
Qed.

Lemma ack_writes_feedback (ack : AckPacket) (s s' : state) :
  ack_handler cfg ack s = Done Continue s' ->
  exists d l, s' = with_feedback d l s.
Proof.
  unfold ack_handler. intros H.
  destruct (negb (ack_connection_id ack =? connection_id cfg)).
  - injection H as <-. exists (avg_delay s), (last_acked s).
    symmetry. apply with_feedback_own.
  - destruct (ack_frame_no ack >? 0).
    + cbn [cumulative_fpf set_avg_delay] in H.
      destruct (nth_error (cumulative_fpf s) (Z.to_nat (ack_frame_no ack - 1)));
        [| discriminate].
      injection H as <-. eexists _, _. reflexivity.
    + injection H as <-. eexists _, _. reflexivity.
Qed.

Lemma run_without_acks (evs : list event) (s s1 : state) (d l : Z) :
  run cfg evs s = Some s1 ->
  run cfg (without_acks evs) (with_feedback d l s)
  = Some (with_feedback d l s1).
Proof.
  revert s. induction evs as [| ev rest IH]; intros s; cbn [run without_acks filter].
  - now intros [= <-].
  - destruct (enabled ev s) eqn:Hen; [| discriminate].
    destruct (handle cfg ev s) as [[| status] s' | e s' | s'] eqn:Hstep;
      try discriminate.
    intros Hrest. destruct (is_ack ev) eqn:Hack; cbn [negb].
    + destruct ev; try discriminate. cbn [handle] in Hstep.
      destruct (ack_writes_feedback _ _ _ Hstep) as (d' & l' & ->).
      rewrite <- (with_feedback_twice d l d' l' s). now apply IH.
    + cbn [run].
      assert (Hen' : enabled ev (with_feedback d l s) = enabled ev s)
        by (destruct ev; reflexivity).
      rewrite Hen', Hen, (handle_with_feedback d l ev s Hack), Hstep.
      cbn [on_state]. now apply IH.
Qed.

(** X8: what the sender sends does not depend on the acknowledgements it
    receives: a run of the loop and the same run with the acknowledgements
    taken out end in states that differ in [avg_delay] and [last_acked]
    only; the frames on the wire and the committed encoder are the same. *)
Theorem acknowledgements_change_nothing_sent (evs : list event) (s s1 : state) :
  run cfg evs s = Some s1 ->
  exists s2,
    run cfg (without_acks evs) s = Some s2 /\
    same_but_feedback s1 s2 /\
    socket_sent s2 = socket_sent s1 /\ encoder s2 = encoder s1 /\
    frame_no s2 = frame_no s1 /\ cumulative_fpf s2 = cumulative_fpf s1 /\
    encode_jobs s2 = encode_jobs s1 /\
    avg_delay s2 = avg_delay s /\ last_acked s2 = last_acked s.
Proof.
  intros Hrun.
  pose proof (run_without_acks evs s s1 (avg_delay s) (last_acked s) Hrun) as H.
  rewrite with_feedback_own in H.
  eexists. split; [exact H |].
  split; [unfold same_but_feedback; reflexivity |].
  repeat split.
Qed.

Lemma run_reachable (encoder0 : Encoder) (evs : list event) (s s' : state) :
  reachable cfg encoder0 s -> run cfg evs s = Some s' -> reachable cfg encoder0 s'.
Proof.
  revert s. induction evs as [| ev rest IH]; intros s Hreach; cbn [run].
  - now intros [= <-].
  - destruct (enabled ev s) eqn:Hen; [| discriminate].
    destruct (handle cfg ev s) as [[| status] s1 | e s1 | s1] eqn:Hstep;
      try discriminate.
    apply IH. eapply reach_step; [exact Hreach | | exact Hstep].
    destruct ev; cbn [enabled fires] in *; trivial. now apply Nat.ltb_lt.
Qed.

Lemma run_arrivals (rasters : list RasterHandle) (r : RasterHandle)
      (rest : list event) (s : state) :
  run cfg (arrivals (rasters ++ [r]) ++ rest) s
  = run cfg rest (set_last_raster (Some r) s).
Proof.
  revert s. induction rasters as [| x xs IH]; intros s.
  - reflexivity.
  - cbn [app arrivals map run enabled handle raster_handler last_raster
         set_last_raster].
    change (map (fun r0 => RasterReadable (Some r0)) (xs ++ [r]))
      with (arrivals (xs ++ [r])).
    rewrite IH. reflexivity.
Qed.

(** X9: of the rasters that arrive between two ticks only the last one is
    encoded: from an idle state, rasters followed by a tick and the end of
    its generation send one frame, the encoding of the last raster from the
    committed encoder at the configured quantizer, whatever the timing of
    the job. *)
Theorem latest_raster_is_sent (encoder0 : Encoder) (s : state)
        (rasters : list RasterHandle) (r : RasterHandle)
        (timing : EncodeJob -> job_clock) :
  reachable cfg encoder0 s -> encode_jobs s = [] ->
  exists s',
    run cfg (arrivals (rasters ++ [r]) ++ [Tick timing; GenerationEnded]) s = Some s' /\
    socket_sent s'
    = socket_sent s
        ++ [mkFragmentedFrame (connection_id cfg) (frame_no s) 83000
              (snd (encode_with_quantizer (encoder s) r (to_uint8 (y_ac_qi cfg))))] /\
    encoder s' = fst (encode_with_quantizer (encoder s) r (to_uint8 (y_ac_qi cfg))) /\
    frame_no s' = to_uint32 (frame_no s + 1) /\
    encode_jobs s' = [] /\ generations s' = 0%nat /\
    last_raster s' = Some r /\
    avg_delay s' = avg_delay s /\ last_acked s' = last_acked s.
Proof.
  intros Hreach Hidle.
  rewrite run_arrivals.
  set (s0 := set_last_raster (Some r) s).
  assert (Hinv0 : invariant s0).
  { apply (invariant_same_fields s s0); try reflexivity.
    now apply (reachable_invariant cfg encoder0). }
  assert (Hg : generations s = 0%nat).
  { rewrite (inv_generations s (reachable_invariant cfg encoder0 s Hreach)).
    now rewrite Hidle. }
  cbn [run enabled handle].
  rewrite (tick_spawns cfg timing s0 r Hidle eq_refl).
  set (s1 := start_generation timing (set_encode_jobs [first_job cfg s0 r] s0)).
  assert (Hinv1 : invariant s1).
  { apply (invariant_tick cfg timing s0 s1); trivial.
    apply (tick_spawns cfg timing s0 r Hidle eq_refl). }
  assert (Hen : (0 <? generations s1)%nat = true).
  { apply Nat.ltb_lt. cbn. lia. }
  rewrite Hen.
  destruct (encode_with_quantizer (encoder s) r (to_uint8 (y_ac_qi cfg)))
    as [enc bytes] eqn:Ecodec.
  assert (Hstate : shared_state (async timing (first_job cfg s0 r))
                   = Ok (mkEncodeOutput enc bytes
                           (ms_elapsed (timing (first_job cfg s0 r))))).
  { unfold async, do_encode_job. cbn [shared_state first_job job_mode job_encoder
                                       job_raster job_y_ac_qi].
    change (encoder s0) with (encoder s). rewrite Ecodec. reflexivity. }
  rewrite (generation_sent cfg s1 _ _ Hinv1 eq_refl eq_refl Hstate).
  eexists. split; [reflexivity |].
  cbn [commit socket_send set_encode_outputs set_generations socket_sent encoder
       frame_no encode_jobs generations last_raster avg_delay last_acked
       out_encoder out_frame fst snd emitted].
  subst s1 s0.
  cbn [start_generation set_generations set_encode_outputs set_encode_jobs
       set_last_raster socket_sent frame_no generations last_raster avg_delay
       last_acked Nat.pred].
  rewrite Hg. repeat split.
Qed.

End FeedbackProperties.

Section InFlight.

Import Sender Session.

Context {codec : Codec}.

Variable cfg : config.

Lemma total_app (l1 l2 : list Z) : total (l1 ++ l2) = total l1 + total l2.
Proof.
  unfold total. induction l1 as [| a l1 IH]; cbn [app fold_right]; lia.
Qed.

Lemma running_total_from_app_list (start : Z) (l1 l2 : list Z) :
  running_total_from start (l1 ++ l2)
  = running_total_from start l1 ++ running_total_from (start + total l1) l2.
Proof.
  revert start. induction l1 as [| a l1 IH]; intros start; cbn [app running_total_from].
  - unfold total. cbn [fold_right]. now rewrite Z.add_0_r.
  - rewrite IH. do 3 f_equal. unfold total. cbn [fold_right]. lia.
Qed.

Lemma back_app_last (l : list Z) (x : Z) : back (l ++ [x]) = Some x.
Proof.
  induction l as [| a l IH]; [reflexivity |].
  cbn [app]. destruct (l ++ [x]) as [| z rest] eqn:E.
  - destruct l; discriminate.
  - exact IH.
Qed.

Lemma back_running_total (l : list Z) :
  l <> [] -> back (running_total l) = Some (total l).
Proof.
  intros Hl. destruct (exists_last Hl) as (l' & x & ->).
  unfold running_total. rewrite running_total_from_app.
  rewrite back_app_last. f_equal. rewrite total_app. unfold total. cbn. lia.
Qed.

(** X10: as long as no more than [2^32] frames have been sent, each of at
    least one fragment, and fewer than [2^64] fragments in all: an
    acknowledgement of fragment [j] of a frame that has been sent sets
    [last_acked] to the number of fragments of the frames before it plus
    [j]; counted against [cumulative_fpf.back()] at least one packet stays
    in flight, also when the fragment acknowledged is the last one sent. *)
Theorem acknowledged_fragment_stays_in_flight
        (encoder0 : Encoder) (s : state) (ack : AckPacket)
        (before after : list FragmentedFrame) (ff : FragmentedFrame) :
  reachable cfg encoder0 s ->
  Z.of_nat (length (socket_sent s)) <= UINT32_MOD ->
  Forall (fun ff => 1 <= fragments_of ff) (socket_sent s) ->
  total (map fragments_of (socket_sent s)) < UINT64_MOD ->
  socket_sent s = before ++ ff :: after ->
  ack_connection_id ack = connection_id cfg ->
  ack_frame_no ack = Z.of_nat (length before) ->
  0 <= ack_fragment_no ack < fragments_of ff ->
  exists s',
    ack_handler cfg ack s = Done Continue s' /\
    avg_delay s' = ack_avg_delay ack /\
    last_acked s' = total (map fragments_of before) + ack_fragment_no ack /\
    back (cumulative_fpf s') = Some (total (map fragments_of (socket_sent s))) /\
    1 <= total (map fragments_of (socket_sent s)) - last_acked s'.
Proof.
  intros Hreach Hlen Hpos Htot Hsplit Hid Hno Hfrag.
  pose proof (reachable_invariant cfg encoder0 s Hreach) as Hinv.
  destruct (cumulative_fpf_exact s Hinv Hlen Hpos Htot) as [Hcum _].
  set (counts := map fragments_of (socket_sent s)) in *.
  assert (Hcounts : counts = map fragments_of before
                             ++ fragments_of ff :: map fragments_of after).
  { subst counts. rewrite Hsplit, map_app. reflexivity. }
  assert (Hbefore : 0 <= total (map fragments_of before)).
  { apply total_nonnegative. apply Forall_map.
    rewrite Hsplit in Hpos. now apply Forall_app in Hpos as [Hb _]. }
  assert (Hafter : 0 <= total (map fragments_of after)).
  { apply total_nonnegative. apply Forall_map.
    rewrite Hsplit in Hpos. apply Forall_app in Hpos as [_ Ha].
    now inversion Ha. }
  assert (Htotal : total counts
                   = total (map fragments_of before) + fragments_of ff
                     + total (map fragments_of after)).
  { rewrite Hcounts, total_app. unfold total at 2. cbn [fold_right].
    fold (total (map fragments_of after)). lia. }
  assert (Hback : back (cumulative_fpf s) = Some (total counts)).
  { rewrite Hcum. apply back_running_total.
    rewrite Hcounts. destruct (map fragments_of before); discriminate. }
  unfold ack_handler. rewrite Hid, Z.eqb_refl. cbn [negb].
  cbn [cumulative_fpf set_avg_delay].
  destruct (Z.gtb_spec (ack_frame_no ack) 0) as [Hk | Hk].
  - assert (Hnth : nth_error (cumulative_fpf s) (Z.to_nat (ack_frame_no ack - 1))
                   = Some (total (map fragments_of before))).
    { rewrite Hcum, Hcounts. unfold running_total.
      rewrite running_total_from_app_list.
      rewrite nth_error_app1
        by (rewrite running_total_from_length, length_map; lia).
      replace (Z.to_nat (ack_frame_no ack - 1))
        with (pred (length (map fragments_of before)))
        by (rewrite length_map; lia).
      rewrite running_total_from_last; [reflexivity |].
      destruct before; cbn in *; [lia | discriminate]. }
    rewrite Hnth. eexists. split; [reflexivity |].
    cbn [avg_delay last_acked cumulative_fpf set_last_acked set_avg_delay].
    rewrite to_uint64_small by (unfold in_uint64; lia).
    repeat split; trivial. lia.
  - assert (before = []) as -> by (destruct before; cbn in *; [trivial | lia]).
    eexists. split; [reflexivity |].
    cbn [avg_delay last_acked cumulative_fpf set_last_acked set_avg_delay].
    change (total (map fragments_of [])) with 0 in *.
    repeat split; trivial. lia.
Qed.

End InFlight.

(** ** More on [target_size] *)

Section TargetSizeProperties.

Lemma to_int64_small (x : Z) : - 2 ^ 63 <= x < 2 ^ 63 -> to_int64 x = x.
Proof.
  intros H. unfold to_int64, INT64_MAX.
  destruct (Z_lt_ge_dec x 0).
  - rewrite to_uint64_negative by (unfold UINT64_MOD; lia).
    unfold UINT64_MOD. destruct (Z.leb_spec (x + 2 ^ 64) (2 ^ 63 - 1)); lia.
  - rewrite to_uint64_small by (unfold in_uint64, UINT64_MOD; lia).
    destruct (Z.leb_spec x (2 ^ 63 - 1)); lia.
Qed.

Lemma to_int64_wrapped (x : Z) : - 2 ^ 64 <= x < - 2 ^ 63 -> to_int64 x = x + 2 ^ 64.
Proof.
  intros H. unfold to_int64, INT64_MAX.
  rewrite to_uint64_negative by (unfold UINT64_MOD; lia).
  unfold UINT64_MOD. destruct (Z.leb_spec (x + 2 ^ 64) (2 ^ 63 - 1)); lia.
Qed.

Lemma to_int64_of_uint64 (x : Z) : to_int64 (to_uint64 x) = to_int64 x.
Proof.
  unfold to_int64, to_uint64, UINT64_MOD. now rewrite Z.mod_mod by lia.
Qed.

Lemma quota_bounds (avg_delay : Z) : 0 <= quota avg_delay <= 100000.
Proof. unfold quota. apply quotient_bounds. lia. Qed.

Lemma target_size_by_budget (avg_delay last_acked last_sent : Z) :
  in_uint32 avg_delay ->
  target_size avg_delay last_acked last_sent
  = (bytes <- mul_long 1400
               (Z.max 0 (to_int64 (quota avg_delay
                                   - to_uint64 (last_sent - last_acked)))) ;;
     Ok (to_uint64 bytes)).
Proof.
  intros Hd. unfold target_size, quota.
  replace (if avg_delay =? 0 then 1 else avg_delay) with (Z.max avg_delay 1)
    by (unfold in_uint32 in Hd; destruct (Z.eqb_spec avg_delay 0); lia).
  now rewrite to_int64_of_uint64.
Qed.

Lemma mul_long_small (b : Z) :
  0 <= b <= INT64_MAX / 1400 -> mul_long 1400 b = Ok (1400 * b).
Proof.
  intros H. unfold mul_long, INT64_MIN.
  assert (1400 * b <= INT64_MAX).
  { pose proof (Z.mul_div_le INT64_MAX 1400). nia. }
  destruct (Z.leb_spec (- 2 ^ 63) (1400 * b)); [| lia].
  destruct (Z.leb_spec (1400 * b) INT64_MAX); [| lia]. reflexivity.
Qed.

Lemma mul_long_large (b : Z) :
  INT64_MAX / 1400 < b -> mul_long 1400 b = Undefined.
Proof.
  intros H. unfold mul_long.
  assert (INT64_MAX < 1400 * b).
  { pose proof (Z.mul_succ_div_gt INT64_MAX 1400). nia. }
  destruct (Z.leb_spec (1400 * b) INT64_MAX); [lia |].
  now rewrite andb_false_r.
Qed.

Lemma target_size_in_window (avg_delay last_acked last_sent : Z) :
  in_uint32 avg_delay ->
  to_uint64 (last_sent - last_acked) <= 2 ^ 63 + quota avg_delay ->
  target_size avg_delay last_acked last_sent
  = Ok (1400 * Z.max 0 (quota avg_delay - to_uint64 (last_sent - last_acked))).
Proof.
  intros Hd Hw. rewrite target_size_by_budget by trivial.
  pose proof (quota_bounds avg_delay) as Hq.
  pose proof (to_uint64_range (last_sent - last_acked)) as Hp.
  unfold in_uint64, UINT64_MOD in Hp.
  rewrite to_int64_small by lia.
  rewrite mul_long_small.
  - cbn [bind]. f_equal. apply to_uint64_small. unfold in_uint64, UINT64_MOD. lia.
  - assert (100000 <= INT64_MAX / 1400) by (vm_compute; discriminate). lia.
Qed.

(** X11: within the window in which the subtraction keeps its sign,
    [target_size] returns a multiple of 1400 of at most 140000000 bytes;
    it is 0 exactly when the packets in flight use up the quota
    [100000 / max(avg_delay, 1)]; and it does not grow when the delay or
    the number of packets in flight grows. *)
Theorem target_size_shrinks_with_load
        (avg_delay avg_delay' last_acked last_sent last_acked' last_sent' : Z) :
  in_uint32 avg_delay -> in_uint32 avg_delay' ->
  0 <= last_acked <= last_sent -> 0 <= last_acked' <= last_sent' ->
  avg_delay <= avg_delay' ->
  last_sent - last_acked <= last_sent' - last_acked' ->
  last_sent' - last_acked' <= 2 ^ 63 ->
  exists bytes bytes',
    target_size avg_delay last_acked last_sent = Ok bytes /\
    target_size avg_delay' last_acked' last_sent' = Ok bytes' /\
    0 <= bytes' <= bytes /\ bytes <= 140000000 /\
    bytes mod 1400 = 0 /\
    (bytes = 0 <-> quota avg_delay <= last_sent - last_acked).
Proof.
  intros Hd Hd' Ha Ha' Havg Hload Hw.
  pose proof (quota_bounds avg_delay) as Hq.
  pose proof (quota_bounds avg_delay') as Hq'.
  assert (Hqq : quota avg_delay' <= quota avg_delay).
  { unfold quota. apply Z.div_le_compat_l; lia. }
  assert (Hp : to_uint64 (last_sent - last_acked) = last_sent - last_acked)
    by (apply to_uint64_small; unfold in_uint64, UINT64_MOD; lia).
  assert (Hp' : to_uint64 (last_sent' - last_acked') = last_sent' - last_acked')
    by (apply to_uint64_small; unfold in_uint64, UINT64_MOD; lia).
  eexists _, _.
  split; [apply target_size_in_window; trivial; lia |].
  split; [apply target_size_in_window; trivial; lia |].
  rewrite Hp, Hp'.
  split; [lia |]. split; [lia |].
  split; [rewrite Z.mul_comm; apply Z.mod_mul; lia | split; lia].
Qed.

(** X12: when more has been acknowledged than sent, by [k] packets, the
    unsigned difference wraps to [2^64 - k] and the budget is
    [quota + k] taken modulo [2^64] as a signed number.  So
    [target_size] returns [1400 * (quota + k)] as long as that fits a
    [long]; its product overflows, which is undefined, from there up to
    [quota + k < 2^63]; it returns 0 for [2^63 <= quota + k < 2^64]; and
    it returns [1400 * (quota + k - 2^64)] beyond, as with the
    [last_acked] of [2^64 - 1] the program starts with. *)
Theorem target_size_over_acknowledged (avg_delay last_acked last_sent : Z) :
  in_uint32 avg_delay -> in_uint64 last_acked -> 0 <= last_sent < last_acked ->
  (quota avg_delay + (last_acked - last_sent) <= INT64_MAX / 1400 ->
   target_size avg_delay last_acked last_sent
   = Ok (1400 * (quota avg_delay + (last_acked - last_sent)))) /\
  (INT64_MAX / 1400 < quota avg_delay + (last_acked - last_sent) < 2 ^ 63 ->
   target_size avg_delay last_acked last_sent = Undefined) /\
  (2 ^ 63 <= quota avg_delay + (last_acked - last_sent) < 2 ^ 64 ->
   target_size avg_delay last_acked last_sent = Ok 0) /\
  (2 ^ 64 <= quota avg_delay + (last_acked - last_sent) ->
   target_size avg_delay last_acked last_sent
   = Ok (1400 * (quota avg_delay + (last_acked - last_sent) - 2 ^ 64))).
Proof.
  intros Hd Ha Hs.
  pose proof (quota_bounds avg_delay) as Hq.
  unfold in_uint64, UINT64_MOD in Ha.
  rewrite target_size_by_budget by trivial.
  rewrite (to_uint64_negative (last_sent - last_acked))
    by (unfold UINT64_MOD; lia).
  unfold UINT64_MOD.
  assert (Hfit : 100000 <= INT64_MAX / 1400) by (vm_compute; discriminate).
  assert (Hmax : INT64_MAX / 1400 < 2 ^ 63) by (vm_compute; reflexivity).
  split; [| split; [| split]]; intros Hb.
  - rewrite to_int64_wrapped by lia.
    replace (quota avg_delay - (last_sent - last_acked + 2 ^ 64) + 2 ^ 64)
      with (quota avg_delay + (last_acked - last_sent)) by lia.
    rewrite Z.max_r by lia.
    rewrite mul_long_small by lia. cbn [bind]. f_equal.
    apply to_uint64_small.
    pose proof (Z.mul_div_le INT64_MAX 1400 ltac:(lia)) as Hle.
    unfold in_uint64, UINT64_MOD, INT64_MAX in *. lia.
  - rewrite to_int64_wrapped by lia.
    replace (quota avg_delay - (last_sent - last_acked + 2 ^ 64) + 2 ^ 64)
      with (quota avg_delay + (last_acked - last_sent)) by lia.
    rewrite Z.max_r by lia.
    now rewrite mul_long_large by lia.
  - rewrite to_int64_small by lia.
    rewrite Z.max_l by lia.
    rewrite mul_long_small by lia. reflexivity.
  - rewrite to_int64_small by lia.
    rewrite Z.max_r by lia.
    rewrite mul_long_small by lia. cbn [bind]. f_equal.
    replace (quota avg_delay - (last_sent - last_acked + 2 ^ 64))
      with (quota avg_delay + (last_acked - last_sent) - 2 ^ 64) by lia.
    apply to_uint64_small. unfold in_uint64, UINT64_MOD. lia.
Qed.

End TargetSizeProperties.

Lemma target_size_shrinks_with_load_witness :
  exists bytes bytes',
    target_size 1000 3 10 = Ok bytes /\
    target_size 2000 3 20 = Ok bytes' /\
    0 <= bytes' <= bytes /\ bytes <= 140000000 /\
    bytes mod 1400 = 0 /\
    (bytes = 0 <-> quota 1000 <= 10 - 3).
Proof.
  apply (target_size_shrinks_with_load 1000 2000 3 10 3 20);
    unfold in_uint32, UINT32_MOD; simpl; lia.
Defined.

Lemma target_size_over_acknowledged_witness :
  target_size 100000 12 10 = Ok (1400 * (quota 100000 + (12 - 10))) /\
  target_size 1000 (2 ^ 64 - 1) 3
  = Ok (1400 * (quota 1000 + (2 ^ 64 - 1 - 3) - 2 ^ 64)).
Proof.
  split.
  - apply (proj1 (target_size_over_acknowledged 100000 12 10
                    ltac:(unfold in_uint32, UINT32_MOD; simpl; lia)
                    ltac:(unfold in_uint64, UINT64_MOD; simpl; lia)
                    ltac:(lia))).
    vm_compute. discriminate.
  - apply (proj2 (proj2 (proj2 (target_size_over_acknowledged 1000 (2 ^ 64 - 1) 3
                    ltac:(unfold in_uint32, UINT32_MOD; simpl; lia)
                    ltac:(unfold in_uint64, UINT64_MOD; simpl; lia)
                    ltac:(simpl; lia))))).
    vm_compute. discriminate.
Defined.

Example target_size_at_startup :
  target_size 1000 (2 ^ 64 - 1) 3 = Ok 134400.
Proof. reflexivity. Qed.

Example target_size_overflowing :
  target_size 100000 (2 ^ 62) 0 = Undefined.
Proof. reflexivity. Qed.

Example target_size_two_extra :
  target_size 100000 12 10 = Ok 4200.
Proof. reflexivity. Qed.

(** ** More on [TwoD] and [TwoDSubRange] *)

Section TwoDMore.

Import TwoDim TwoDOps.

Variable T : Type.

Lemma vector_at_place (v : list T) (n : Z) :
  vector_at v n
  = (i <- vector_place v n ;;
     match nth_error v i with Some x => Ok x | None => Undefined end).
Proof.
  unfold vector_at, vector_place.
  destruct (Nat.ltb_spec (Z.to_nat n) (length v)) as [H | H]; cbn [bind].
  - destruct (nth_error v (Z.to_nat n)) eqn:E; trivial.
    apply nth_error_None in E. lia.
  - apply nth_error_None in H. now rewrite H.
Qed.

(** [at] is the element at the place it refers to. *)
Lemma TwoD_at_place (t : TwoD T) (column row : Z) :
  TwoD_at t column row
  = (i <- TwoD_place t column row ;;
     match nth_error (storage_ t) i with Some x => Ok x | None => Undefined end).
Proof.
  unfold TwoD_at, TwoD_place.
  destruct (_ || _); [reflexivity |]. apply vector_at_place.
Qed.

Lemma TwoDSubRange_at_place (s : TwoDSubRange T) (column row : Z) :
  TwoDSubRange_at s column row
  = (i <- TwoDSubRange_place s column row ;;
     match nth_error (storage_ (master_ s)) i with
     | Some x => Ok x
     | None => Undefined
     end).
Proof.
  unfold TwoDSubRange_at, TwoDSubRange_place.
  destruct (_ || _); [reflexivity |]. apply TwoD_at_place.
Qed.

(** X13: what [TwoD::at] does at a column and a row of a container the
    constructor has made.  Beyond the width or the height it throws its
    own exception, whatever the index would be.  Up to them, and when the
    index [row * width + column] does not wrap on 32 bits: in row [height],
    and at column [width] of the last row, [std::vector::at] throws its
    [std::out_of_range], which is not the exception of the guard;
    everywhere else, column [width] of the other rows included, it returns
    the element of that index. *)
Theorem TwoD_at_three_ways (t : TwoD T) (column row : Z) :
  TwoD_wf t -> 0 <= column -> 0 <= row ->
  (width_ t < column \/ height_ t < row ->
   TwoD_at t column row = Throw (out_of_range guard_message)) /\
  (column <= width_ t ->
   row = height_ t \/ (row = height_ t - 1 /\ column = width_ t) ->
   row * width_ t + column < UINT32_MOD ->
   exists what,
     TwoD_at t column row = Throw (out_of_range what) /\
     what <> guard_message) /\
  (column <= width_ t -> row < height_ t ->
   ~ (row = height_ t - 1 /\ column = width_ t) ->
   row * width_ t + column < UINT32_MOD ->
   exists x, TwoD_at t column row = Ok x /\
             nth_error (storage_ t) (Z.to_nat (row * width_ t + column)) = Some x).
Proof.
  intros [Hw Hh Hlen] Hc Hr.
  unfold TwoD_at. split; [| split].
  - intros [H | H].
    + destruct (Z.gtb_spec column (width_ t)); [reflexivity | lia].
    + destruct (Z.gtb_spec row (height_ t)); [now rewrite orb_true_r | lia].
  - intros Hcw Hplace Hfit.
    rewrite to_uint32_small by (unfold in_uint32; nia).
    rewrite guard_passes by lia.
    unfold vector_at.
    destruct (nth_error _ _) eqn:E.
    + assert (nth_error (storage_ t) (Z.to_nat (row * width_ t + column)) <> None)
        as Hn by congruence.
      apply nth_error_Some in Hn. nia.
    + eexists. split; [reflexivity |]. discriminate.
  - intros Hcw Hrh Hplace Hfit.
    rewrite to_uint32_small by (unfold in_uint32; nia).
    rewrite guard_passes by lia.
    destruct (vector_at_in_range T (storage_ t) (row * width_ t + column))
      as [x [E1 E2]]; [nia |].
    exists x. now split.
Qed.

(** X14: for a sub-range whose rectangle lies in a master the constructor
    has made (origin and extent not negative, [column_ + width_] and
    [row_ + height_] within the master), [at] up to its width and height
    is [at] of the master at the position shifted by its origin; inside
    the rectangle, when the master has at most [2^32] elements, that is
    the element the master stores there. *)
Theorem TwoDSubRange_at_translates (s : TwoDSubRange T) (column row : Z) :
  TwoDSubRange_wf s ->
  0 <= column <= sub_width_ s -> 0 <= row <= sub_height_ s ->
  TwoDSubRange_at s column row
  = TwoD_at (master_ s) (column_ s + column) (row_ s + row) /\
  (column < sub_width_ s -> row < sub_height_ s ->
   width_ (master_ s) * height_ (master_ s) <= UINT32_MOD ->
   exists x,
     TwoDSubRange_at s column row = Ok x /\
     stored_at (master_ s) (column_ s + column) (row_ s + row) = Some x).
Proof.
  intros Hwf Hc Hr.
  rewrite (TwoDSubRange_at_forwarded T s column row Hwf) by lia.
  split; [reflexivity |].
  intros Hcw Hrh Hfit.
  destruct Hwf as [Hm [Hc0 Hr0] _ Hcols Hrows].
  apply (TwoD_at_inside T (master_ s) (column_ s + column) (row_ s + row));
    trivial; lia.
Qed.

(** X15: the constructor returns a container of [width * height] elements in
    which the element of column [c] and row [r] was built for that column
    and that row, from the element above it (none in row 0) and the element
    to its left (none in column 0). *)
Theorem constructor_builds_every_element
        (construct : Context T -> T) (w h : Z) :
  0 < w < UINT32_MOD -> 0 < h < UINT32_MOD -> w * h <= UINT32_MOD ->
  exists t,
    TwoD_new construct w h = Ok t /\
    TwoD_wf t /\ width_ t = w /\ height_ t = h /\
    forall c r, 0 <= c < w -> 0 <= r < h ->
      exists x,
        TwoD_at t c r = Ok x /\
        x = construct (mkContext c r
                         (if r >? 0 then stored_at t c (r - 1) else None)
                         (if c >? 0 then stored_at t (c - 1) r else None)).
Proof.
  intros Hw Hh Hfit.
  destruct (TwoD_new_filled T construct w h Hw Hh Hfit)
    as (t & Hnew & Hwf & Ew & Eh & Hel).
  exists t. repeat (split; trivial).
  intros c r Hc Hr.
  destruct (Hel c r Hc Hr) as (x & Hst & Hx).
  destruct (TwoD_at_inside T t c r Hwf) as (x' & Hat & Hst');
    rewrite ?Ew, ?Eh; trivial.
  exists x. split; [| exact Hx]. congruence.
Qed.

(** *** The constructors of [TwoDSubRange] *)

(** X16: the first constructor passes its assertions exactly when the rectangle
    lies in the master, and what it returns is well formed. *)
Theorem TwoDSubRange_new_in_master (master : TwoD T) (column row width height : Z) :
  TwoD_wf master ->
  0 <= column -> 0 <= row -> 0 <= width -> 0 <= height ->
  column + width < UINT32_MOD -> row + height < UINT32_MOD ->
  (column + width <= width_ master /\ row + height <= height_ master ->
   TwoDSubRange_new master column row width height
   = Some (mkTwoDSubRange master column row width height) /\
   TwoDSubRange_wf (mkTwoDSubRange master column row width height)) /\
  (width_ master < column + width \/ height_ master < row + height ->
   TwoDSubRange_new master column row width height = None).
Proof.
  intros Hm Hc Hr Hw Hh Hcw Hrh.
  unfold TwoDSubRange_new, inside_master.
  cbn [column_ row_ sub_width_ sub_height_ master_].
  rewrite !to_uint32_small by (unfold in_uint32; lia).
  split.
  - intros [H1 H2].
    destruct (Z.leb_spec (column + width) (width_ master)); [| lia].
    destruct (Z.leb_spec (row + height) (height_ master)); [| lia].
    split; [reflexivity |]. constructor; cbn; auto.
  - intros [H | H].
    + destruct (Z.leb_spec (column + width) (width_ master)); [lia | reflexivity].
    + destruct (Z.leb_spec (row + height) (height_ master)); [lia |].
      now rewrite andb_false_r.
Qed.

(** X17: the second constructor of [TwoDSubRange] builds the sub-range of
    the master at the sum of the two origins: when these sums do not wrap
    it passes its assertions exactly when the first constructor does
    there, and gives the same sub-range; the assertions look at the master
    only, not at the parent.  When the new rectangle does lie in the
    parent's, the sub-range is well formed and [at] on it, up to its width
    and height, returns what the parent's [at] returns at the position
    shifted by the origin given. *)
Theorem TwoDSubRange_sub_reads_through_parent
        (parent : TwoDSubRange T) (column row width height : Z) :
  TwoDSubRange_wf parent ->
  0 <= column -> 0 <= row -> 0 <= width -> 0 <= height ->
  (column + column_ parent < UINT32_MOD -> row + row_ parent < UINT32_MOD ->
   TwoDSubRange_sub parent column row width height
   = TwoDSubRange_new (master_ parent) (column + column_ parent)
                      (row + row_ parent) width height) /\
  (column + width <= sub_width_ parent -> row + height <= sub_height_ parent ->
   exists s,
     TwoDSubRange_sub parent column row width height = Some s /\
     TwoDSubRange_wf s /\
     forall c r, 0 <= c <= width -> 0 <= r <= height ->
       TwoDSubRange_at s c r = TwoDSubRange_at parent (column + c) (row + r)).
Proof.
  intros Hp Hc0 Hr0 Hw0 Hh0.
  pose proof Hp as [[Hmw Hmh Hlen] [Hpc Hpr] [Hpw Hph] Hcols Hrows].
  split.
  - intros Hcs Hrs. unfold TwoDSubRange_sub, TwoDSubRange_new.
    now rewrite !to_uint32_small by (unfold in_uint32; lia).
  - intros Hcw Hrh.
    assert (Hwf : TwoDSubRange_wf
                    (mkTwoDSubRange (master_ parent) (column + column_ parent)
                                    (row + row_ parent) width height)).
    { constructor; cbn; try lia. constructor; trivial. }
    exists (mkTwoDSubRange (master_ parent) (column + column_ parent)
                           (row + row_ parent) width height).
    split; [| split; [exact Hwf |]].
    + unfold TwoDSubRange_sub, inside_master.
      cbn [column_ row_ sub_width_ sub_height_ master_].
      rewrite (to_uint32_small (column + column_ parent)) by (unfold in_uint32; lia).
      rewrite (to_uint32_small (row + row_ parent)) by (unfold in_uint32; lia).
      rewrite !to_uint32_small by (unfold in_uint32; lia).
      destruct (Z.leb_spec (column + column_ parent + width) (width_ (master_ parent)));
        [| lia].
      destruct (Z.leb_spec (row + row_ parent + height) (height_ (master_ parent)));
        [| lia].
      reflexivity.
    + intros c r Hc Hr.
      rewrite (TwoDSubRange_at_forwarded T _ c r Hwf) by (cbn; lia).
      rewrite (TwoDSubRange_at_forwarded T parent (column + c) (row + r) Hp) by lia.
      cbn [master_ column_ row_]. f_equal; lia.
Qed.

(** The second constructor does not look at the parent: a sub-range of one
    place at the origin of a 2 by 3 container accepts a child at column 1
    of row 2, whose [at] returns an element where [at] of the parent
    throws. *)
Example child_outside_its_parent :
  exists child,
    TwoDSubRange_sub (mkTwoDSubRange (mkTwoD 2 3 [10; 11; 20; 21; 30; 31]) 0 0 1 1)
                     1 2 1 1 = Some child /\
    TwoDSubRange_at child 0 0 = Ok 31 /\
    TwoDSubRange_at (mkTwoDSubRange (mkTwoD 2 3 [10; 11; 20; 21; 30; 31]) 0 0 1 1)
                    1 2 = Throw (out_of_range guard_message).
Proof. eexists. split; [reflexivity |]. split; reflexivity. Qed.

End TwoDMore.

(** *** [forall] *)

Section ForallLoops.

Import TwoDim TwoDOps.

Variables T A : Type.
Variable f : A -> T -> Z -> Z -> A * T.

(** The container the loops go over: width [w] of the master, a rectangle
    of [w'] by [h'] places from column [col0] of row [row0], and an [at]
    that finds place [(c, r)] of the rectangle at index
    [(row0 + r) * w + col0 + c] of a vector of [size] elements. *)
Variables w col0 row0 w' h' size : Z.
Variable place : list T -> Z -> Z -> result nat.

Hypothesis Hw : 0 < w.
Hypothesis Horigin : 0 <= col0 /\ 0 <= row0.
Hypothesis Hextent : 0 <= w' /\ 0 <= h'.
Hypothesis Hcolumns : col0 + w' <= w.
Hypothesis Hrows : (row0 + h') * w <= size.
Hypothesis Hplace :
  forall v c r, Z.of_nat (length v) = size -> 0 <= c < w' -> 0 <= r < h' ->
    place v c r = Ok (Z.to_nat ((row0 + r) * w + col0 + c)).

#[local] Abbreviation rect := (in_rect w col0 row0 w' h').
#[local] Abbreviation spec := (sweep_rect w col0 row0 w' h' f).
#[local] Abbreviation swept := (TwoDOps.swept w col0 row0 w' h' f).
#[local] Abbreviation row_end := (TwoDOps.row_end w col0 row0 w').

Lemma sweep_rect_length (i : Z) (a : A) (v : list T) :
  length (snd (spec i a v)) = length v.
Proof.
  revert i a. induction v as [| x rest IH]; intros i a; cbn [sweep_rect]; trivial.
  destruct (if rect i then _ else _) as [a1 x'].
  specialize (IH (i + 1) a1). destruct (spec (i + 1) a1 rest). cbn in *. lia.
Qed.

Lemma sweep_rect_app (i : Z) (a : A) (v1 v2 : list T) :
  spec i a (v1 ++ v2)
  = (fst (spec (i + Z.of_nat (length v1)) (fst (spec i a v1)) v2),
     snd (spec i a v1) ++ snd (spec (i + Z.of_nat (length v1)) (fst (spec i a v1)) v2)).
Proof.
  revert i a. induction v1 as [| x rest IH]; intros i a; cbn [sweep_rect app length].
  - rewrite Z.add_0_r. cbn. now destruct (spec i a v2).
  - destruct (if rect i then _ else _) as [a1 x'].
    rewrite IH.
    replace (i + 1 + Z.of_nat (length rest)) with (i + Z.of_nat (S (length rest))) by lia.
    destruct (spec (i + 1) a1 rest) as [a2 rest']. reflexivity.
Qed.

Lemma sweep_rect_outside (i : Z) (a : A) (v : list T) :
  (forall j, i <= j < i + Z.of_nat (length v) -> rect j = false) ->
  spec i a v = (a, v).
Proof.
  revert i. induction v as [| x rest IH]; intros i H; cbn [sweep_rect]; trivial.
  rewrite H by (cbn [length]; lia).
  rewrite IH; trivial. intros j Hj. apply H. cbn [length]. lia.
Qed.

Lemma swept_length (v0 : list T) (a : A) (cursor : Z) (st : A * list T) :
  swept v0 a cursor st -> length (snd st) = length v0.
Proof.
  intros (pre & post & -> & _ & ->). cbn [snd].
  now rewrite !length_app, sweep_rect_length.
Qed.

Lemma swept_skip (v0 : list T) (a : A) (cursor cursor' : Z) (st : A * list T) :
  Z.of_nat (length v0) = size ->
  swept v0 a cursor st -> cursor <= cursor' <= size ->
  (forall j, cursor <= j < cursor' -> rect j = false) ->
  swept v0 a cursor' st.
Proof.
  intros Hsize (pre & post & -> & Hlen & ->) Hc Hout.
  rewrite length_app in Hsize.
  set (n := Z.to_nat (cursor' - cursor)).
  exists (pre ++ firstn n post), (skipn n post).
  assert (Hn : length (firstn n post) = n) by (apply firstn_length_le; lia).
  split; [now rewrite <- app_assoc, firstn_skipn |].
  split; [rewrite length_app, Hn; lia |].
  rewrite sweep_rect_app. cbn [Z.add].
  rewrite (sweep_rect_outside (0 + Z.of_nat (length pre))).
  - cbn [fst snd]. now rewrite <- app_assoc, firstn_skipn.
  - intros j Hj. apply Hout. lia.
Qed.

Lemma store_middle (pre : list T) (x x' : T) (post : list T) :
  store (pre ++ x :: post) (length pre) x' = pre ++ x' :: post.
Proof. induction pre as [| y pre IH]; cbn; [reflexivity | now rewrite IH]. Qed.

Lemma position (q c : Z) : 0 <= c < w -> (q * w + c) mod w = c /\ (q * w + c) / w = q.
Proof.
  intros Hc. split.
  - rewrite Z.add_comm, Z.mod_add by lia. now apply Z.mod_small.
  - rewrite Z.add_comm, Z.div_add by lia. rewrite Z.div_small by lia. lia.
Qed.

Lemma position_between (q j : Z) :
  q * w <= j < (q + 1) * w -> j mod w = j - q * w /\ j / w = q.
Proof.
  intros Hj. replace j with (q * w + (j - q * w)) at 1 3 by lia.
  apply position. lia.
Qed.

Lemma rect_cell (c r : Z) :
  0 <= c < w' -> 0 <= r < h' ->
  rect ((row0 + r) * w + col0 + c) = true /\
  ((row0 + r) * w + col0 + c) mod w - col0 = c /\
  ((row0 + r) * w + col0 + c) / w - row0 = r.
Proof.
  intros Hc Hr.
  destruct (position (row0 + r) (col0 + c)) as [Em Ed]; [lia |].
  rewrite <- Z.add_assoc. unfold in_rect. rewrite Em, Ed.
  split; [| split; lia].
  destruct (Z.leb_spec col0 (col0 + c)); [| lia].
  destruct (Z.ltb_spec (col0 + c) (col0 + w')); [| lia].
  destruct (Z.leb_spec row0 (row0 + r)); [| lia].
  destruct (Z.ltb_spec (row0 + r) (row0 + h')); [| lia].
  reflexivity.
Qed.

Lemma rect_false_row (j : Z) : 0 <= j -> (j / w < row0 \/ row0 + h' <= j / w) -> rect j = false.
Proof.
  intros Hj H. unfold in_rect.
  destruct (Z.leb_spec row0 (j / w)); [| now rewrite andb_false_r].
  destruct (Z.ltb_spec (j / w) (row0 + h')); [lia | now rewrite andb_false_r].
Qed.

Lemma rect_false_column (j : Z) :
  (j mod w < col0 \/ col0 + w' <= j mod w) -> rect j = false.
Proof.
  intros H. unfold in_rect.
  destruct (Z.leb_spec col0 (j mod w)); [| reflexivity].
  destruct (Z.ltb_spec (j mod w) (col0 + w')); [lia | reflexivity].
Qed.

(** Between the end of the rectangle in one row and its beginning in the
    next there is no place of the rectangle. *)
Lemma rect_gap (q j : Z) :
  0 <= q -> q * w + col0 + w' <= j < (q + 1) * w + col0 -> rect j = false.
Proof.
  intros Hq Hj. apply rect_false_column.
  destruct (Z_lt_ge_dec j ((q + 1) * w)).
  - destruct (position_between q j) as [Em _]; [nia |]. rewrite Em. right. lia.
  - destruct (position_between (q + 1) j) as [Em _]; [nia |]. rewrite Em. left. lia.
Qed.

Lemma rect_before (j : Z) : 0 <= j < row0 * w + col0 -> rect j = false.
Proof.
  intros Hj. destruct (Z_lt_ge_dec j (row0 * w)).
  - apply rect_false_row; [lia |]. left.
    apply Z.div_lt_upper_bound; nia.
  - apply rect_false_column.
    destruct (position_between row0 j) as [Em _]; [nia |]. rewrite Em. left. lia.
Qed.

Lemma rect_after (j : Z) : (row0 + h') * w <= j -> rect j = false.
Proof.
  intros Hj. apply rect_false_row; [nia |]. right.
  apply Z.div_le_lower_bound; nia.
Qed.

Lemma cell_swept (v0 : list T) (a : A) (c r : Z) (st : A * list T) :
  Z.of_nat (length v0) = size ->
  0 <= c < w' -> 0 <= r < h' ->
  swept v0 a ((row0 + r) * w + col0 + c) st ->
  exists st',
    call_on (fun a x => f a x c r) (place (snd st) c r) st = Ok st' /\
    swept v0 a ((row0 + r) * w + col0 + c + 1) st'.
Proof.
  intros Hsize Hc Hr Hswept.
  pose proof (swept_length _ _ _ _ Hswept) as Hlen.
  rewrite Hplace by (trivial; lia).
  destruct Hswept as (pre & post & -> & Hcur & ->).
  assert (Hin : (row0 + r) * w + col0 + c < size) by nia.
  rewrite length_app in Hsize.
  destruct post as [| x post]; [cbn in Hsize; lia |].
  unfold call_on. cbn [bind fst snd].
  assert (Hk : Z.to_nat ((row0 + r) * w + col0 + c) = length (snd (spec 0 a pre))).
  { rewrite sweep_rect_length. lia. }
  rewrite Hk, nth_error_app2, Nat.sub_diag by lia. cbn [nth_error].
  destruct (f (fst (spec 0 a pre)) x c r) as [a1 x'] eqn:Ef.
  eexists. split; [reflexivity |].
  exists (pre ++ [x]), post.
  split; [now rewrite <- app_assoc |].
  split; [rewrite length_app; cbn [length]; lia |].
  rewrite store_middle, sweep_rect_app. cbn [sweep_rect].
  replace (0 + Z.of_nat (length pre)) with ((row0 + r) * w + col0 + c) by lia.
  destruct (rect_cell c r Hc Hr) as (-> & -> & ->).
  rewrite Ef. cbn [fst snd]. now rewrite <- app_assoc.
Qed.

Lemma row_swept (v0 : list T) (a : A) (r : Z) (k : nat) (c : Z) (st : A * list T) :
  Z.of_nat (length v0) = size ->
  0 <= r < h' -> 0 <= c -> c + Z.of_nat k = w' ->
  swept v0 a ((row0 + r) * w + col0 + c) st ->
  exists st',
    iterate k c
      (fun column st => call_on (fun a x => f a x column r) (place (snd st) column r) st)
      st = Ok st' /\
    swept v0 a ((row0 + r) * w + col0 + w') st'.
Proof.
  intros Hsize Hr. revert c st. induction k as [| k IH]; intros c st Hc Hk Hswept.
  - exists st. split; [reflexivity |].
    replace ((row0 + r) * w + col0 + w') with ((row0 + r) * w + col0 + c) by lia.
    exact Hswept.
  - destruct (cell_swept v0 a c r st) as [st1 [E1 S1]]; trivial; [lia |].
    destruct (IH (c + 1) st1) as [st2 [E2 S2]]; try lia.
    { replace ((row0 + r) * w + col0 + (c + 1))
        with ((row0 + r) * w + col0 + c + 1) by lia. exact S1. }
    exists st2. split; trivial.
    cbn [iterate]. rewrite E1. cbn [bind]. exact E2.
Qed.

Lemma rows_swept (v0 : list T) (a : A) (k : nat) (r : Z) (st : A * list T) :
  Z.of_nat (length v0) = size ->
  0 <= r -> r + Z.of_nat k = h' ->
  swept v0 a (row_end r) st ->
  exists st',
    iterate k r
      (fun row =>
         iterate (Z.to_nat w') 0
           (fun column st =>
              call_on (fun a x => f a x column row) (place (snd st) column row) st))
      st = Ok st' /\
    swept v0 a (row_end h') st'.
Proof.
  intros Hsize. revert r st. induction k as [| k IH]; intros r st Hr Hk Hswept.
  - exists st. split; [reflexivity |].
    replace (TwoDOps.row_end w col0 row0 w' h')
      with (TwoDOps.row_end w col0 row0 w' r) by (f_equal; lia).
    exact Hswept.
  - assert (Hstart : swept v0 a ((row0 + r) * w + col0 + 0) st).
    { apply (swept_skip v0 a (row_end r)); trivial.
      - unfold TwoDOps.row_end. destruct (Z.eqb_spec r 0); nia.
      - intros j Hj. unfold TwoDOps.row_end in Hj. destruct (Z.eqb_spec r 0) as [-> | Hr0].
        + apply rect_before. lia.
        + apply (rect_gap (row0 + r - 1)); [lia |].
          replace (row0 + r - 1 + 1) with (row0 + r) by lia. lia. }
    destruct (row_swept v0 a r (Z.to_nat w') 0 st) as [st1 [E1 S1]]; trivial; try lia.
    destruct (IH (r + 1) st1) as [st2 [E2 S2]]; try lia.
    { unfold TwoDOps.row_end. destruct (Z.eqb_spec (r + 1) 0); [lia |].
      replace (row0 + (r + 1) - 1) with (row0 + r) by lia. exact S1. }
    exists st2. split; trivial.
    cbn [iterate]. rewrite E1. cbn [bind]. exact E2.
Qed.

Lemma forall_loops_sweep (v0 : list T) (a : A) :
  Z.of_nat (length v0) = size ->
  forall_loops w' h' place f (a, v0) = Ok (spec 0 a v0).
Proof.
  intros Hsize.
  destruct (rows_swept v0 a (Z.to_nat h') 0 (a, v0)) as [st [E S]]; trivial; try lia.
  { exists [], v0. repeat split. }
  unfold forall_loops. rewrite E. f_equal.
  apply (swept_skip v0 a (row_end h') size) in S; trivial.
  - destruct S as (pre & post & -> & Hlen & ->).
    rewrite length_app in Hsize.
    assert (post = []) as -> by (destruct post; cbn in *; [trivial | lia]).
    rewrite !app_nil_r. now destruct (spec 0 a pre).
  - unfold TwoDOps.row_end. destruct (Z.eqb_spec h' 0); nia.
  - intros j Hj. unfold TwoDOps.row_end in Hj. destruct (Z.eqb_spec h' 0) as [E0 | E0].
    + apply rect_false_row; [lia |].
      destruct (Z_lt_ge_dec (j / w) row0); [now left | right; lia].
    + destruct (Z_lt_ge_dec j ((row0 + h') * w)).
      * apply (rect_gap (row0 + h' - 1)); [lia |].
        replace (row0 + h' - 1 + 1) with (row0 + h') by lia. lia.
      * apply rect_after. lia.
Qed.

End ForallLoops.

Section ForallProperties.

Import TwoDim TwoDOps.

Variables T A : Type.
Variable f : A -> T -> Z -> Z -> A * T.

Lemma sweep_rect_whole (w h i : Z) (a : A) (v : list T) :
  0 < w -> 0 <= i -> i + Z.of_nat (length v) <= w * h ->
  sweep_rect w 0 0 w h f i a v = sweep w f i a v.
Proof.
  intros Hw. revert i a. induction v as [| x rest IH]; intros i a Hi Hlen;
    cbn [sweep_rect sweep]; trivial.
  cbn [length] in Hlen.
  assert (Hin : in_rect w 0 0 w h i = true).
  { unfold in_rect.
    pose proof (Z.mod_pos_bound i w Hw) as Hm.
    assert (0 <= i / w) by (apply Z.div_pos; lia).
    assert (i / w < h) by (apply Z.div_lt_upper_bound; nia).
    destruct (Z.leb_spec 0 (i mod w)); [| lia].
    destruct (Z.ltb_spec (i mod w) (0 + w)); [| lia].
    destruct (Z.leb_spec 0 (i / w)); [| lia].
    destruct (Z.ltb_spec (i / w) (0 + h)); [| lia]. reflexivity. }
  rewrite Hin, !Z.sub_0_r.
  destruct (f a x (i mod w) (i / w)) as [a1 x'].
  rewrite IH by lia. reflexivity.
Qed.

Lemma sweep_rect_keeps_outside (w col0 row0 w' h' i : Z) (a : A) (v : list T) (n : nat) :
  in_rect w col0 row0 w' h' (i + Z.of_nat n) = false ->
  nth_error (snd (sweep_rect w col0 row0 w' h' f i a v)) n = nth_error v n.
Proof.
  revert i a n. induction v as [| x rest IH]; intros i a n Hout; cbn [sweep_rect].
  - reflexivity.
  - destruct n as [| n].
    + rewrite Z.add_0_r in Hout. rewrite Hout.
      now destruct (sweep_rect w col0 row0 w' h' f (i + 1) a rest).
    + destruct (if in_rect w col0 row0 w' h' i then _ else _) as [a1 x'].
      specialize (IH (i + 1) a1 n).
      destruct (sweep_rect w col0 row0 w' h' f (i + 1) a1 rest) as [a2 rest'].
      cbn [snd nth_error] in *. apply IH.
      replace (i + 1 + Z.of_nat n) with (i + Z.of_nat (S n)) by lia. exact Hout.
Qed.

Lemma TwoD_place_inside (t : TwoD T) (v : list T) (c r : Z) :
  0 < width_ t < UINT32_MOD -> 0 < height_ t ->
  width_ t * height_ t <= UINT32_MOD ->
  Z.of_nat (length v) = width_ t * height_ t ->
  0 <= c < width_ t -> 0 <= r < height_ t ->
  TwoD_place (with_storage t v) c r = Ok (Z.to_nat (r * width_ t + c)).
Proof.
  intros Hw Hh Hfit Hlen Hc Hr.
  unfold TwoD_place, with_storage. cbn [width_ height_ storage_].
  rewrite guard_passes by lia.
  assert (0 <= r * width_ t + c < width_ t * height_ t) by nia.
  rewrite to_uint32_small by (unfold in_uint32; lia).
  unfold vector_place.
  destruct (Nat.ltb_spec (Z.to_nat (r * width_ t + c)) (length v)); [reflexivity | lia].
Qed.

(** X18: [forall] on a [TwoD] the constructor has made, of at most [2^32]
    elements, does not throw; it calls [f] once on each element, in the
    order of [storage_], row after row, with the column and the row of the
    element, handing what [f] has captured from one call to the next; the
    elements end up as [f] leaves them. *)
Theorem TwoD_forall_sweeps (t : TwoD T) (a : A) :
  TwoD_wf t -> width_ t * height_ t <= UINT32_MOD ->
  TwoD_forall f t a
  = Ok (fst (sweep (width_ t) f 0 a (storage_ t)),
        with_storage t (snd (sweep (width_ t) f 0 a (storage_ t)))).
Proof.
  intros [Hw Hh Hlen] Hfit. unfold TwoD_forall.
  rewrite (forall_loops_sweep T A f (width_ t) 0 0 (width_ t) (height_ t)
             (width_ t * height_ t)); trivial; try lia.
  - cbn [bind]. rewrite sweep_rect_whole by lia. reflexivity.
  - intros v c r Hv Hc Hr.
    rewrite (TwoD_place_inside t v c r); trivial; try lia.
    do 2 f_equal. lia.
Qed.

(** X19: [forall] on a sub-range whose rectangle lies in its master, a
    master of at most [2^32] elements, does not throw; it goes through the
    places of the master in order and calls [f] on those of its rectangle
    only, with their column and row in the rectangle; every other element
    of the master is left as it was. *)
Theorem TwoDSubRange_forall_sweeps_rectangle (s : TwoDSubRange T) (a : A) :
  TwoDSubRange_wf s ->
  width_ (master_ s) * height_ (master_ s) <= UINT32_MOD ->
  exists a' v',
    sweep_rect (width_ (master_ s)) (column_ s) (row_ s) (sub_width_ s)
               (sub_height_ s) f 0 a (storage_ (master_ s)) = (a', v') /\
    TwoDSubRange_forall f s a
    = Ok (a', with_master s (with_storage (master_ s) v')) /\
    length v' = length (storage_ (master_ s)) /\
    forall column row,
      0 <= column < width_ (master_ s) -> 0 <= row < height_ (master_ s) ->
      ~ in_rectangle s column row ->
      stored_at (with_storage (master_ s) v') column row
      = stored_at (master_ s) column row.
Proof.
  intros Hwf Hfit.
  pose proof Hwf as [[Hmw Hmh Hlen] [Hc0 Hr0] [Hsw Hsh] Hcols Hrows].
  set (W := width_ (master_ s)) in *. set (H := height_ (master_ s)) in *.
  destruct (sweep_rect W (column_ s) (row_ s) (sub_width_ s) (sub_height_ s) f 0 a
                       (storage_ (master_ s))) as [a' v'] eqn:Espec.
  exists a', v'. split; [reflexivity |].
  split; [| split].
  - unfold TwoDSubRange_forall.
    rewrite (forall_loops_sweep T A f W (column_ s) (row_ s) (sub_width_ s)
               (sub_height_ s) (W * H)); trivial; try lia; try nia.
    + fold W. rewrite Espec. reflexivity.
    + intros v c r Hv Hc Hr.
      unfold TwoDSubRange_place, with_master.
      cbn [sub_width_ sub_height_ master_ column_ row_].
      rewrite guard_passes by lia.
      rewrite !to_uint32_small by (unfold in_uint32; lia).
      rewrite (TwoD_place_inside (master_ s) v); fold W H; trivial; try lia.
      do 2 f_equal. lia.
  - pose proof (sweep_rect_length T A f W (column_ s) (row_ s) (sub_width_ s)
                  (sub_height_ s) 0 a (storage_ (master_ s))) as Hl.
    now rewrite Espec in Hl.
  - intros column row Hc Hr Hout.
    unfold stored_at, with_storage. cbn [storage_ width_]. fold W.
    pose proof (sweep_rect_keeps_outside W (column_ s) (row_ s) (sub_width_ s)
                  (sub_height_ s) 0 a (storage_ (master_ s))
                  (Z.to_nat (row * W + column))) as Hkeep.
    rewrite Espec in Hkeep. apply Hkeep.
    replace (0 + Z.of_nat (Z.to_nat (row * W + column))) with (row * W + column) by nia.
    unfold in_rect.
    replace ((row * W + column) mod W) with column
      by (rewrite Z.add_comm, Z.mod_add by lia; symmetry; now apply Z.mod_small).
    replace ((row * W + column) / W) with row
      by (rewrite Z.add_comm, Z.div_add by lia; rewrite Z.div_small by lia; lia).
    unfold in_rectangle in Hout.
    destruct (Z.leb_spec (column_ s) column); [| reflexivity].
    destruct (Z.ltb_spec column (column_ s + sub_width_ s)); [| reflexivity].
    destruct (Z.leb_spec (row_ s) row); [| reflexivity].
    destruct (Z.ltb_spec row (row_ s + sub_height_ s)); [| reflexivity].
    exfalso. apply Hout. lia.
Qed.

End ForallProperties.

(** ** The theorems of this part at concrete inputs *)

Section Instances.

Import Sender Session Fixture.

Lemma only_raster_callback_exits_witness :
  handle cfg (RasterReadable None) one_sent
  = Done (Exit EXIT_FAILURE) (set_last_raster None one_sent) /\
  EXIT_FAILURE <> 0.
Proof.
  assert (H : handle cfg (RasterReadable None) one_sent
              = Done (Exit EXIT_FAILURE) (set_last_raster None one_sent))
    by reflexivity.
  split; [exact H |].
  apply (only_raster_callback_exits cfg (RasterReadable None) one_sent
           (set_last_raster None one_sent) EXIT_FAILURE H).
Defined.

Lemma only_early_ack_reads_out_of_range_witness :
  ack_beyond cfg (AckReceived early_ack) one_sent /\
  (exists ack,
      AckReceived early_ack = AckReceived ack /\
      handle cfg (AckReceived early_ack) one_sent
      = Undef (set_avg_delay (ack_avg_delay ack) one_sent)).
Proof.
  assert (H : ack_beyond cfg (AckReceived early_ack) one_sent)
    by (split; [reflexivity | vm_compute; reflexivity]).
  split; [exact H |].
  apply (proj1 (only_early_ack_reads_out_of_range cfg encoder0
                  (AckReceived early_ack) one_sent one_sent_reachable I) H).
Defined.

Lemma last_acknowledgement_wins_witness :
  ack_handler cfg (mkAck 7 1 2 500)
              (state_of (ack_handler cfg (mkAck 7 1 0 1000) one_sent))
  = Done Continue (state_of (ack_handler cfg (mkAck 7 1 2 500) one_sent)).
Proof.
  apply (last_acknowledgement_wins cfg (mkAck 7 1 0 1000) (mkAck 7 1 2 500) one_sent);
    vm_compute; reflexivity.
Defined.

Lemma frames_numbered_in_order_witness :
  map ff_frame_no (socket_sent one_sent)
  = map (fun k => to_uint32 (Z.of_nat k)) (seq 0 (length (socket_sent one_sent))) /\
  Forall (fun ff => ff_connection_id ff = connection_id cfg /\
                    ff_time_to_next_frame ff = 83000)
         (socket_sent one_sent).
Proof.
  apply (frames_numbered_in_order cfg encoder0 one_sent one_sent_reachable).
Defined.

Lemma encoder_follows_frames_sent_witness :
  exists rasters,
    length rasters = length (socket_sent second_generation) /\
    replay (to_uint8 (y_ac_qi cfg)) encoder0 rasters
    = (encoder second_generation, map ff_frame (socket_sent second_generation)).
Proof.
  apply (proj1 (encoder_follows_frames_sent cfg encoder0 second_generation
                  second_generation_reachable)).
Defined.

Lemma acknowledgements_change_nothing_sent_witness :
  run cfg (acknowledged 1000) start = Some acked /\
  exists s2,
    run cfg (without_acks (acknowledged 1000)) start = Some s2 /\
    socket_sent s2 = socket_sent acked /\ encoder s2 = encoder acked.
Proof.
  assert (H : run cfg (acknowledged 1000) start = Some acked)
    by (vm_compute; reflexivity).
  split; [exact H |].
  destruct (acknowledgements_change_nothing_sent cfg (acknowledged 1000) start acked H)
    as (s2 & Hrun & _ & Hsent & Henc & _).
  exists s2. split; [exact Hrun |]. split; [exact Hsent | exact Henc].
Defined.

Lemma latest_raster_is_sent_witness :
  encode_jobs one_sent = [] /\
  exists s',
    run cfg (arrivals ([1500] ++ [camera_frame]) ++ [Tick too_late; GenerationEnded])
        one_sent = Some s' /\
    frame_no s' = to_uint32 (frame_no one_sent + 1) /\
    last_raster s' = Some camera_frame.
Proof.
  assert (H : encode_jobs one_sent = []) by reflexivity.
  split; [exact H |].
  destruct (latest_raster_is_sent cfg encoder0 one_sent [1500] camera_frame too_late
              one_sent_reachable H)
    as (s' & Hrun & _ & _ & Hno & _ & _ & Hr & _).
  exists s'. split; [exact Hrun |]. split; [exact Hno | exact Hr].
Defined.

Lemma acknowledged_fragment_stays_in_flight_witness :
  exists s',
    ack_handler cfg (mkAck 7 1 1 1000) two_sent = Done Continue s' /\
    avg_delay s' = 1000 /\
    last_acked s' = 3 + 1 /\
    back (cumulative_fpf s') = Some 5 /\
    1 <= 5 - last_acked s'.
Proof.
  destruct (acknowledged_fragment_stays_in_flight cfg encoder0 two_sent
              (mkAck 7 1 1 1000)
              [mkFragmentedFrame 7 0 83000 (repeat Byte.x00 4100)] []
              (mkFragmentedFrame 7 1 83000 (repeat Byte.x00 1500))
              two_sent_reachable)
    as (s' & Hrun & Hd & Hl & Hb & Hflight).
  - vm_compute. discriminate.
  - repeat constructor; vm_compute; discriminate.
  - vm_compute. reflexivity.
  - vm_compute. reflexivity.
  - reflexivity.
  - reflexivity.
  - split; vm_compute; [discriminate | reflexivity].
  - exists s'. split; [exact Hrun |]. split; [exact Hd |].
    split; [rewrite Hl; vm_compute; reflexivity |].
    split; [rewrite Hb; vm_compute; reflexivity |].
    revert Hflight. vm_compute (total _). tauto.
Defined.

End Instances.

Section TwoDInstances.

Import TwoDim TwoDOps.

Lemma grid_wf : TwoD_wf (mkTwoD 2 3 [10; 11; 20; 21; 30; 31]).
Proof. constructor; unfold UINT32_MOD; simpl; lia. Qed.

Lemma grid_window_wf :
  TwoDSubRange_wf (mkTwoDSubRange (mkTwoD 2 3 [10; 11; 20; 21; 30; 31]) 1 1 1 2).
Proof. constructor; simpl; try lia. exact grid_wf. Qed.

Lemma grid_band_wf :
  TwoDSubRange_wf (mkTwoDSubRange (mkTwoD 2 3 [10; 11; 20; 21; 30; 31]) 0 1 2 2).
Proof. constructor; simpl; try lia. exact grid_wf. Qed.

Lemma TwoD_at_three_ways_witness :
  (exists what,
      TwoD_at (mkTwoD 2 3 [10; 11; 20; 21; 30; 31]) 2 2 = Throw (out_of_range what) /\
      what <> guard_message) /\
  (exists x,
      TwoD_at (mkTwoD 2 3 [10; 11; 20; 21; 30; 31]) 2 1 = Ok x /\
      nth_error [10; 11; 20; 21; 30; 31] (Z.to_nat (1 * 2 + 2)) = Some x).
Proof.
  split.
  - apply (proj1 (proj2 (TwoD_at_three_ways Z (mkTwoD 2 3 [10; 11; 20; 21; 30; 31]) 2 2
                           grid_wf ltac:(lia) ltac:(lia))));
      unfold UINT32_MOD; simpl; lia.
  - apply (proj2 (proj2 (TwoD_at_three_ways Z (mkTwoD 2 3 [10; 11; 20; 21; 30; 31]) 2 1
                           grid_wf ltac:(lia) ltac:(lia))));
      unfold UINT32_MOD; simpl; lia.
Defined.

Lemma TwoDSubRange_at_translates_witness :
  exists x,
    TwoDSubRange_at (mkTwoDSubRange (mkTwoD 2 3 [10; 11; 20; 21; 30; 31]) 1 1 1 2) 0 1
    = Ok x /\
    stored_at (mkTwoD 2 3 [10; 11; 20; 21; 30; 31]) (1 + 0) (1 + 1) = Some x.
Proof.
  apply (proj2 (TwoDSubRange_at_translates Z
                  (mkTwoDSubRange (mkTwoD 2 3 [10; 11; 20; 21; 30; 31]) 1 1 1 2) 0 1
                  grid_window_wf ltac:(simpl; lia) ltac:(simpl; lia)));
    unfold UINT32_MOD; simpl; lia.
Defined.

Lemma constructor_builds_every_element_witness :
  exists t,
    TwoD_new (fun c : Context Z =>
                ctx_column c + 10 * ctx_row c
                + match ctx_above c with Some x => x | None => 0 end) 2 3 = Ok t /\
    TwoD_wf t /\ width_ t = 2 /\ height_ t = 3.
Proof.
  destruct (constructor_builds_every_element Z
              (fun c : Context Z =>
                 ctx_column c + 10 * ctx_row c
                 + match ctx_above c with Some x => x | None => 0 end) 2 3)
    as (t & Hnew & Hwf & Hw & Hh & _);
    try (unfold UINT32_MOD; simpl; lia).
  exists t. split; [exact Hnew |]. split; [exact Hwf |]. split; [exact Hw | exact Hh].
Defined.

Lemma TwoDSubRange_new_in_master_witness :
  TwoDSubRange_new (mkTwoD 2 3 [10; 11; 20; 21; 30; 31]) 1 1 1 2
  = Some (mkTwoDSubRange (mkTwoD 2 3 [10; 11; 20; 21; 30; 31]) 1 1 1 2) /\
  TwoDSubRange_new (mkTwoD 2 3 [10; 11; 20; 21; 30; 31]) 1 1 2 2 = None.
Proof.
  split.
  - apply (proj1 (TwoDSubRange_new_in_master Z (mkTwoD 2 3 [10; 11; 20; 21; 30; 31])
                    1 1 1 2 grid_wf ltac:(lia) ltac:(lia) ltac:(lia) ltac:(lia)
                    ltac:(unfold UINT32_MOD; simpl; lia)
                    ltac:(unfold UINT32_MOD; simpl; lia))).
    simpl; lia.
  - apply (proj2 (TwoDSubRange_new_in_master Z (mkTwoD 2 3 [10; 11; 20; 21; 30; 31])
                    1 1 2 2 grid_wf ltac:(lia) ltac:(lia) ltac:(lia) ltac:(lia)
                    ltac:(unfold UINT32_MOD; simpl; lia)
                    ltac:(unfold UINT32_MOD; simpl; lia))).
    simpl; lia.
Defined.

Lemma TwoDSubRange_sub_reads_through_parent_witness :
  exists s,
    TwoDSubRange_sub (mkTwoDSubRange (mkTwoD 2 3 [10; 11; 20; 21; 30; 31]) 0 1 2 2)
                     1 0 1 2 = Some s /\
    TwoDSubRange_wf s /\
    forall c r, 0 <= c <= 1 -> 0 <= r <= 2 ->
      TwoDSubRange_at s c r
      = TwoDSubRange_at (mkTwoDSubRange (mkTwoD 2 3 [10; 11; 20; 21; 30; 31]) 0 1 2 2)
                        (1 + c) (0 + r).
Proof.
  apply (proj2 (TwoDSubRange_sub_reads_through_parent Z
                  (mkTwoDSubRange (mkTwoD 2 3 [10; 11; 20; 21; 30; 31]) 0 1 2 2)
                  1 0 1 2 grid_band_wf
                  ltac:(lia) ltac:(lia) ltac:(lia) ltac:(lia)));
    simpl; lia.
Defined.

Lemma TwoD_forall_sweeps_witness :
  TwoD_forall (fun a x column row => (a + x, x + column * row))
              (mkTwoD 2 3 [10; 11; 20; 21; 30; 31]) 0
  = Ok (123, mkTwoD 2 3 [10; 11; 20; 22; 30; 33]).
Proof.
  rewrite (TwoD_forall_sweeps Z Z (fun a x column row => (a + x, x + column * row))
             (mkTwoD 2 3 [10; 11; 20; 21; 30; 31]) 0 grid_wf);
    [reflexivity | unfold UINT32_MOD; simpl; lia].
Defined.

Lemma TwoDSubRange_forall_sweeps_rectangle_witness :
  TwoDSubRange_forall (fun a x column row => (a + x, x + column + row + 1))
    (mkTwoDSubRange (mkTwoD 2 3 [10; 11; 20; 21; 30; 31]) 1 1 1 2) 0
  = Ok (52, mkTwoDSubRange (mkTwoD 2 3 [10; 11; 20; 22; 30; 33]) 1 1 1 2).
Proof.
  destruct (TwoDSubRange_forall_sweeps_rectangle Z Z
              (fun a x column row => (a + x, x + column + row + 1))
              (mkTwoDSubRange (mkTwoD 2 3 [10; 11; 20; 21; 30; 31]) 1 1 1 2) 0
              grid_window_wf)
    as (a' & v' & Hsweep & Hrun & _).
  - unfold UINT32_MOD; simpl; lia.
  - rewrite Hrun. vm_compute in Hsweep. injection Hsweep as <- <-. reflexivity.
Defined.

End TwoDInstances.

(** ** The frame counter wraps *)

Section FrameCounterWraps.

Import Sender Fixture.

Lemma steps_app (evs1 evs2 : list event) (s : state) :
  steps (evs1 ++ evs2) s
  = match steps evs1 s with
    | Some s1 => steps evs2 s1
    | None => None
    end.
Proof.
  revert s. induction evs1 as [| ev rest IH]; intros s; cbn [app steps]; trivial.
  destruct (can_fire ev s); trivial.
  destruct (handle cfg ev s) as [[| status] s1 | e s1 | s1]; trivial.
Qed.

(** One turn from an idle state: one frame of one fragment goes out and
    one entry is appended. *)
Lemma round_sends_one_fragment (s : state) :
  reachable cfg encoder0 s -> encode_jobs s = [] ->
  exists s' ff,
    steps round s = Some s' /\
    reachable cfg encoder0 s' /\ encode_jobs s' = [] /\
    socket_sent s' = socket_sent s ++ [ff] /\ fragments_of ff = 1 /\
    cumulative_fpf s' = cumulative_fpf s ++ [next_entry s 1].
Proof.
  intros Hreach Hidle.
  set (s0 := set_last_raster (Some small_frame) s).
  assert (Hreach0 : reachable cfg encoder0 s0).
  { apply (reach_step cfg encoder0 s (RasterReadable (Some small_frame)) s0);
      [exact Hreach | exact I | reflexivity]. }
  pose proof (tick_spawns cfg on_time s0 small_frame Hidle eq_refl) as Htick.
  set (s1 := start_generation on_time
               (set_encode_jobs [first_job cfg s0 small_frame] s0)) in Htick.
  assert (Hreach1 : reachable cfg encoder0 s1).
  { apply (reach_step cfg encoder0 s0 (Tick on_time) s1);
      [exact Hreach0 | exact I | exact Htick]. }
  assert (Hfire : fires GenerationEnded s1) by (cbn; lia).
  destruct (generation_always_sent cfg encoder0 s1 Hreach1 Hfire)
    as (f & output & Ho & Hv & Hs & Hrun).
  assert (Hf : f = async on_time (first_job cfg s0 small_frame)).
  { cbn in Ho. now injection Ho as <-. }
  assert (Hout : out_frame output = [Byte.x00]).
  { rewrite Hf in Hs. cbn in Hs. now injection Hs as <-. }
  eexists. exists (emitted cfg s1 output).
  split.
  { unfold round. cbn [steps can_fire handle raster_handler last_raster
                       set_last_raster].
    fold s0. rewrite Htick. fold s1.
    assert (Hen : (0 <? generations s1)%nat = true) by (apply Nat.ltb_lt; cbn; lia).
    rewrite Hen, Hrun. reflexivity. }
  split.
  { apply (reach_step cfg encoder0 s1 GenerationEnded); [exact Hreach1 | exact Hfire |
                                                         exact Hrun]. }
  split; [reflexivity |].
  split; [reflexivity |].
  split.
  { unfold fragments_of, emitted. cbn [ff_frame]. rewrite Hout. reflexivity. }
  cbn [commit cumulative_fpf socket_send set_encode_outputs set_generations].
  rewrite Hout. reflexivity.
Qed.

Lemma rounds_run (n : nat) :
  exists s,
    steps (rounds n) start = Some s /\
    reachable cfg encoder0 s /\ encode_jobs s = [] /\
    length (socket_sent s) = n /\
    Forall (fun ff => fragments_of ff = 1) (socket_sent s).
Proof.
  induction n as [| n (s & Hrun & Hreach & Hidle & Hlen & Hall)].
  - exists start. repeat split; try reflexivity; constructor.
  - destruct (round_sends_one_fragment s Hreach Hidle)
      as (s' & ff & Hstep & Hreach' & Hidle' & Hsent & Hone & _).
    exists s'. cbn [rounds]. rewrite steps_app, Hrun.
    split; [exact Hstep |]. split; [exact Hreach' |]. split; [exact Hidle' |].
    rewrite Hsent. split.
    + rewrite length_app, Hlen. cbn [length]. lia.
    + apply Forall_app. split; [exact Hall | now constructor].
Qed.

Lemma total_of_ones (l : list Z) :
  Forall (fun c => c = 1) l -> total l = Z.of_nat (length l).
Proof.
  induction 1 as [| c l Hc _ IH]; [reflexivity |].
  unfold total in *. cbn [fold_right length]. rewrite IH, Hc. lia.
Qed.

Lemma not_increasing_at_the_end (l : list Z) (a b : Z) :
  b <= a -> ~ strictly_increasing (l ++ [a; b]).
Proof.
  intros Hle. induction l as [| x l IH]; cbn [app strictly_increasing].
  - lia.
  - destruct (l ++ [a; b]) as [| y rest] eqn:E.
    + destruct l; discriminate.
    + intros [_ H]. apply IH. exact H.
Qed.

(** After [2^32] frames [frame_no] is 0 again, and the next frame is given
    its fragment count alone, as frame 0 was. *)
Lemma entry_after_wrap (n : nat) :
  Z.of_nat n = UINT32_MOD ->
  exists s earlier,
    steps (rounds (S n)) start = Some s /\
    reachable cfg encoder0 s /\
    Z.of_nat (length (socket_sent s)) = UINT32_MOD + 1 /\
    Forall (fun ff => fragments_of ff = 1) (socket_sent s) /\
    length (cumulative_fpf s) = length (socket_sent s) /\
    cumulative_fpf s = earlier ++ [UINT32_MOD; 1] /\
    ~ strictly_increasing (cumulative_fpf s).
Proof.
  intros Hn.
  destruct (rounds_run n) as (s & Hrun & Hreach & Hidle & Hlen & Hall).
  destruct (round_sends_one_fragment s Hreach Hidle)
    as (s' & ff & Hstep & Hreach' & Hidle' & Hsent & Hone & Hfpf).
  pose proof (reachable_invariant cfg encoder0 s Hreach) as Hinv.
  assert (Hcounts : Forall (fun c => c = 1) (map fragments_of (socket_sent s))).
  { apply Forall_map. exact Hall. }
  assert (Htotal : total (map fragments_of (socket_sent s)) = UINT32_MOD).
  { rewrite (total_of_ones _ Hcounts), length_map, Hlen. exact Hn. }
  destruct (cumulative_fpf_exact s Hinv) as [Hexact _].
  { rewrite Hlen, Hn. lia. }
  { eapply Forall_impl; [| exact Hall]. cbn. intros x Hx. rewrite Hx. lia. }
  { rewrite Htotal. unfold UINT32_MOD, UINT64_MOD. lia. }
  assert (Hne : map fragments_of (socket_sent s) <> []).
  { intros E. rewrite E in Htotal. unfold UINT32_MOD in Htotal. discriminate Htotal. }
  destruct (exists_last Hne) as (counts & c & Ecounts).
  assert (Hlast : cumulative_fpf s
                  = running_total_from 0 counts ++ [UINT32_MOD]).
  { rewrite Hexact. unfold running_total. rewrite Ecounts, running_total_from_app.
    do 2 f_equal. rewrite <- Htotal, Ecounts, total_app. unfold total. cbn. lia. }
  assert (Hzero : frame_no s = 0).
  { rewrite (inv_frame_no s Hinv), Hlen, Hn. unfold to_uint32. apply Z.mod_same.
    unfold UINT32_MOD. lia. }
  assert (Hentry : next_entry s 1 = 1).
  { unfold next_entry. rewrite Hzero. reflexivity. }
  assert (Hfpf' : cumulative_fpf s'
                  = running_total_from 0 counts ++ [UINT32_MOD; 1]).
  { rewrite Hfpf, Hentry, Hlast, <- app_assoc. reflexivity. }
  exists s', (running_total_from 0 counts).
  split.
  { cbn [rounds]. rewrite steps_app, Hrun. exact Hstep. }
  split; [exact Hreach' |].
  split; [rewrite Hsent, length_app, Hlen; cbn [length]; lia |].
  split; [rewrite Hsent; apply Forall_app; split; [exact Hall | now constructor] |].
  split; [apply (inv_length s' (reachable_invariant cfg encoder0 s' Hreach')) |].
  split; [exact Hfpf' |].
  rewrite Hfpf'. apply not_increasing_at_the_end. unfold UINT32_MOD. lia.
Qed.

(** C8, as stated, fails: after [2^32 + 1] frames of one fragment each the
    entry appended for the last frame is 1, the fragment count of that
    frame alone, although the entry before it is [2^32]; so
    [cumulative_fpf] is not strictly increasing although every frame has a
    fragment. *)
Lemma cumulative_fpf_wraps_counterexample :
  exists (s : state) (earlier : list Z),
    steps (rounds (S (Z.to_nat UINT32_MOD))) start = Some s /\
    reachable cfg encoder0 s /\
    Z.of_nat (length (socket_sent s)) = UINT32_MOD + 1 /\
    Forall (fun ff => fragments_of ff = 1) (socket_sent s) /\
    length (cumulative_fpf s) = length (socket_sent s) /\
    cumulative_fpf s = earlier ++ [UINT32_MOD; 1] /\
    ~ strictly_increasing (cumulative_fpf s).
Proof.
  apply (entry_after_wrap (Z.to_nat UINT32_MOD)).
  apply Z2Nat.id. unfold UINT32_MOD. lia.
Qed.

End FrameCounterWraps.
